(** * Reactivity and scheduling core of the Vue 2.6 study repository

    A shallow embedding of the observer subsystem
    ([core/observer/dep.js], [watcher.js], [scheduler.js], [index.js],
    [array.js]) and the properties stated about it.

    Objects of the program are kept in explicit stores and named by
    the integers the program itself gives them: a [Dep] by its [id]
    (assigned by [uid++]), a [Watcher] by its [id] (assigned by
    [++uid]).  Both counters are never reset, so an id names exactly
    one object and stands for the JavaScript reference to it. *)

From stdpp Require Import gmap list strings sorting.

Set Warnings "-clear-no-such-hyp".

(** ** JavaScript values *)

(** Numbers keep the three features strict equality looks at: [NaN],
    the two zeros, and ordinary values (an integer stands for any
    other double). *)
Inductive number :=
| NaN
| NegZero
| Fin (z : Z).

Inductive jsval :=
| VUndef
| VNull
| VBool (b : bool)
| VNum (n : number)
| VStr (s : string)
| VRef (l : nat).

#[global] Instance number_eq_dec : EqDecision number.
Proof. solve_decision. Defined.
#[global] Instance jsval_eq_dec : EqDecision jsval.
Proof. solve_decision. Defined.

(** [a === b] on numbers: [NaN] differs from everything, itself
    included; [-0] and [+0] are equal. *)
Definition num_strict_eq (a b : number) : bool :=
  match a, b with
  | NaN, _ | _, NaN => false
  | NegZero, NegZero => true
  | NegZero, Fin z | Fin z, NegZero => bool_decide (z = 0%Z)
  | Fin x, Fin y => bool_decide (x = y)
  end.

(** [a === b]: same type and same value; references by identity. *)
Definition strict_eq (a b : jsval) : bool :=
  match a, b with
  | VUndef, VUndef => true
  | VNull, VNull => true
  | VBool x, VBool y => bool_decide (x = y)
  | VNum x, VNum y => num_strict_eq x y
  | VStr x, VStr y => bool_decide (x = y)
  | VRef x, VRef y => bool_decide (x = y)
  | _, _ => false
  end.

Definition is_nan (v : jsval) : bool :=
  match v with VNum NaN => true | _ => false end.

(** Build configuration: [process.env.NODE_ENV !== 'production'] and
    [config.async]. *)
Record Config := mkConfig {
  dev : bool;
  async : bool;
}.

(** What a call may end with: a value, or an exception that leaves
    through the caller. *)
Inductive outcome (A : Type) :=
| Returned (a : A)
| Thrown.
Arguments Returned {A} a.
Arguments Thrown {A}.

(** Modelled from the spec: [remove] of [shared/util], which is not
    among the sources; [Dep.removeSub] and [Watcher.teardown] use it to
    "maintain the subscriber set".  It takes the first occurrence of
    the item out of the array and leaves the array alone when the item
    is absent. *)
Fixpoint remove (arr : list nat) (item : nat) : list nat :=
  match arr with
  | [] => []
  | x :: rest => if decide (x = item) then rest else x :: remove rest item
  end.

(** * Dep and Watcher *)

Module Reactive.

Record Watcher := mkWatcher {
  vm : nat;
  deep : bool;
  user : bool;
  lazy : bool;
  sync : bool;
  dirty : bool;
  active : bool;
  deps : list nat;
  newDeps : list nat;
  depIds : gset nat;
  newDepIds : gset nat;
  value : jsval;
}.

(** The part of a component instance the watcher touches. *)
Record Vm := mkVm {
  _watchers : list nat;
  _isBeingDestroyed : bool;
}.

Inductive Event :=
| EvUpdate (w : nat)                       (* [w.update()] entered *)
| EvQueue (w : nat)                        (* [queueWatcher(w)] *)
| EvCallback (w : nat) (v old : jsval)     (* [w.cb.call(vm, v, old)] *)
| EvHandleError (w : nat).                 (* [handleError(e, vm, ...)] *)

#[global] Instance Event_eq_dec : EqDecision Event.
Proof. solve_decision. Defined.

Record State := mkState {
  subs : gmap nat (list nat);       (* [dep.subs], by dep id *)
  watchers : gmap nat Watcher;      (* by watcher id *)
  vms : gmap nat Vm;
  uid : nat;                        (* the watcher counter *)
  target : option nat;              (* [Dep.target] *)
  targetStack : list (option nat);
  log : list Event;
}.

(** What one run of a watcher's getter does, as far as this module can
    see it: the deps whose [depend()] is reached while the watcher is
    [Dep.target], in order (a computed property read by the getter
    shows here by the [depend()] calls that [Watcher.depend] makes for
    the evaluating watcher); the value it returns, or [None] when it
    throws; whether that value is a function ([typeof] answers
    ['function']); and for [traverse(value)] of a deep watcher the
    deps reached, and whether a property getter met on the way
    throws, which ends the traversal. *)
Record Evaluation := mkEvaluation {
  ev_reads : list nat;
  ev_value : option jsval;
  ev_function : bool;
  ev_traverse : list nat;
  ev_traverse_throws : bool;
}.

Definition subs_of (st : State) (d : nat) : list nat :=
  default [] (subs st !! d).

Definition set_subs (d : nat) (l : list nat) (st : State) : State :=
  mkState (<[d := l]> (subs st)) (watchers st) (vms st) (uid st)
          (target st) (targetStack st) (log st).

Definition set_watcher (w : nat) (W : Watcher) (st : State) : State :=
  mkState (subs st) (<[w := W]> (watchers st)) (vms st) (uid st)
          (target st) (targetStack st) (log st).

Definition set_vm (v : nat) (V : Vm) (st : State) : State :=
  mkState (subs st) (watchers st) (<[v := V]> (vms st)) (uid st)
          (target st) (targetStack st) (log st).

Definition emit (e : Event) (st : State) : State :=
  mkState (subs st) (watchers st) (vms st) (uid st)
          (target st) (targetStack st) (log st ++ [e]).

(** *** Dep *)

Definition addSub (d sub : nat) (st : State) : State :=
  set_subs d (subs_of st d ++ [sub]) st.

Definition removeSub (d sub : nat) (st : State) : State :=
  set_subs d (remove (subs_of st d) sub) st.

Definition pushTarget (t : option nat) (st : State) : State :=
  mkState (subs st) (watchers st) (vms st) (uid st)
          t (targetStack st ++ [t]) (log st).

(** [targetStack.pop(); Dep.target = targetStack[targetStack.length - 1]];
    reading past the bottom gives [undefined]. *)
Definition popTarget (st : State) : State :=
  let stack := removelast (targetStack st) in
  mkState (subs st) (watchers st) (vms st) (uid st)
          (mjoin (last stack)) stack (log st).

(** *** Watcher *)

Definition addDep (w d : nat) (st : State) : State :=
  match watchers st !! w with
  | None => st
  | Some W =>
    if decide (d ∈ newDepIds W) then st
    else
      let W' := mkWatcher (vm W) (deep W) (user W) (lazy W) (sync W)
                  (dirty W) (active W) (deps W) (newDeps W ++ [d])
                  (depIds W) ({[d]} ∪ newDepIds W) (value W) in
      let st' := set_watcher w W' st in
      if decide (d ∈ depIds W) then st' else addSub d w st'
  end.

(** [Dep.depend]: only under a current target. *)
Definition depend (d : nat) (st : State) : State :=
  match target st with
  | Some t => addDep t d st
  | None => st
  end.

Definition cleanupDeps (w : nat) (st : State) : State :=
  match watchers st !! w with
  | None => st
  | Some W =>
    (* [while (i--)]: from the last dep to the first *)
    let st1 :=
      foldr (λ d s, if decide (d ∈ newDepIds W) then s else removeSub d w s)
            st (deps W) in
    let W' := mkWatcher (vm W) (deep W) (user W) (lazy W) (sync W)
                (dirty W) (active W) (newDeps W) []
                (newDepIds W) ∅ (value W) in
    set_watcher w W' st1
  end.

(** [Watcher.get]: the target is pushed, the getter runs (its reads are
    [depend] calls), and the [finally] block traverses, pops and cleans
    up whether or not the getter threw.  An exception of [traverse]
    leaves the [finally] block at once: [popTarget()] and
    [cleanupDeps()] are not reached, and no [catch] sees it. *)
Definition get (w : nat) (ev : Evaluation) (st : State)
  : outcome jsval * State :=
  match watchers st !! w with
  | None => (Thrown, st)
  | Some W =>
    let st1 := pushTarget (Some w) st in
    let st2 := foldl (λ s d, depend d s) st1 (ev_reads ev) in
    match ev_value ev with
    | Some v =>
      let st3 := if deep W
                 then foldl (λ s d, depend d s) st2 (ev_traverse ev)
                 else st2 in
      if deep W && ev_traverse_throws ev then (Thrown, st3)
      else (Returned v, cleanupDeps w (popTarget st3))
    | None =>
      if user W then
        (* [traverse(undefined)] returns at once *)
        (Returned VUndef, cleanupDeps w (popTarget (emit (EvHandleError w) st2)))
      else (Thrown, cleanupDeps w (popTarget st2))
    end
  end.

(** [isObject(v)]: [v !== null && typeof v === 'object']; a reference
    to a function is no object in this sense. *)
Definition isObject (v : jsval) (function : bool) : bool :=
  match v with VRef _ => negb function | _ => false end.

Definition run (w : nat) (ev : Evaluation) (st : State)
  : outcome unit * State :=
  match watchers st !! w with
  | None => (Thrown, st)
  | Some W =>
    if active W then
      match get w ev st with
      | (Thrown, st1) => (Thrown, st1)
      | (Returned v, st1) =>
        match watchers st1 !! w with
        | None => (Thrown, st1)
        | Some W1 =>
          if negb (strict_eq v (value W1)) || isObject v (ev_function ev)
             || deep W1 then
            let W2 := mkWatcher (vm W1) (deep W1) (user W1) (lazy W1) (sync W1)
                        (dirty W1) (active W1) (deps W1) (newDeps W1)
                        (depIds W1) (newDepIds W1) v in
            (Returned (), emit (EvCallback w v (value W1)) (set_watcher w W2 st1))
          else (Returned (), st1)
        end
      end
    else (Returned (), st)
  end.

Definition evaluate (w : nat) (ev : Evaluation) (st : State)
  : outcome unit * State :=
  match get w ev st with
  | (Thrown, st1) => (Thrown, st1)
  | (Returned v, st1) =>
    match watchers st1 !! w with
    | None => (Thrown, st1)
    | Some W1 =>
      let W2 := mkWatcher (vm W1) (deep W1) (user W1) (lazy W1) (sync W1)
                  false (active W1) (deps W1) (newDeps W1)
                  (depIds W1) (newDepIds W1) v in
      (Returned (), set_watcher w W2 st1)
    end
  end.

(** [Watcher.update]; the scheduler is on the other side of
    [queueWatcher], whose call is recorded. *)
Definition update (w : nat) (ev : Evaluation) (st : State)
  : outcome unit * State :=
  let st := emit (EvUpdate w) st in
  match watchers st !! w with
  | None => (Thrown, st)
  | Some W =>
    if lazy W then
      let W' := mkWatcher (vm W) (deep W) (user W) (lazy W) (sync W)
                  true (active W) (deps W) (newDeps W)
                  (depIds W) (newDepIds W) (value W) in
      (Returned (), set_watcher w W' st)
    else if sync W then run w ev st
    else (Returned (), emit (EvQueue w) st)
  end.

Fixpoint notify_loop (l : list nat) (evs : nat → Evaluation) (st : State)
  : outcome unit * State :=
  match l with
  | [] => (Returned (), st)
  | w :: rest =>
    match update w (evs w) st with
    | (Thrown, st1) => (Thrown, st1)
    | (Returned _, st1) => notify_loop rest evs st1
    end
  end.

(** [Dep.notify]: the subscriber list is copied first; without
    [config.async] a development build sorts the copy by watcher id. *)
Definition notify (cfg : Config) (d : nat) (evs : nat → Evaluation)
  (st : State) : outcome unit * State :=
  let snapshot := subs_of st d in
  let snapshot := if dev cfg && negb (async cfg)
                  then merge_sort (≤) snapshot else snapshot in
  notify_loop snapshot evs st.

Definition teardown (w : nat) (st : State) : State :=
  match watchers st !! w with
  | None => st
  | Some W =>
    if active W then
      let st1 :=
        match vms st !! vm W with
        | Some V =>
          if _isBeingDestroyed V then st
          else set_vm (vm W) (mkVm (remove (_watchers V) w) (_isBeingDestroyed V)) st
        | None => st
        end in
      let st2 := foldr (λ d s, removeSub d w s) st1 (deps W) in
      let W' := mkWatcher (vm W) (deep W) (user W) (lazy W) (sync W)
                  (dirty W) false (deps W) (newDeps W)
                  (depIds W) (newDepIds W) (value W) in
      set_watcher w W' st2
    else st
  end.

(** The options object of the constructor. *)
Record Options := mkOptions {
  o_deep : bool; o_user : bool; o_lazy : bool; o_sync : bool;
}.

(** [new Watcher(vm, expOrFn, cb, options)]: registered with its
    component, given the next id, and evaluated once unless lazy. *)
Definition newWatcher (v : nat) (o : Options) (ev : Evaluation) (st : State)
  : outcome nat * State :=
  let st1 :=
    match vms st !! v with
    | Some V => set_vm v (mkVm (_watchers V ++ [S (uid st)]) (_isBeingDestroyed V)) st
    | None => set_vm v (mkVm [S (uid st)] false) st
    end in
  let w := S (uid st) in
  let W := mkWatcher v (o_deep o) (o_user o) (o_lazy o) (o_sync o)
             (o_lazy o) true [] [] ∅ ∅ VUndef in
  let st2 := mkState (subs st1) (<[w := W]> (watchers st1)) (vms st1) w
               (target st1) (targetStack st1) (log st1) in
  if o_lazy o then (Returned w, st2)
  else
    match get w ev st2 with
    | (Thrown, st3) => (Thrown, st3)
    | (Returned val, st3) =>
      match watchers st3 !! w with
      | None => (Thrown, st3)
      | Some W1 =>
        (Returned w,
         set_watcher w (mkWatcher (vm W1) (deep W1) (user W1) (lazy W1) (sync W1)
                          (dirty W1) (active W1) (deps W1) (newDeps W1)
                          (depIds W1) (newDepIds W1) val) st3)
      end
    end.

(** The loop of [teardown]: [while (i--) this.deps[i].removeSub(this)]. *)
Definition removeSubs (w : nat) (ds : list nat) (st : State) : State :=
  foldr (λ d s, removeSub d w s) st ds.

(** *** Invariants of the subscription graph *)

(** The relation as the specification words it: a watcher is among a
    dep's subscribers exactly when the dep is among the watcher's
    [deps]. *)
Definition mutual (st : State) : Prop :=
  ∀ d w W, watchers st !! w = Some W → (w ∈ subs_of st d ↔ d ∈ deps W).

(** No evaluation in progress: nothing is being collected. *)
Definition quiescent (st : State) : Prop :=
  ∀ w W, watchers st !! w = Some W → newDeps W = [] ∧ newDepIds W = ∅.

(** What the code keeps true at every step, evaluation in progress or
    not: every subscriber knows the dep (in [deps] or [newDeps]); an
    active watcher is subscribed to all it knows; a subscriber list
    holds a watcher once; the id sets mirror the lists. *)
Record Inv (st : State) : Prop := mkInv {
  inv_subscribed : ∀ d w, w ∈ subs_of st d →
    ∃ W, watchers st !! w = Some W ∧ (d ∈ deps W ∨ d ∈ newDeps W);
  inv_active : ∀ w W d, watchers st !! w = Some W → active W = true →
    d ∈ deps W ∨ d ∈ newDeps W → w ∈ subs_of st d;
  inv_nodup : ∀ d, NoDup (subs_of st d);
  inv_ids : ∀ w W, watchers st !! w = Some W →
    (∀ d, d ∈ depIds W ↔ d ∈ deps W) ∧ (∀ d, d ∈ newDepIds W ↔ d ∈ newDeps W);
  inv_uid : ∀ w, is_Some (watchers st !! w) → w ≤ uid st;
}.

(** The state before anything was created. *)
Definition init : State := mkState ∅ ∅ ∅ 0 None [] [].

(** The calls made on the module from outside, one at a time: each is
    complete before the next begins. *)
Inductive Op :=
| OpNew (v : nat) (o : Options) (ev : Evaluation)
| OpNotify (d : nat) (evs : nat → Evaluation)
| OpRun (w : nat) (ev : Evaluation)
| OpEvaluate (w : nat) (ev : Evaluation)
| OpTeardown (w : nat).

Definition step (cfg : Config) (op : Op) (st : State) : State :=
  match op with
  | OpNew v o ev => (newWatcher v o ev st).2
  | OpNotify d evs => (notify cfg d evs st).2
  | OpRun w ev => (run w ev st).2
  | OpEvaluate w ev => (evaluate w ev st).2
  | OpTeardown w => teardown w st
  end.

Definition steps (cfg : Config) (ops : list Op) (st : State) : State :=
  foldl (λ s op, step cfg op s) st ops.


Definition reads (ds : list nat) (v : jsval) : Evaluation :=
  mkEvaluation ds (Some v) false [] false.

(** The deps whose [depend()] one evaluation of watcher [W] reaches:
    those of the getter, then those of [traverse] when the watcher is
    deep and the getter returned. *)
Definition touched (W : Watcher) (ev : Evaluation) : list nat :=
  ev_reads ev ++
  (if deep W then match ev_value ev with Some _ => ev_traverse ev | None => [] end
   else []).

(** Two watcher records that agree on everything but the collection in
    progress. *)
Definition same_but_new (W W' : Watcher) : Prop :=
  vm W' = vm W ∧ deep W' = deep W ∧ user W' = user W ∧ lazy W' = lazy W ∧
  sync W' = sync W ∧ dirty W' = dirty W ∧ active W' = active W ∧
  deps W' = deps W ∧ depIds W' = depIds W ∧ value W' = value W.

(** Neither [update] nor [queueWatcher] was called on [w] in [l]. *)
Definition quiet (w : nat) (l : list Event) : Prop :=
  (EvUpdate w ∉ l) ∧ (EvQueue w ∉ l).

(** The watchers on which [update()] was called, in order. *)
Definition updates (l : list Event) : list nat :=
  omap (λ e, match e with EvUpdate w => Some w | _ => None end) l.


(** From [st] to [st'] watcher [w] was left alone: its record is the
    same, it was added to no subscriber list, and neither [update] nor
    [queueWatcher] was called on it. *)
Definition keeps (w : nat) (st st' : State) : Prop :=
  watchers st' !! w = watchers st !! w ∧
  (∀ d, w ∈ subs_of st' d → w ∈ subs_of st d) ∧
  (∃ ext, log st' = log st ++ ext ∧ quiet w ext).


(** Sample states: an eager watcher (id 1, of component 0) whose getter
    read dep 0; and a lazy one, evaluated once on dep 0 and then marked
    dirty by a notification. *)
Definition plain : Options := mkOptions false false false false.
Definition lazily : Options := mkOptions false false true false.
Definition quiet_evs : nat → Evaluation := λ _, reads [] VUndef.

Definition demo : State :=
  (newWatcher 0 plain (reads [0] (VNum (Fin 1))) init).2.

Definition demo_watcher : Watcher :=
  mkWatcher 0 false false false false false true [0] [] {[0]} ∅ (VNum (Fin 1)).





(** *** Watcher.depend and the users of watchers in [instance/state.js] *)

(** [Watcher.depend]: [while (i--) this.deps[i].depend()], from the
    last dep to the first. *)
Definition watcher_depend (w : nat) (st : State) : State :=
  match watchers st !! w with
  | None => st
  | Some W => foldr depend st (deps W)
  end.

(** The getter [createComputedGetter(key)] puts on a component, for
    the watcher of the computed property ([None] in the store: there
    is no such watcher, and the getter returns [undefined]). *)
Definition computedGetter (w : nat) (ev : Evaluation) (st : State)
  : outcome jsval * State :=
  match watchers st !! w with
  | None => (Returned VUndef, st)
  | Some W =>
    match (if dirty W then evaluate w ev st else (Returned (), st)) with
    | (Thrown, st1) => (Thrown, st1)
    | (Returned _, st1) =>
      let st2 := match target st1 with
                 | Some _ => watcher_depend w st1
                 | None => st1
                 end in
      (Returned (match watchers st2 !! w with
                 | Some W2 => value W2
                 | None => VUndef
                 end), st2)
    end
  end.

(** [vm.$watch(expOrFn, cb, options)] with a function for [cb]: the
    result names the watcher whose [teardown] the returned [unwatchFn]
    calls.  The callback of [immediate] is called with the value only,
    inside a [try]. *)
Definition watch (v : nat) (o : Options) (immediate : bool) (ev : Evaluation)
  (st : State) : outcome nat * State :=
  let o := mkOptions (o_deep o) true (o_lazy o) (o_sync o) in
  match newWatcher v o ev st with
  | (Thrown, st1) => (Thrown, st1)
  | (Returned w, st1) =>
    (Returned w,
     if immediate
     then emit (EvCallback w (match watchers st1 !! w with
                              | Some W => value W
                              | None => VUndef
                              end) VUndef) st1
     else st1)
  end.


(** The call [get] of watcher [w] is not left by an exception of
    [traverse]. *)
Definition traversal_ends (w : nat) (ev : Evaluation) (st : State) : Prop :=
  ∀ W v, watchers st !! w = Some W → ev_value ev = Some v →
         deep W && ev_traverse_throws ev = false.

(** No evaluation the operation is given has a traversal that
    throws. *)
Definition traversals_end (op : Op) : Prop :=
  match op with
  | OpNew _ _ ev | OpRun _ ev | OpEvaluate _ ev => ev_traverse_throws ev = false
  | OpNotify _ evs => ∀ w, ev_traverse_throws (evs w) = false
  | OpTeardown _ => True
  end.

(** [Dep.target] is the top of the target stack, as [pushTarget] and
    [popTarget] leave it. *)
Definition target_ok (st : State) : Prop :=
  target st = mjoin (last (targetStack st)).

(** The event is one of watcher [w]. *)
Definition about (w : nat) (e : Event) : Prop :=
  match e with
  | EvUpdate x | EvQueue x | EvCallback x _ _ | EvHandleError x => x = w
  end.

(** The callbacks called, in order. *)
Definition callbacks (l : list Event) : list (nat * jsval * jsval) :=
  omap (λ e, match e with EvCallback w v old => Some (w, v, old) | _ => None end) l.

(** [W] with its [dirty] flag set. *)
Definition marked_dirty (W : Watcher) : Watcher :=
  mkWatcher (vm W) (deep W) (user W) (lazy W) (sync W) true (active W)
            (deps W) (newDeps W) (depIds W) (newDepIds W) (value W).

End Reactive.

(** * The scheduler *)

Module Scheduler.

Definition MAX_UPDATE_COUNT : nat := 100.

(** The fields of a watcher the scheduler reads. *)
Record WatcherInfo := mkInfo {
  w_user : bool;
  w_expression : string;
  w_vm : nat;
  w_before : bool;               (* does the watcher have a [before] hook *)
}.

Inductive Event :=
| EvBefore (id : nat)                            (* [watcher.before()] *)
| EvRun (id : nat)                               (* [watcher.run()] *)
| EvWarn (id : nat) (expression : option string) (vm : nat)
    (* 'You may have an infinite update loop ...': with the expression
       of a user watcher, 'in a component render function.' otherwise *)
| EvNextTick                                     (* [nextTick(flushSchedulerQueue)] *)
| EvActivatedHooks (vms : list nat)              (* [callActivatedHooks(activatedQueue)] *)
| EvUpdatedHooks (ids : list nat)                (* [callUpdatedHooks(updatedQueue)] *)
| EvDevtoolsFlush.                               (* [devtools.emit('flush')] *)

#[global] Instance Event_eq_dec : EqDecision Event.
Proof. solve_decision. Defined.

(** [has] holds the ids whose entry is [true]; [null] and a missing
    entry both read as [== null]. *)
Record State := mkState {
  queue : list nat;
  activatedChildren : list nat;
  has : gset nat;
  circular : gmap nat nat;
  waiting : bool;
  flushing : bool;
  index : nat;
  log : list Event;
}.

Definition init : State := mkState [] [] ∅ ∅ false false 0 [].

(** A call that finished, the state reached when the step budget of
    the model ran out, or the state in which an exception left the
    call. *)
Inductive Res :=
| Done (st : State)
| Out (st : State)
| Threw (st : State).

Definition state_of (r : Res) : State :=
  match r with Done st | Out st | Threw st => st end.

Definition bind (r : Res) (k : State → Res) : Res :=
  match r with
  | Done st => k st
  | Out st => Out st
  | Threw st => Threw st
  end.

Definition emit (e : Event) (st : State) : State :=
  mkState (queue st) (activatedChildren st) (has st) (circular st)
          (waiting st) (flushing st) (index st) (log st ++ [e]).

Definition resetSchedulerState (cfg : Config) (st : State) : State :=
  mkState [] [] ∅ (if dev cfg then ∅ else circular st) false false 0 (log st).

(** The [while] loop of [queueWatcher], counted by [j = i + 1]: from
    [j] down, as long as [i > index && queue[i].id > watcher.id]. *)
Fixpoint scan (q : list nat) (idx id : nat) (j : nat) : nat :=
  match j with
  | 0 => 0
  | S i =>
    match q !! i with
    | Some x => if decide (idx < i ∧ id < x) then scan q idx id i else S i
    | None => S i
    end
  end.

(** [queue.splice(j, 0, id)] *)
Definition splice_in (q : list nat) (j id : nat) : list nat :=
  take j q ++ id :: drop j q.

(** The first half of [queueWatcher], entered when [has[id] == null]:
    mark the id and put the watcher in the queue. *)
Definition enqueue (id : nat) (st : State) : State :=
  let q := if flushing st
           then splice_in (queue st) (scan (queue st) (index st) id (length (queue st))) id
           else queue st ++ [id] in
  mkState q (activatedChildren st) ({[id]} ∪ has st) (circular st)
          (waiting st) (flushing st) (index st) (log st).

Section Flush.
Variable cfg : Config.
Variable info : nat → WatcherInfo.
(** What user code does to the scheduler while a hook or a run is
    executing: the watchers it passes to [queueWatcher], in order,
    as a function of everything that happened so far. *)
Variable fx : list Event → list nat.
Variable devtools : bool.       (* [devtools && config.devtools] *)

Definition queueWatcher_with (flush : State → Res) (id : nat) (st : State)
  : Res :=
  if decide (id ∈ has st) then Done st
  else
    let st := enqueue id st in
    if waiting st then Done st
    else
      let st := mkState (queue st) (activatedChildren st) (has st)
                  (circular st) true (flushing st) (index st) (log st) in
      if dev cfg && negb (async cfg) then flush st
      else Done (emit EvNextTick st).

Fixpoint queue_all (qw : nat → State → Res) (ids : list nat) (st : State)
  : Res :=
  match ids with
  | [] => Done st
  | id :: rest => bind (qw id st) (queue_all qw rest)
  end.

Definition before_flush (st : State) : State :=
  mkState (merge_sort (≤) (queue st)) (activatedChildren st) (has st)
          (circular st) (waiting st) true 0 (log st).

Definition after_flush (st : State) : State :=
  let activatedQueue := activatedChildren st in
  let updatedQueue := queue st in
  let st := resetSchedulerState cfg st in
  let st := emit (EvActivatedHooks activatedQueue) st in
  let st := emit (EvUpdatedHooks updatedQueue) st in
  if devtools then emit EvDevtoolsFlush st else st.

(** The body of [flushSchedulerQueue] around its loop.  Nothing
    catches an exception of the loop: [resetSchedulerState] and the
    hooks behind it are then not reached. *)
Definition flush_with (drain : State → Res) (st : State) : Res :=
  match drain (before_flush st) with
  | Done st' => Done (after_flush st')
  | Out st' => Out st'
  | Threw st' => Threw st'
  end.

Definition clear_has (id : nat) (st : State) : State :=
  mkState (queue st) (activatedChildren st) (has st ∖ {[id]}) (circular st)
          (waiting st) (flushing st) (index st) (log st).

Definition bump_circular (id : nat) (st : State) : State :=
  mkState (queue st) (activatedChildren st) (has st)
          (<[id := default 0 (circular st !! id) + 1]> (circular st))
          (waiting st) (flushing st) (index st) (log st).

Definition next_index (st : State) : State :=
  mkState (queue st) (activatedChildren st) (has st) (circular st)
          (waiting st) (flushing st) (S (index st)) (log st).

Definition warning (id : nat) : Event :=
  EvWarn id
    (if w_user (info id) then Some (w_expression (info id)) else None)
    (w_vm (info id)).

(** The [for] loop of [flushSchedulerQueue] when no [before] hook and
    no [run()] throws; one unit of [fuel] per iteration and per nested
    flush.  [drain_throwing] below is the loop for user code that can
    throw; the two agree as long as nothing throws. *)
Fixpoint drain (fuel : nat) (st : State) : Res :=
  match fuel with
  | 0 => Out st
  | S fuel' =>
    let qw := queueWatcher_with (flush_with (drain fuel')) in
    match queue st !! index st with
    | None => Done st
    | Some id =>
      let r :=
        if w_before (info id)
        then let st := emit (EvBefore id) st in queue_all qw (fx (log st)) st
        else Done st in
      bind r (λ st,
      let st := clear_has id st in
      let st := emit (EvRun id) st in
      bind (queue_all qw (fx (log st)) st) (λ st,
      if dev cfg && bool_decide (id ∈ has st) then
        let st := bump_circular id st in
        if decide (MAX_UPDATE_COUNT < default 0 (circular st !! id))
        then Done (emit (warning id) st)
        else drain fuel' (next_index st)
      else drain fuel' (next_index st)))
    end
  end.

Definition flushSchedulerQueue (fuel : nat) (st : State) : Res :=
  flush_with (drain fuel) st.

Definition queueWatcher (fuel : nat) (id : nat) (st : State) : Res :=
  queueWatcher_with (flushSchedulerQueue fuel) id st.

(** User code that can throw: [throws l] tells whether the hook or
    the run entered last in [l] ends with an exception, after the
    [queueWatcher] calls [fx l] it makes.  [watcher.run()] rethrows
    what the getter or the callback of a watcher that is no user
    watcher throws, and the loop has no [try]. *)
Variable throws : list Event → bool.

Definition user_code (qw : nat → State → Res) (st : State) : Res :=
  bind (queue_all qw (fx (log st)) st)
       (λ st', if throws (log st) then Threw st' else Done st').

Fixpoint drain_throwing (fuel : nat) (st : State) : Res :=
  match fuel with
  | 0 => Out st
  | S fuel' =>
    let qw := queueWatcher_with (flush_with (drain_throwing fuel')) in
    match queue st !! index st with
    | None => Done st
    | Some id =>
      let r :=
        if w_before (info id) then user_code qw (emit (EvBefore id) st)
        else Done st in
      bind r (λ st,
      let st := clear_has id st in
      let st := emit (EvRun id) st in
      bind (user_code qw st) (λ st,
      if dev cfg && bool_decide (id ∈ has st) then
        let st := bump_circular id st in
        if decide (MAX_UPDATE_COUNT < default 0 (circular st !! id))
        then Done (emit (warning id) st)
        else drain_throwing fuel' (next_index st)
      else drain_throwing fuel' (next_index st)))
    end
  end.

Definition flushSchedulerQueue_throwing (fuel : nat) (st : State) : Res :=
  flush_with (drain_throwing fuel) st.


Definition queueActivatedComponent (v : nat) (st : State) : State :=
  mkState (queue st) (activatedChildren st ++ [v]) (has st) (circular st)
          (waiting st) (flushing st) (index st) (log st).

(** While [waiting] is set, [queueWatcher] starts no flush and is
    one of these steps; the loop body is then a plain function. *)
Definition qw_step (st : State) (id : nat) : State :=
  if decide (id ∈ has st) then st else enqueue id st.

Definition body (id : nat) (st : State) : State :=
  let st1 := if w_before (info id)
             then let st := emit (EvBefore id) st in
                  foldl qw_step st (fx (log st))
             else st in
  let st2 := emit (EvRun id) (clear_has id st1) in
  foldl qw_step st2 (fx (log st2)).

(** The circular-update check after [run()]: [inl] leaves the loop
    ([break]), [inr] goes on to the next index. *)
Definition check (id : nat) (st : State) : State + State :=
  if dev cfg && bool_decide (id ∈ has st) then
    let st := bump_circular id st in
    if decide (MAX_UPDATE_COUNT < default 0 (circular st !! id))
    then inl (emit (warning id) st)
    else inr (next_index st)
  else inr (next_index st).
End Flush.

(** The ids of the watchers run, in order. *)
Definition runs (l : list Event) : list nat :=
  omap (λ e, match e with EvRun id => Some id | _ => None end) l.


(** The watchers not yet reached by the drain loop. *)
Definition pending (st : State) : list nat := drop (S (index st)) (queue st).

(** The not-yet-run part of the queue is in strictly ascending id
    order and all of it is marked in [has]. *)
Definition pending_ok (st : State) : Prop :=
  StronglySorted lt (pending st) ∧ Forall (λ x, x ∈ has st) (pending st).

(** While watcher [cur] is being processed, after the runs [R]. *)
Definition in_turn (R : list nat) (cur : nat) (st : State) : Prop :=
  waiting st = true ∧ flushing st = true ∧ queue st !! index st = Some cur ∧
  StronglySorted lt (R ++ cur :: pending st) ∧
  Forall (λ x, x ∈ has st) (pending st).

(** At the head of a turn of the drain loop. *)
Definition at_head (st : State) : Prop :=
  waiting st = true ∧ flushing st = true ∧
  StronglySorted lt (runs (log st) ++ drop (index st) (queue st)) ∧
  Forall (λ x, x ∈ has st) (drop (index st) (queue st)).

(** The id of the watcher whose hook or run was entered last. *)
Definition current (l : list Event) : option nat :=
  match last l with
  | Some (EvRun id) | Some (EvBefore id) => Some id
  | _ => None
  end.

(** User code only ever enqueues watchers created after the one that
    is running. *)
Definition enqueues_later (fx : list Event → list nat) : Prop :=
  ∀ l id x, current l = Some id → x ∈ fx l → id < x.


(** A state as [queueWatcher] leaves it for a deferred flush. *)
Definition ready (st : State) : Prop :=
  NoDup (queue st) ∧ Forall (λ x, x ∈ has st) (queue st) ∧
  waiting st = true ∧ flushing st = false ∧ circular st = ∅ ∧
  runs (log st) = [].

Definition devcfg : Config := mkConfig true true.
Definition no_info : nat → WatcherInfo := λ _, mkInfo true "w" 0 false.

Definition fx_back : list Event → list nat :=
  λ l, match last l with Some (EvRun 5) => [4] | _ => [] end.

Definition queued (ids : list nat) : State :=
  state_of (queue_all (queueWatcher devcfg no_info (λ _, []) false 0) ids init).

(** The scheduler between two flushes with nothing requested, as
    [resetSchedulerState] leaves it. *)
Definition idle (st : State) : Prop :=
  queue st = [] ∧ activatedChildren st = [] ∧ has st = ∅ ∧
  waiting st = false ∧ flushing st = false ∧ index st = 0.

(** What one turn of the drain loop does with watcher [id] when
    nothing is queued meanwhile: the [before] hook if there is one,
    then [run()]. *)
Definition turn (info : nat → WatcherInfo) (id : nat) : list Event :=
  (if w_before (info id) then [EvBefore id] else []) ++ [EvRun id].

(** User code that never calls [queueWatcher]. *)
Definition enqueues_nothing (fx : list Event → list nat) : Prop :=
  ∀ l, fx l = [].

(** User code that queues no watcher but the one whose hook or run is
    executing. *)
Definition requeues_only_itself (fx : list Event → list nat) : Prop :=
  ∀ l x, x ∈ fx l → current l = Some x.

(** Two watchers each of which, when run, queues the other. *)
Definition fx_ping_pong (a b : nat) : list Event → list nat :=
  λ l, match last l with
       | Some (EvRun x) =>
         if decide (x = a) then [b] else if decide (x = b) then [a] else []
       | _ => []
       end.

(** The drain loop at the head of a turn, with no count above the
    limit. *)
Definition within_budget (st : State) : Prop :=
  waiting st = true ∧ flushing st = true ∧
  StronglySorted lt (drop (index st) (queue st)) ∧
  Forall (λ x, x ∈ has st) (drop (index st) (queue st)) ∧
  ∀ w, default 0 (circular st !! w) ≤ MAX_UPDATE_COUNT.

(** A bound on the turns the drain loop still takes. *)
Definition turns_left (st : State) : nat :=
  match queue st !! index st with
  | Some cur =>
    (MAX_UPDATE_COUNT + 2) * (length (queue st) - index st)
    - default 0 (circular st !! cur)
  | None => 0
  end.

End Scheduler.

(** * Observer: reactive records and arrays *)

Module Observer.

(** A value is a primitive or a reference into the heap.  What the
    guards of [observe] look at is kept with each object:
    [Array.isArray], [instanceof VNode], whether [typeof] is
    ['function'], and whether [Object.prototype.toString] answers
    ['[object Object]'] ([KObject]: plain records and class
    instances). *)
Inductive Kind := KArray | KObject | KVNode | KFunction | KOther.

#[global] Instance Kind_eq_dec : EqDecision Kind.
Proof. solve_decision. Defined.

(** An accessor pair.  [User]: functions of the program using the
    framework, seen as reading and writing a private cell.
    [Reactive]: the pair installed by [defineReactive], with the
    variables its two closures share ([dep], [val], [shallow],
    [customSetter]) and the accessor it replaced, from which [getter]
    and [setter] were taken.  ([childOb] only feeds the [depend()]
    calls of the getter, which this module does not trace.) *)
Inductive Accessor :=
| User (get : option (jsval → jsval)) (set : option (jsval → jsval → jsval))
       (cell : jsval)
| Reactive (dep : nat) (val : jsval) (shallow customSetter : bool)
           (orig : Accessor).

(** The property was a data property, or absent: [getter] and [setter]
    are both [undefined]. *)
Definition no_accessor : Accessor := User None None VUndef.

Inductive Property :=
| PData (v : jsval) (enumerable configurable writable : bool)
| PAccessor (a : Accessor) (enumerable configurable : bool).

(** The [Observer] of a value; its [value] field is the object that
    carries it (the constructor sets both links and nothing changes
    them), and its [dep] is named by the Dep's id. *)
Record ObserverT := mkObserver {
  ob_dep : nat;
  vmCount : nat;
}.

Record Obj := mkObj {
  kind : Kind;
  extensible : bool;              (* [Object.isExtensible] *)
  isVue : bool;                   (* [_isVue] *)
  augmented : bool;               (* array whose mutating methods are patched *)
  ob : option ObserverT;          (* own [__ob__] that is an [Observer] *)
  props : list (string * Property);  (* other own properties, in order of creation *)
  proto_keys : list string;       (* names found along the prototype chain *)
  elems : list jsval;             (* elements of an array; a hole reads [undefined] *)
}.

Inductive Method := push | pop | shift | unshift | splice | sort | reverse.

Inductive Warning :=
| WSetPrimitive     (* 'Cannot set reactive property on undefined, null, or primitive value' *)
| WSetRoot          (* 'Avoid adding reactive properties to a Vue instance or its root $data ...' *)
| WDelPrimitive     (* 'Cannot delete reactive property on undefined, null, or primitive value' *)
| WDelRoot.         (* 'Avoid deleting properties on a Vue instance or its root $data ...' *)

Inductive Event :=
| EvNotify (dep : nat)            (* [dep.notify()] *)
| EvCustomSetter (dep : nat)      (* [customSetter()] *)
| EvWarn (w : Warning).

#[global] Instance Warning_eq_dec : EqDecision Warning.
Proof. solve_decision. Defined.
#[global] Instance Event_eq_dec : EqDecision Event.
Proof. solve_decision. Defined.

Record Heap := mkHeap {
  objs : gmap nat Obj;
  dep_uid : nat;                  (* [uid] of dep.js: the id of the next Dep *)
  shouldObserve : bool;
  events : list Event;
}.

Inductive result (A : Type) :=
| Ok (a : A)
| Throw
| OutOfFuel.
Arguments Ok {A} a.
Arguments Throw {A}.
Arguments OutOfFuel {A}.

#[global] Instance result_bind : MBind result := λ A B f m,
  match m with
  | Ok a => f a
  | Throw => Throw
  | OutOfFuel => OutOfFuel
  end.

(** What the module takes from its surroundings.  The helpers of
    [shared/util] and the built-in array methods are not among the
    sources: [isValidArrayIndex] gives the index a key stands for;
    [inObjectPrototype] is [key in Object.prototype]; [original m this
    args elems] is the result of [Array.prototype[m].apply(this, args)]
    and the elements it leaves.  [notified d h] is what [dep.notify()]
    on the Dep [d] makes of the heap [h] before it returns: the
    watchers it runs on the spot (those with [sync], and every
    subscriber in a development build with [config.async] off) are
    code of the program, which can write to any object and can throw.
    When every subscriber is queued for the next tick it is
    [Ok h].  [inherited l key v h] is what the assignment
    [target[key] = v] makes of the heap when [key] is no own property
    of the object at [l] and is found on its prototype chain: the
    heap does not keep inherited properties, and the assignment runs
    the setter of an inherited accessor (for [__proto__] it replaces
    the prototype and adds no own property), throws when the inherited
    property is read-only, and adds an own property over an inherited
    data property that is writable. *)
Record Env := mkEnv {
  isValidArrayIndex : string → option nat;
  inObjectPrototype : string → bool;
  original : Method → nat → list jsval → list jsval → jsval * list jsval;
  isServerRendering : bool;
  notified : nat → Heap → result Heap;
  inherited : nat → string → jsval → Heap → result Heap;
}.

(** ** Properties of an object *)

Fixpoint lookup_prop (k : string) (ps : list (string * Property))
  : option Property :=
  match ps with
  | [] => None
  | (k', p) :: rest => if decide (k' = k) then Some p else lookup_prop k rest
  end.

(** Redefine in place, or add at the end. *)
Fixpoint store_prop (k : string) (p : Property) (ps : list (string * Property))
  : list (string * Property) :=
  match ps with
  | [] => [(k, p)]
  | (k', p') :: rest =>
    if decide (k' = k) then (k, p) :: rest else (k', p') :: store_prop k p rest
  end.

Fixpoint delete_prop (k : string) (ps : list (string * Property))
  : list (string * Property) :=
  match ps with
  | [] => []
  | (k', p') :: rest =>
    if decide (k' = k) then rest else (k', p') :: delete_prop k rest
  end.

Definition is_enumerable (p : Property) : bool :=
  match p with PData _ e _ _ | PAccessor _ e _ => e end.

Definition is_configurable (p : Property) : bool :=
  match p with PData _ _ c _ | PAccessor _ _ c => c end.

(** [Object.keys(obj)] *)
Definition keys (o : Obj) : list string :=
  (filter (λ kp, is_enumerable kp.2 = true) (props o)).*1.

Definition has_get (a : Accessor) : bool :=
  match a with User g _ _ => bool_decide (is_Some g) | Reactive _ _ _ _ _ => true end.

Definition has_set (a : Accessor) : bool :=
  match a with User _ s _ => bool_decide (is_Some s) | Reactive _ _ _ _ _ => true end.

(** What calling the getter of an accessor returns; for [Reactive]
    this is [getter ? getter.call(obj) : val]. *)
Fixpoint acc_value (a : Accessor) : jsval :=
  match a with
  | User (Some g) _ cell => g cell
  | User None _ _ => VUndef
  | Reactive _ val _ _ o => if has_get o then acc_value o else val
  end.

(** [obj[key]] on an own property. *)
Definition prop_value (p : Property) : jsval :=
  match p with
  | PData v _ _ _ => v
  | PAccessor a _ _ => acc_value a
  end.

Definition ob_key : string := "__ob__".

(** [hasOwn(obj, key)]: [__ob__] is an own property too. *)
Definition hasOwn (o : Obj) (k : string) : bool :=
  bool_decide (is_Some (lookup_prop k (props o))) ||
  (bool_decide (k = ob_key) && bool_decide (is_Some (ob o))).

(** [key in obj] *)
Definition has_key (o : Obj) (k : string) : bool :=
  hasOwn o k || bool_decide (k ∈ proto_keys o).

(** Reading [obj[key]]; inherited values are not kept and read
    [undefined]. *)
Definition read (h : Heap) (l : nat) (k : string) : option jsval :=
  o ← objs h !! l;
  Some (match lookup_prop k (props o) with
        | Some p => prop_value p
        | None => VUndef
        end).

Definition upd_obj (l : nat) (f : Obj → Obj) (h : Heap) : Heap :=
  mkHeap (alter f l (objs h)) (dep_uid h) (shouldObserve h) (events h).

Definition emit (e : Event) (h : Heap) : Heap :=
  mkHeap (objs h) (dep_uid h) (shouldObserve h) (events h ++ [e]).

(** [new Dep()]: the id, and the counter moved on. *)
Definition newDep (h : Heap) : nat * Heap :=
  (dep_uid h, mkHeap (objs h) (S (dep_uid h)) (shouldObserve h) (events h)).

Definition toggleObserving (value : bool) (h : Heap) : Heap :=
  mkHeap (objs h) (dep_uid h) value (events h).

Definition set_props (ps : list (string * Property)) (o : Obj) : Obj :=
  mkObj (kind o) (extensible o) (isVue o) (augmented o) (ob o) ps
        (proto_keys o) (elems o).

Definition set_elems (es : list jsval) (o : Obj) : Obj :=
  mkObj (kind o) (extensible o) (isVue o) (augmented o) (ob o) (props o)
        (proto_keys o) es.

Definition set_ob (b : option ObserverT) (o : Obj) : Obj :=
  mkObj (kind o) (extensible o) (isVue o) (augmented o) b (props o)
        (proto_keys o) (elems o).

Definition set_augmented (o : Obj) : Obj :=
  mkObj (kind o) (extensible o) (isVue o) true (ob o) (props o)
        (proto_keys o) (elems o).

(** ** The setter installed by [defineReactive] *)

(** What a setter does besides changing closure variables, in order. *)
Inductive Effect :=
| FxCustomSetter (dep : nat)      (* [customSetter()] *)
| FxObserve (v : jsval)           (* [childOb = !shallow && observe(newVal)] *)
| FxNotify (dep : nat).           (* [dep.notify()] *)

#[global] Instance Effect_eq_dec : EqDecision Effect.
Proof. solve_decision. Defined.

(** Calling the setter of an accessor with [newVal]: the accessor with
    its variables updated and the effects that follow; [None] when
    there is no setter to call.  The [Reactive] case is
    [reactiveSetter]. *)
Fixpoint acc_write (dev : bool) (a : Accessor) (newVal : jsval)
  : option (Accessor * list Effect) :=
  match a with
  | User g (Some s) cell => Some (User g (Some s) (s newVal cell), [])
  | User _ None _ => None
  | Reactive dep val shallow customSetter orig =>
    let value := acc_value a in
    if strict_eq newVal value ||
       (negb (strict_eq newVal newVal) && negb (strict_eq value value))
    then Some (a, [])
    else
      let fx0 := if dev && customSetter then [FxCustomSetter dep] else [] in
      let fx1 := (if shallow then [] else [FxObserve newVal]) ++ [FxNotify dep] in
      if has_get orig && negb (has_set orig) then Some (a, fx0)
      else if has_set orig then
        match acc_write dev orig newVal with
        | Some (o', fxi) =>
          Some (Reactive dep val shallow customSetter o', fx0 ++ fxi ++ fx1)
        | None => None
        end
      else Some (Reactive dep newVal shallow customSetter orig, fx0 ++ fx1)
  end.

(** ** observe, Observer, defineReactive *)

Definition isObject (h : Heap) (v : jsval) : bool :=
  match v with
  | VRef l => match objs h !! l with
              | Some o => negb (bool_decide (kind o = KFunction))
              | None => false
              end
  | _ => false
  end.

Fixpoint for_each {A : Type} (f : A → Heap → result Heap) (l : list A) (h : Heap)
  : result Heap :=
  match l with
  | [] => Ok h
  | x :: rest => h' ← f x h; for_each f rest h'
  end.

(** [Object.defineProperty(obj, key, {enumerable: true, configurable:
    true, get, set})] *)
Definition defineAccessor (l : nat) (key : string) (a : Accessor) (h : Heap)
  : result Heap :=
  match objs h !! l with
  | None => Throw
  | Some o =>
    if bool_decide (is_Some (lookup_prop key (props o))) || extensible o
    then Ok (upd_obj l (set_props (store_prop key (PAccessor a true true) (props o))) h)
    else Throw
  end.

(** [defineReactive(obj, key, val, customSetter, shallow)], given the
    [observe] to use for the value; [val = None] is the call with two
    arguments. *)
Definition defineReactive_with
  (observe : jsval → Heap → result Heap)
  (l : nat) (key : string) (val : option jsval) (customSetter shallow : bool)
  (h : Heap) : result Heap :=
  let '(dep, h) := newDep h in
  match objs h !! l with
  | None => Throw
  | Some o =>
    let property := lookup_prop key (props o) in
    if bool_decide (is_configurable <$> property = Some false) then Ok h
    else
      let orig := match property with
                  | Some (PAccessor a _ _) => a
                  | _ => no_accessor
                  end in
      let getter := has_get orig in
      let setter := has_set orig in
      let val :=
        match val with
        | Some v => v
        | None => if negb getter || setter
                  then match property with Some p => prop_value p | None => VUndef end
                  else VUndef
        end in
      h ← (if shallow then Ok h else observe val h);
      defineAccessor l key (Reactive dep val shallow customSetter orig) h
  end.

(** [ob.vmCount++] on the Observer of [l]. *)
Definition bump (l : nat) (h : Heap) : Heap :=
  upd_obj l (λ o, set_ob ((λ b, mkObserver (ob_dep b) (S (vmCount b))) <$> ob o) o) h.

Section WithEnv.
Variable env : Env.

(** [observe(value, asRootData)]; the result names the Observer by the
    object that carries it.  One unit of [fuel] per level of nesting.
    For an array the Observer constructor is embedded for an engine
    whose objects have [__proto__] ([hasProto]): [protoAugment] puts
    the patched methods on the prototype chain, which the flag
    [augmented] records.  The other branch, [copyAugment], which
    defines the seven methods as own properties of the array, is not
    embedded. *)
Fixpoint observe (fuel : nat) (value : jsval) (asRootData : bool) (h : Heap)
  : result (option nat * Heap) :=
  match fuel with
  | 0 => OutOfFuel
  | S fuel' =>
    match value with
    | VRef l =>
      match objs h !! l with
      | None => Ok (None, h)
      | Some o =>
        if bool_decide (kind o = KFunction) || bool_decide (kind o = KVNode)
        then Ok (None, h)
        else
          let found : result (bool * Heap) :=
            match ob o with
            | Some _ => Ok (true, h)
            | None =>
              if shouldObserve h && negb (isServerRendering env) &&
                 (bool_decide (kind o = KArray) || bool_decide (kind o = KObject)) &&
                 extensible o && negb (isVue o)
              then
                (* [new Observer(value)] *)
                let '(dep, h) := newDep h in
                let h := upd_obj l (set_ob (Some (mkObserver dep 0))) h in
                let child := λ v h, r ← observe fuel' v false h; Ok r.2 in
                h ← (if bool_decide (kind o = KArray)
                     then for_each child (elems o) (upd_obj l set_augmented h)
                     else for_each
                            (λ key, defineReactive_with child l key None false false)
                            (keys o) h);
                Ok (true, h)
              else Ok (false, h)
            end in
          match found with
          | Ok (true, h) =>
            Ok (Some l, if asRootData then bump l h else h)
          | Ok (false, h) => Ok (None, h)
          | Throw => Throw
          | OutOfFuel => OutOfFuel
          end
      end
    | _ => Ok (None, h)
    end
  end.

Definition observe_value (fuel : nat) (v : jsval) (h : Heap) : result Heap :=
  r ← observe fuel v false h; Ok r.2.

(** [Observer.observeArray(items)] *)
Definition observeArray (fuel : nat) (items : list jsval) (h : Heap) : result Heap :=
  for_each (observe_value fuel) items h.

Definition defineReactive (fuel : nat) :=
  defineReactive_with (observe_value fuel).

(** [dep.notify()] on the Dep [d]: the call is logged, and the
    watchers it runs before it returns do to the heap what [notified]
    says. *)
Definition notify (d : nat) (h : Heap) : result Heap :=
  notified env d (emit (EvNotify d) h).

Definition run_effect (fuel : nat) (e : Effect) (h : Heap) : result Heap :=
  match e with
  | FxCustomSetter d => Ok (emit (EvCustomSetter d) h)
  | FxObserve v => observe_value fuel v h
  | FxNotify d => notify d h
  end.

(** [target[key] = val] in strict mode: an own property is written
    (through its setter when it is an accessor); a key found on the
    prototype chain only is left to [inherited]; any other key becomes
    a new own property if the object is extensible. *)
Definition assign (cfg : Config) (fuel : nat) (l : nat) (key : string)
  (v : jsval) (h : Heap) : result Heap :=
  match objs h !! l with
  | None => Throw
  | Some o =>
    match lookup_prop key (props o) with
    | Some (PData _ e c w) =>
      if w then Ok (upd_obj l (set_props (store_prop key (PData v e c w) (props o))) h)
      else Throw
    | Some (PAccessor a e c) =>
      match acc_write (dev cfg) a v with
      | None => Throw
      | Some (a', fx) =>
        for_each (run_effect fuel) fx
          (upd_obj l (set_props (store_prop key (PAccessor a' e c) (props o))) h)
      end
    | None =>
      if bool_decide (key = ob_key) && bool_decide (is_Some (ob o)) then
        (* the hidden link is an ordinary writable property *)
        Ok (upd_obj l (λ o, set_ob None
              (set_props (store_prop key (PData v false true true) (props o)) o)) h)
      else if bool_decide (key ∈ proto_keys o) then inherited env l key v h
      else if extensible o
      then Ok (upd_obj l (set_props (store_prop key (PData v true true true) (props o))) h)
      else Throw
    end
  end.

Definition inserted_of (m : Method) (args : list jsval) : option (list jsval) :=
  match m with
  | push | unshift => Some args
  | splice => Some (drop 2 args)
  | _ => None
  end.

(** [original.apply(this, args)] on the stored elements. *)
Definition call_original (m : Method) (l : nat) (args : list jsval) (h : Heap)
  : result (jsval * Heap) :=
  match objs h !! l with
  | None => Throw
  | Some o =>
    let '(res, es) := original env m l args (elems o) in
    Ok (res, upd_obj l (set_elems es) h)
  end.

(** The [mutator] that replaces method [m] on an observed array. *)
Definition mutator (fuel : nat) (m : Method) (l : nat) (args : list jsval)
  (h : Heap) : result (jsval * Heap) :=
  '(res, h) ← call_original m l args h;
  match objs h !! l with
  | None => Throw
  | Some o =>
    match ob o with
    | None =>
      (* [ob] is [undefined]: [ob.observeArray] or [ob.dep] throws *)
      Throw
    | Some b =>
      h ← match inserted_of m args with
          | Some items => observeArray fuel items h
          | None => Ok h
          end;
      h ← notify (ob_dep b) h;
      Ok (res, h)
    end
  end.

(** [target[m](...args)]: the patched method when the array was
    augmented. *)
Definition call_method (fuel : nat) (m : Method) (l : nat) (args : list jsval)
  (h : Heap) : result (jsval * Heap) :=
  match objs h !! l with
  | None => Throw
  | Some o => if augmented o then mutator fuel m l args h
              else call_original m l args h
  end.

Definition isUndefOrPrimitive (h : Heap) (v : jsval) : bool :=
  match v with VRef _ => false | _ => true end.

Definition warn_if (c : bool) (w : Warning) (h : Heap) : Heap :=
  if c then emit (EvWarn w) h else h.

(** [target.length = Math.max(target.length, key)] *)
Definition grow (n : nat) (es : list jsval) : list jsval :=
  es ++ replicate (n - length es) VUndef.

Definition is_root (o : Obj) : bool :=
  isVue o || match ob o with Some b => negb (bool_decide (vmCount b = 0)) | None => false end.

Definition set (cfg : Config) (fuel : nat) (target : jsval) (key : string)
  (val : jsval) (h : Heap) : result (jsval * Heap) :=
  let h := warn_if (dev cfg && isUndefOrPrimitive h target) WSetPrimitive h in
  match target with
  | VRef l =>
    match objs h !! l with
    | None => Throw
    | Some o =>
      match (if bool_decide (kind o = KArray) then isValidArrayIndex env key else None) with
      | Some n =>
        let h := upd_obj l (set_elems (grow n (elems o))) h in
        r ← call_method fuel splice l [VStr key; VNum (Fin 1); val] h;
        Ok (val, r.2)
      | None =>
        if has_key o key && negb (inObjectPrototype env key) then
          h ← assign cfg fuel l key val h; Ok (val, h)
        else if is_root o then Ok (val, warn_if (dev cfg) WSetRoot h)
        else
          match ob o with
          | None => h ← assign cfg fuel l key val h; Ok (val, h)
          | Some b =>
            h ← defineReactive fuel l key (Some val) false false h;
            h ← notify (ob_dep b) h;
            Ok (val, h)
          end
      end
    end
  | _ => Throw      (* [key in target] on a primitive *)
  end.

(** [delete target[key]] in strict mode. *)
Definition delete_own (l : nat) (key : string) (h : Heap) : result Heap :=
  match objs h !! l with
  | None => Throw
  | Some o =>
    match lookup_prop key (props o) with
    | Some p =>
      if is_configurable p
      then Ok (upd_obj l (set_props (delete_prop key (props o))) h)
      else Throw
    | None =>
      if bool_decide (key = ob_key) then Ok (upd_obj l (set_ob None) h) else Ok h
    end
  end.

Definition del (cfg : Config) (fuel : nat) (target : jsval) (key : string)
  (h : Heap) : result Heap :=
  let h := warn_if (dev cfg && isUndefOrPrimitive h target) WDelPrimitive h in
  match target with
  | VRef l =>
    match objs h !! l with
    | None => Throw
    | Some o =>
      match (if bool_decide (kind o = KArray) then isValidArrayIndex env key else None) with
      | Some n =>
        r ← call_method fuel splice l [VStr key; VNum (Fin 1)] h; Ok r.2
      | None =>
        if is_root o then Ok (warn_if (dev cfg) WDelRoot h)
        else if negb (hasOwn o key) then Ok h
        else
          h ← delete_own l key h;
          match ob o with
          | None => Ok h
          | Some b => notify (ob_dep b) h
          end
      end
    end
  | VUndef | VNull => Throw     (* [target.__ob__] *)
  | VStr s =>
    (* the own keys of a string cannot be deleted *)
    if bool_decide (key = "length") ||
       match isValidArrayIndex env key with
       | Some n => bool_decide (n < String.length s)
       | None => false
       end
    then Throw else Ok h
  | _ => Ok h                   (* other primitives have no own key *)
  end.

End WithEnv.

(** ** What observing leaves alone *)

#[global] Instance ObserverT_eq_dec : EqDecision ObserverT.
Proof. solve_decision. Defined.

(** From [o] to [o']: the same object with the same own keys, each
    reading the same value, and any Observer it had. *)
Definition obj_extends (o o' : Obj) : Prop :=
  kind o' = kind o ∧ extensible o' = extensible o ∧ isVue o' = isVue o ∧
  proto_keys o' = proto_keys o ∧ elems o' = elems o ∧
  (∀ b, ob o = Some b → ob o' = Some b) ∧
  (props o').*1 = (props o).*1 ∧
  (∀ k, prop_value <$> lookup_prop k (props o') =
        prop_value <$> lookup_prop k (props o)).

Definition extends (h h' : Heap) : Prop :=
  (∀ l, option_Forall2 obj_extends (objs h !! l) (objs h' !! l)) ∧
  shouldObserve h' = shouldObserve h ∧ events h' = events h ∧
  dep_uid h ≤ dep_uid h'.


(** How often the setter calls [notify] on the dep [d]. *)
Definition notify_count (d : nat) (fx : list Effect) : nat :=
  length (filter (λ e, e = FxNotify d) fx).

(** Surroundings for the examples: no key is an array index, the
    prototypes are empty (the sample records below inherit no name, as
    records made by [Object.create(null)]), the array methods leave
    the elements alone, and every watcher is queued for the next
    tick.  Then the heap of the first scenario of the specification,
    [r = {a: 1, b: 2}] at address 0, before and after [observe(r)];
    and the same record used as the root data of a component. *)
Definition plain_env : Env :=
  mkEnv (λ _, None) (λ _, false) (λ _ _ _ es, (VUndef, es)) false (λ _ h, Ok h)
        (λ _ _ _ _, Throw).

Definition record_ab : Obj :=
  mkObj KObject true false false None
    [("a"%string, PData (VNum (Fin 1)) true true true);
     ("b"%string, PData (VNum (Fin 2)) true true true)] [] [].

Definition heap0 : Heap := mkHeap {[0 := record_ab]} 0 true [].

Definition heap1 : Heap :=
  match observe plain_env 2 (VRef 0) false heap0 with
  | Ok (_, h) => h
  | _ => heap0
  end.

Definition devcfg : Config := mkConfig true true.

Definition heap1_root : Heap :=
  match observe plain_env 2 (VRef 0) true heap0 with
  | Ok (_, h) => h
  | _ => heap0
  end.












(** A property that had a setter of its own and no getter when
    [defineReactive] took it over: the setter keeps what it is given
    in its cell, and [val] is [undefined]. *)
Definition setter_only : Accessor :=
  Reactive 1 VUndef false false (User None (Some (λ v _, v)) VUndef).

End Observer.

(** * Provide and inject *)

Module Inject.
Import Observer.

(** A [default] of an injection: a value, or a function that is called
    with the component as [this]. *)
Inductive Default :=
| DefaultValue (v : jsval)
| DefaultFn (f : nat → jsval).

(** [inject[key]] as [normalizeInject] leaves it: an object with
    [from], and [default] if the author gave one. *)
Record Injection := mkInjection {
  inj_from : string;
  inj_default : option Default;
}.

(** [vm._provided] of a component: [None] when it is not set,
    otherwise the own properties of the object. *)
Definition Provided := option (gmap string jsval).

(** The first source, from the component upwards along [$parent], whose
    [_provided] has [provideKey] as an own property. *)
Fixpoint find_provided (provideKey : string) (chain : list Provided)
  : option jsval :=
  match chain with
  | [] => None
  | source :: parents =>
    match source ≫= (.!! provideKey) with
    | Some v => Some v
    | None => find_provided provideKey parents
    end
  end.

(** [result[key] = v] *)
Fixpoint assign_key (key : string) (v : jsval) (result : list (string * jsval))
  : list (string * jsval) :=
  match result with
  | [] => [(key, v)]
  | (k, x) :: rest =>
    if decide (k = key) then (key, v) :: rest else (k, x) :: assign_key key v rest
  end.

Fixpoint result_lookup (key : string) (result : list (string * jsval))
  : option jsval :=
  match result with
  | [] => None
  | (k, x) :: rest => if decide (k = key) then Some x else result_lookup key rest
  end.

(** One turn of the [for] loop of [resolveInject]: the result so far
    and the keys warned about ('Injection "key" not found'). *)
Definition resolve_key (cfg : Config) (vm : nat) (chain : list Provided)
  (acc : list (string * jsval) * list string) (entry : string * Injection)
  : list (string * jsval) * list string :=
  let '(key, inj) := entry in
  if decide (key = "__ob__"%string) then acc
  else
    match find_provided (inj_from inj) chain with
    | Some v => (assign_key key v acc.1, acc.2)
    | None =>
      match inj_default inj with
      | Some (DefaultValue v) => (assign_key key v acc.1, acc.2)
      | Some (DefaultFn f) => (assign_key key (f vm) acc.1, acc.2)
      | None => (acc.1, if dev cfg then acc.2 ++ [key] else acc.2)
      end
    end.

(** [resolveInject(inject, vm)]: [inject] with its keys in the order
    [Reflect.ownKeys] (or [Object.keys]) gives them, [None] when the
    component has no [inject] option; [chain] is [_provided] of the
    component itself, of its [$parent], and so on up to the root. *)
Definition resolveInject (cfg : Config) (vm : nat) (chain : list Provided)
  (inject : option (list (string * Injection)))
  : option (list (string * jsval)) * list string :=
  match inject with
  | None => (None, [])
  | Some entries =>
    let r := foldl (resolve_key cfg vm chain) ([], []) entries in
    (Some r.1, r.2)
  end.

(** [initInjections(vm)], given what [resolveInject] returned; the
    component is the object at [vm]. *)
Definition initInjections (env : Env) (cfg : Config) (fuel : nat) (vm : nat)
  (resolved : option (list (string * jsval))) (h : Heap) : result Heap :=
  match resolved with
  | None => Ok h
  | Some entries =>
    let h := toggleObserving false h in
    h ← for_each (λ kv, defineReactive env fuel vm kv.1 (Some kv.2) (dev cfg) false)
          entries h;
    Ok (toggleObserving true h)
  end.

(** The source has [provideKey] as an own property of its
    [_provided]. *)
Definition provides (source : Provided) (provideKey : string) : Prop :=
  ∃ m, source = Some m ∧ is_Some (m !! provideKey).

(** A component instance with no property yet, and a record next to
    it. *)
Definition vm_heap : Heap :=
  mkHeap {[0 := mkObj KObject true true false None [] [] []; 1 := record_ab]}
         0 true [].

End Inject.

(** * The event emitter of a component *)

Module Events.

(** A function that is registered as a listener: one of the program
    using the framework, named by a number, or the wrapper [on] that a
    call of [$once] makes, which carries the wrapped function as its
    [fn] property.  Each call of [$once] makes a new wrapper; [serial]
    counts them, so that two wrappers are the same value only when
    they are the same function object. *)
Inductive Fn :=
| UserFn (f : nat)
| OnceFn (serial : nat) (event : string) (fn : Fn).

#[global] Instance Fn_eq_dec : EqDecision Fn.
Proof. solve_decision. Defined.

(** [cb.fn]; a function of the program has no such property. *)
Definition fn_of (cb : Fn) : option Fn :=
  match cb with
  | OnceFn _ _ fn => Some fn
  | UserFn _ => None
  end.

Inductive Event :=
| EvCall (f : nat) (args : list jsval)   (* a function of the program is called *)
| EvTip (event : string).                (* the [tip] of [$emit] *)

#[global] Instance Event_eq_dec : EqDecision Event.
Proof. solve_decision. Defined.

(** The part of a component the emitter uses.  An entry of [_events]
    is an array of listeners or [null] ([None]). *)
Record Vm := mkVm {
  _events : gmap string (option (list Fn));
  _hasHookEvent : bool;
  serial : nat;
  log : list Event;
}.

(** [initEvents(vm)] of a component without [_parentListeners]. *)
Definition initEvents (vm : Vm) : Vm := mkVm ∅ false (serial vm) (log vm).

(** [vm._events[event]] when it is not [undefined] or [null]. *)
Definition cbs_of (vm : Vm) (event : string) : option (list Fn) :=
  mjoin (_events vm !! event).

(** [hookRE.test(event)] with [hookRE = /^hook:/] *)
Definition is_hook (event : string) : bool := String.prefix "hook:" event.

Inductive EventArg :=
| One (event : string)
| Many (events : list string).

(** [$on] with a string. *)
Definition on_one (event : string) (fn : Fn) (vm : Vm) : Vm :=
  mkVm (<[event := Some (default [] (cbs_of vm event) ++ [fn])]> (_events vm))
       (if is_hook event then true else _hasHookEvent vm)
       (serial vm) (log vm).

Definition on (event : EventArg) (fn : Fn) (vm : Vm) : Vm :=
  match event with
  | One e => on_one e fn vm
  | Many es => foldl (λ vm e, on_one e fn vm) vm es
  end.

Definition once (event : string) (fn : Fn) (vm : Vm) : Vm :=
  on_one event (OnceFn (serial vm) event fn)
    (mkVm (_events vm) (_hasHookEvent vm) (S (serial vm)) (log vm)).

(** [cb === fn || cb.fn === fn] *)
Definition matches (fn cb : Fn) : bool :=
  bool_decide (cb = fn) || bool_decide (fn_of cb = Some fn).

Fixpoint remove_first_match (fn : Fn) (cbs : list Fn) : list Fn :=
  match cbs with
  | [] => []
  | cb :: rest => if matches fn cb then rest else cb :: remove_first_match fn rest
  end.

(** The loop of [$off] for one handler: from the last listener to the
    first, the first that matches is spliced out and the loop ends. *)
Definition off_handler (fn : Fn) (cbs : list Fn) : list Fn :=
  reverse (remove_first_match fn (reverse cbs)).

(** [$off(event, fn)] with a string; [fn = None] is a call without
    handler. *)
Definition off_one (event : string) (fn : option Fn) (vm : Vm) : Vm :=
  match cbs_of vm event with
  | None => vm
  | Some cbs =>
    mkVm (<[event := match fn with
                     | None => None
                     | Some f => Some (off_handler f cbs)
                     end]> (_events vm))
         (_hasHookEvent vm) (serial vm) (log vm)
  end.

Inductive OffArgs :=
| OffAll                                            (* [$off()] *)
| OffEvent (event : EventArg) (fn : option Fn).

Definition off (a : OffArgs) (vm : Vm) : Vm :=
  match a with
  | OffAll => mkVm ∅ (_hasHookEvent vm) (serial vm) (log vm)
  | OffEvent (One e) fn => off_one e fn vm
  | OffEvent (Many es) fn => foldl (λ vm e, off_one e fn vm) vm es
  end.

(** Calling a listener that returns: a function of the program is
    recorded; the wrapper of [$once] first takes itself off its event
    and then calls the function it wraps. *)
Fixpoint invoke (cb : Fn) (args : list jsval) (vm : Vm) : Vm :=
  match cb with
  | UserFn f =>
    mkVm (_events vm) (_hasHookEvent vm) (serial vm) (log vm ++ [EvCall f args])
  | OnceFn _ event fn => invoke fn args (off_one event (Some cb) vm)
  end.

(** [$emit(event, ...args)]; [lower] is [String.prototype.toLowerCase].
    The listeners called are those the event had when the loop began. *)
Definition emit (lower : string → string) (cfg : Config) (event : string)
  (args : list jsval) (vm : Vm) : Vm :=
  let vm :=
    if dev cfg && negb (bool_decide (lower event = event)) &&
       bool_decide (is_Some (cbs_of vm (lower event)))
    then mkVm (_events vm) (_hasHookEvent vm) (serial vm) (log vm ++ [EvTip event])
    else vm in
  match cbs_of vm event with
  | Some cbs => foldl (λ vm cb, invoke cb args vm) vm cbs
  | None => vm
  end.

(** The functions of the program called, in order. *)
Definition called (l : list Event) : list (nat * list jsval) :=
  omap (λ e, match e with EvCall f args => Some (f, args) | _ => None end) l.

(** The listeners of an event, none when there is no array. *)
Definition listeners (vm : Vm) (event : string) : list Fn :=
  default [] (cbs_of vm event).

Definition fresh : Vm := mkVm ∅ false 0 [].

End Events.

(** * Merging of lifecycle hooks *)

Module Options.

(** [dedupeHooks]: a hook is kept where it comes first. *)
Definition dedupeHooks (hooks : list nat) : list nat :=
  foldl (λ res hook, if decide (hook ∈ res) then res else res ++ [hook]) [] hooks.

(** [childVal] of [mergeHook]: one function or an array of them. *)
Inductive ChildVal :=
| Hook (f : nat)
| Hooks (l : list nat).

(** [Array.prototype.concat] with one argument. *)
Definition concat (parentVal : list nat) (childVal : ChildVal) : list nat :=
  match childVal with
  | Hook f => parentVal ++ [f]
  | Hooks l => parentVal ++ l
  end.

(** [mergeHook(parentVal, childVal)]; [None] is [undefined]. *)
Definition mergeHook (parentVal : option (list nat)) (childVal : option ChildVal)
  : option (list nat) :=
  let res :=
    match childVal with
    | Some c =>
      match parentVal with
      | Some p => Some (concat p c)
      | None => Some (match c with Hook f => [f] | Hooks l => l end)
      end
    | None => parentVal
    end in
  dedupeHooks <$> res.

(** The hooks a child option stands for. *)
Definition hooks_of (childVal : option ChildVal) : list nat :=
  match childVal with
  | Some (Hook f) => [f]
  | Some (Hooks l) => l
  | None => []
  end.

End Options.

(** * Merging of data records *)

Module MergeData.
Import Observer.





Section WithEnv.
Variable env : Env.
Variable cfg : Config.
Variable hasSymbol : bool.        (* [hasSymbol] of [util/env] *)


End WithEnv.









End MergeData.

(** * Properties of Dep and Watcher *)

Module ReactiveFacts.
Import Reactive.

(** ** The [remove] helper *)

Lemma elem_of_remove_ne (l : list nat) (x y : nat) :
  x ≠ y → x ∈ remove l y ↔ x ∈ l.
Proof.
  intros Hne. induction l as [|a l IH]; simpl; [done|].
  destruct (decide (a = y)) as [->|Hay].
  - rewrite elem_of_cons. naive_solver.
  - rewrite !elem_of_cons, IH. done.
Qed.

Lemma elem_of_remove_sub (l : list nat) (x y : nat) :
  x ∈ remove l y → x ∈ l.
Proof.
  induction l as [|a l IH]; simpl; [done|].
  destruct (decide (a = y)) as [->|Hay]; rewrite !elem_of_cons; naive_solver.
Qed.

Lemma NoDup_remove (l : list nat) (y : nat) : NoDup l → NoDup (remove l y).
Proof.
  induction 1 as [|a l Hin Hnd IH]; simpl; [constructor|].
  destruct (decide (a = y)); [done|].
  constructor; [|done]. intros H. by apply elem_of_remove_sub in H.
Qed.

Lemma not_elem_of_remove (l : list nat) (y : nat) :
  NoDup l → y ∉ remove l y.
Proof.
  induction 1 as [|a l Hin Hnd IH]; simpl; [by apply not_elem_of_nil|].
  destruct (decide (a = y)) as [->|Hay]; [done|].
  rewrite not_elem_of_cons. done.
Qed.

Lemma remove_absent (l : list nat) (y : nat) : y ∉ l → remove l y = l.
Proof.
  induction l as [|a l IH]; simpl; [done|].
  rewrite not_elem_of_cons. intros [Hne Hin].
  destruct (decide (a = y)); [congruence|]. by rewrite IH.
Qed.

(** ** Reading the state after a field update *)

Lemma subs_of_set_subs d l st d' :
  subs_of (set_subs d l st) d' = if decide (d = d') then l else subs_of st d'.
Proof.
  unfold subs_of, set_subs; simpl. destruct (decide (d = d')) as [->|Hne].
  - by rewrite lookup_insert_eq.
  - by rewrite lookup_insert_ne.
Qed.

Lemma subs_of_set_watcher w W st d :
  subs_of (set_watcher w W st) d = subs_of st d.
Proof. done. Qed.

Lemma subs_of_set_vm v V st d : subs_of (set_vm v V st) d = subs_of st d.
Proof. done. Qed.

Lemma watchers_set_watcher w W st w' :
  watchers (set_watcher w W st) !! w' =
  if decide (w = w') then Some W else watchers st !! w'.
Proof.
  unfold set_watcher; simpl. destruct (decide (w = w')) as [->|Hne].
  - by rewrite lookup_insert_eq.
  - by rewrite lookup_insert_ne.
Qed.

(** ** Removing one watcher from a list of deps *)

Lemma removeSubs_frame w ds st :
  watchers (removeSubs w ds st) = watchers st ∧
  vms (removeSubs w ds st) = vms st ∧
  uid (removeSubs w ds st) = uid st ∧
  target (removeSubs w ds st) = target st ∧
  targetStack (removeSubs w ds st) = targetStack st ∧
  log (removeSubs w ds st) = log st.
Proof. induction ds as [|d ds IH]; simpl; [done|]. apply IH. Qed.

Lemma removeSubs_other w ds st d x :
  x ≠ w → x ∈ subs_of (removeSubs w ds st) d ↔ x ∈ subs_of st d.
Proof.
  intros Hne. induction ds as [|a ds IH]; simpl; [done|].
  unfold removeSub. rewrite subs_of_set_subs.
  destruct (decide (a = d)) as [->|]; [|done].
  by rewrite elem_of_remove_ne.
Qed.

Lemma removeSubs_sub w ds st d x :
  x ∈ subs_of (removeSubs w ds st) d → x ∈ subs_of st d.
Proof.
  induction ds as [|a ds IH]; simpl; [done|].
  unfold removeSub. rewrite subs_of_set_subs.
  destruct (decide (a = d)) as [->|]; [|done].
  intros H. apply elem_of_remove_sub in H. by apply IH.
Qed.

Lemma removeSubs_NoDup w ds st d :
  NoDup (subs_of st d) → NoDup (subs_of (removeSubs w ds st) d).
Proof.
  intros Hnd. induction ds as [|a ds IH]; simpl; [done|].
  unfold removeSub. rewrite subs_of_set_subs.
  destruct (decide (a = d)) as [->|]; [|done].
  by apply NoDup_remove.
Qed.

Lemma removeSubs_not_in w ds st d :
  d ∉ ds → subs_of (removeSubs w ds st) d = subs_of st d.
Proof.
  induction ds as [|a ds IH]; simpl; [done|].
  rewrite not_elem_of_cons. intros [Hne Hin].
  unfold removeSub. rewrite subs_of_set_subs.
  destruct (decide (a = d)); [congruence|]. by apply IH.
Qed.

Lemma removeSubs_gone w ds st d :
  NoDup (subs_of st d) → d ∈ ds → w ∉ subs_of (removeSubs w ds st) d.
Proof.
  intros Hnd. induction ds as [|a ds IH]; simpl; [by intros ?%elem_of_nil|].
  rewrite elem_of_cons. intros Hin.
  unfold removeSub. rewrite subs_of_set_subs.
  destruct (decide (a = d)) as [->|Hne].
  - apply not_elem_of_remove. by apply removeSubs_NoDup.
  - destruct Hin as [->|Hin]; [done|]. by apply IH.
Qed.

(** The loop of [cleanupDeps] is the same removal over the deps that
    were not collected again. *)
Lemma cleanup_loop_filter w (ids : gset nat) ds st :
  foldr (λ d s, if decide (d ∈ ids) then s else removeSub d w s) st ds =
  removeSubs w (filter (λ d, d ∉ ids) ds) st.
Proof.
  induction ds as [|a ds IH]; simpl; [done|].
  rewrite filter_cons. destruct (decide (a ∈ ids)) as [Hin|Hnin].
  - rewrite decide_False; [|by intros H; apply H]. done.
  - rewrite decide_True; [|done]. simpl. by rewrite IH.
Qed.

(** ** The invariant is kept by every method *)

Lemma Inv_frame st st' :
  subs st' = subs st → watchers st' = watchers st → uid st' = uid st →
  Inv st → Inv st'.
Proof.
  intros Hs Hw Hu [H1 H2 H3 H4 H5].
  assert (Hso : ∀ d, subs_of st' d = subs_of st d)
    by (intros d; unfold subs_of; by rewrite Hs).
  constructor; intros *; rewrite ?Hso, ?Hw, ?Hu; eauto.
Qed.

Lemma Inv_init : Inv init.
Proof.
  constructor; unfold subs_of; simpl; intros *.
  - rewrite lookup_empty. simpl. by intros ?%elem_of_nil.
  - by rewrite lookup_empty.
  - rewrite lookup_empty. simpl. constructor.
  - by rewrite lookup_empty.
  - rewrite lookup_empty. by intros [? ?].
Qed.

(** Changing fields of a watcher that the graph does not look at. *)
Lemma Inv_set_watcher_same w W W' st :
  watchers st !! w = Some W →
  deps W' = deps W → newDeps W' = newDeps W →
  depIds W' = depIds W → newDepIds W' = newDepIds W →
  (active W' = true → active W = true) →
  Inv st → Inv (set_watcher w W' st).
Proof.
  intros Hw Hd Hn Hdi Hni Ha [H1 H2 H3 H4 H5].
  constructor; intros *; rewrite ?subs_of_set_watcher, ?watchers_set_watcher.
  - intros Hin. destruct (H1 _ _ Hin) as (W0 & HW0 & Hor).
    destruct (decide (w = w0)) as [->|Hne]; [|eauto].
    exists W'. split; [done|]. rewrite Hd, Hn. congruence.
  - destruct (decide (w = w0)) as [->|Hne]; [|eauto].
    intros [= <-] Hact. rewrite Hd, Hn. eauto.
  - done.
  - destruct (decide (w = w0)) as [->|Hne]; [|eauto].
    intros [= <-]. rewrite Hd, Hn, Hdi, Hni. eauto.
  - destruct (decide (w = w0)) as [->|Hne]; [|eauto].
    intros _. apply H5. eauto.
Qed.

Lemma Inv_emit e st : Inv st → Inv (emit e st).
Proof. by apply Inv_frame. Qed.

Lemma Inv_pushTarget t st : Inv st → Inv (pushTarget t st).
Proof. by apply Inv_frame. Qed.

Lemma Inv_popTarget st : Inv st → Inv (popTarget st).
Proof. by apply Inv_frame. Qed.

Lemma Inv_set_vm v V st : Inv st → Inv (set_vm v V st).
Proof. by apply Inv_frame. Qed.

Lemma Inv_addDep w d st : Inv st → Inv (addDep w d st).
Proof.
  intros HI. unfold addDep.
  destruct (watchers st !! w) as [W|] eqn:HW; [|done].
  destruct (decide (d ∈ newDepIds W)) as [|Hnew]; [done|].
  destruct HI as [H1 H2 H3 H4 H5].
  destruct (H4 _ _ HW) as [Hids Hnids].
  destruct (decide (d ∈ depIds W)) as [Hold|Hold].
  - constructor; intros *;
      rewrite ?subs_of_set_watcher, ?watchers_set_watcher.
    + intros Hin. destruct (H1 _ _ Hin) as (W0 & HW0 & Hor).
      destruct (decide (w = w0)) as [->|Hne]; [|eauto].
      eexists; split; [done|]. simpl. rewrite elem_of_app.
      assert (W0 = W) as -> by congruence. tauto.
    + destruct (decide (w = w0)) as [->|Hne]; [|eauto].
      intros [= <-]; simpl. rewrite elem_of_app, list_elem_of_singleton.
      intros Hact [Hd|[Hd| ->]]; eauto.
      apply (H2 _ _ _ HW Hact). left. by apply Hids.
    + done.
    + destruct (decide (w = w0)) as [->|Hne]; [|eauto].
      intros [= <-]; simpl. split; [done|]. intros d'.
      rewrite elem_of_union, elem_of_singleton, elem_of_app,
        list_elem_of_singleton, Hnids. tauto.
    + destruct (decide (w = w0)) as [->|Hne]; [|eauto].
      intros _. apply H5. eauto.
  - assert (Hfresh : w ∉ subs_of st d).
    { intros Hin. destruct (H1 _ _ Hin) as (W0 & HW0 & [Hd|Hd]).
      - apply Hold. assert (W0 = W) as -> by congruence. by apply Hids.
      - apply Hnew. assert (W0 = W) as -> by congruence. by apply Hnids. }
    unfold addSub. rewrite subs_of_set_watcher.
    constructor; intros *;
      rewrite ?subs_of_set_subs, ?subs_of_set_watcher; simpl;
      rewrite ?lookup_insert.
    + destruct (decide (d = d0)) as [<-|Hd].
      * rewrite elem_of_app, list_elem_of_singleton. intros [Hin| ->].
        -- destruct (H1 _ _ Hin) as (W0 & HW0 & Hor).
           destruct (decide (w = w0)) as [->|Hne]; [|eauto]. tauto.
        -- rewrite decide_True; [|done]. eexists; split; [done|]. simpl.
           rewrite elem_of_app, list_elem_of_singleton. tauto.
      * intros Hin. destruct (H1 _ _ Hin) as (W0 & HW0 & Hor).
        destruct (decide (w = w0)) as [->|Hne]; [|eauto].
        eexists; split; [done|]; simpl. rewrite elem_of_app.
        assert (W0 = W) as -> by congruence. tauto.
    + destruct (decide (w = w0)) as [->|Hne].
      * intros [= <-]; simpl. rewrite elem_of_app, list_elem_of_singleton.
        intros Hact Hor. destruct (decide (d = d0)) as [<-|Hd].
        -- rewrite elem_of_app, list_elem_of_singleton. tauto.
        -- apply (H2 _ _ _ HW Hact). naive_solver.
      * intros HW0 Hact Hor. destruct (decide (d = d0)) as [<-|Hd]; [|eauto].
        rewrite elem_of_app. left. eauto.
    + destruct (decide (d = d0)) as [<-|Hd]; [|done].
      apply NoDup_app. split; [done|]. split; [|apply NoDup_singleton].
      intros x Hx ->%list_elem_of_singleton. done.
    + destruct (decide (w = w0)) as [->|Hne]; [|eauto].
      intros [= <-]; simpl. split; [done|]. intros d'.
      rewrite elem_of_union, elem_of_singleton, elem_of_app,
        list_elem_of_singleton, Hnids. tauto.
    + destruct (decide (w = w0)) as [->|Hne]; [|eauto].
      intros _. apply H5. eauto.
Qed.

Lemma Inv_cleanupDeps w st : Inv st → Inv (cleanupDeps w st).
Proof.
  intros HI. unfold cleanupDeps.
  destruct (watchers st !! w) as [W|] eqn:HW; [|done].
  rewrite cleanup_loop_filter.
  set (gone := filter (λ d, d ∉ newDepIds W) (deps W)).
  destruct (removeSubs_frame w gone st) as (Hw & _ & Hu & _).
  destruct HI as [H1 H2 H3 H4 H5].
  destruct (H4 _ _ HW) as [Hids Hnids].
  constructor; intros *;
    rewrite ?subs_of_set_watcher, ?watchers_set_watcher, ?Hw; simpl.
  - intros Hin. pose proof (removeSubs_sub _ _ _ _ _ Hin) as Hin0.
    destruct (H1 _ _ Hin0) as (W0 & HW0 & Hor).
    destruct (decide (w = w0)) as [<-|Hne]; [|eauto].
    eexists; split; [done|]; simpl. left.
    assert (W0 = W) as -> by congruence.
    destruct Hor as [Hd|Hd]; [|done].
    destruct (decide (d ∈ newDepIds W)) as [Hn|Hn]; [by apply Hnids|].
    exfalso. eapply removeSubs_gone; [apply H3| |apply Hin].
    apply list_elem_of_filter. done.
  - destruct (decide (w = w0)) as [<-|Hne].
    + intros [= <-]; simpl. intros Hact [Hd|Hd]; [|by apply elem_of_nil in Hd].
      rewrite removeSubs_not_in.
      * apply (H2 _ _ _ HW Hact). by right.
      * unfold gone. rewrite list_elem_of_filter. intros [Hn _].
        apply Hn. by apply Hnids.
    + intros HW0 Hact Hor. apply removeSubs_other; [done|]. eauto.
  - by apply removeSubs_NoDup.
  - destruct (decide (w = w0)) as [<-|Hne]; [|eauto].
    intros [= <-]; simpl. split; [done|]. intros d.
    rewrite elem_of_empty, elem_of_nil. done.
  - rewrite Hu. destruct (decide (w = w0)) as [<-|Hne]; [|eauto].
    intros _. apply H5. eauto.
Qed.

Lemma Inv_teardown w st : Inv st → Inv (teardown w st).
Proof.
  intros HI. unfold teardown.
  destruct (watchers st !! w) as [W|] eqn:HW; [|done].
  destruct (active W) eqn:Hact; [|done].
  set (st1 := match vms st !! vm W with
              | Some V => if _isBeingDestroyed V then st
                          else set_vm (vm W) _ st
              | None => st end).
  assert (HI1 : Inv st1 ∧ watchers st1 = watchers st ∧ uid st1 = uid st
                ∧ ∀ d, subs_of st1 d = subs_of st d).
  { unfold st1. destruct (vms st !! vm W) as [V|]; [|done].
    destruct (_isBeingDestroyed V); [done|].
    split; [by apply Inv_set_vm|done]. }
  clearbody st1. destruct HI1 as (HI1 & Hw1 & Hu1 & Hs1).
  fold (removeSubs w (deps W) st1).
  destruct (removeSubs_frame w (deps W) st1) as (Hw & _ & Hu & _).
  destruct HI1 as [H1 H2 H3 H4 H5]. rewrite Hw1 in *.
  constructor; intros *;
    rewrite ?subs_of_set_watcher, ?watchers_set_watcher, ?Hw, ?Hw1; simpl.
  - intros Hin. pose proof (removeSubs_sub _ _ _ _ _ Hin) as Hin0.
    destruct (H1 _ _ Hin0) as (W0 & HW0 & Hor).
    destruct (decide (w = w0)) as [<-|Hne]; [|eauto].
    eexists; split; [done|]; simpl. congruence.
  - destruct (decide (w = w0)) as [<-|Hne].
    + intros [= <-]; simpl. done.
    + intros HW0 Ha Hor. apply removeSubs_other; [done|]. eauto.
  - by apply removeSubs_NoDup.
  - destruct (decide (w = w0)) as [<-|Hne]; [|eauto].
    intros [= <-]; simpl. eauto.
  - rewrite Hu. destruct (decide (w = w0)) as [<-|Hne]; [|eauto].
    intros _. apply H5. eauto.
Qed.

Lemma Inv_depend d st : Inv st → Inv (depend d st).
Proof.
  intros HI. unfold depend. destruct (target st); [|done].
  by apply Inv_addDep.
Qed.

Lemma Inv_depend_all ds st : Inv st → Inv (foldl (λ s d, depend d s) st ds).
Proof.
  revert st. induction ds as [|d ds IH]; simpl; intros st HI; [done|].
  apply IH. by apply Inv_depend.
Qed.

Lemma Inv_get w ev st : Inv st → Inv (get w ev st).2.
Proof.
  intros HI. unfold get. destruct (watchers st !! w) as [W|]; [|done].
  destruct (ev_value ev); simpl.
  - destruct (deep W && ev_traverse_throws ev); simpl;
      [|apply Inv_cleanupDeps, Inv_popTarget];
      destruct (deep W); repeat apply Inv_depend_all; by apply Inv_pushTarget.
  - destruct (user W); simpl; apply Inv_cleanupDeps, Inv_popTarget;
      [apply Inv_emit|]; apply Inv_depend_all; by apply Inv_pushTarget.
Qed.

Lemma Inv_run w ev st : Inv st → Inv (run w ev st).2.
Proof.
  intros HI. unfold run. destruct (watchers st !! w) as [W|]; [|done].
  destruct (active W); [|done].
  pose proof (Inv_get w ev st HI) as HI1.
  destruct (get w ev st) as [[v|] st1]; simpl in *; [|done].
  destruct (watchers st1 !! w) as [W1|] eqn:HW1; [|done].
  destruct (_ || _); simpl; [|done].
  apply Inv_emit. by eapply Inv_set_watcher_same.
Qed.

Lemma Inv_evaluate w ev st : Inv st → Inv (evaluate w ev st).2.
Proof.
  intros HI. unfold evaluate.
  pose proof (Inv_get w ev st HI) as HI1.
  destruct (get w ev st) as [[v|] st1]; simpl in *; [|done].
  destruct (watchers st1 !! w) as [W1|] eqn:HW1; [|done]. simpl.
  by eapply Inv_set_watcher_same.
Qed.

Lemma Inv_update w ev st : Inv st → Inv (update w ev st).2.
Proof.
  intros HI. unfold update.
  assert (HI1 : Inv (emit (EvUpdate w) st)) by by apply Inv_emit.
  destruct (watchers (emit (EvUpdate w) st) !! w) as [W|] eqn:HW; [|done].
  destruct (lazy W); simpl; [by eapply Inv_set_watcher_same|].
  destruct (sync W); [by apply Inv_run|]. simpl. by apply Inv_emit.
Qed.

Lemma Inv_notify_loop l evs st : Inv st → Inv (notify_loop l evs st).2.
Proof.
  revert st. induction l as [|w l IH]; simpl; intros st HI; [done|].
  pose proof (Inv_update w (evs w) st HI) as HI1.
  destruct (update w (evs w) st) as [[[]|] st1]; simpl in *; [|done].
  by apply IH.
Qed.

Lemma Inv_notify cfg d evs st : Inv st → Inv (notify cfg d evs st).2.
Proof. intros HI. unfold notify. by apply Inv_notify_loop. Qed.

Lemma Inv_newWatcher v o ev st : Inv st → Inv (newWatcher v o ev st).2.
Proof.
  intros HI. unfold newWatcher.
  set (st1 := match vms st !! v with Some V => _ | None => _ end).
  assert (HI1 : Inv st1 ∧ watchers st1 = watchers st ∧ uid st1 = uid st
                ∧ ∀ d, subs_of st1 d = subs_of st d).
  { unfold st1. destruct (vms st !! v) as [V|];
      (split; [by apply Inv_set_vm|done]). }
  clearbody st1. destruct HI1 as ([H1 H2 H3 H4 H5] & Hw1 & Hu1 & Hs1).
  set (W := mkWatcher v _ _ _ _ _ true [] [] ∅ ∅ VUndef).
  set (st2 := mkState _ _ _ _ _ _ _).
  assert (HI2 : Inv st2).
  { assert (Hs2 : ∀ d, subs_of st2 d = subs_of st1 d) by done.
    constructor; intros *; rewrite ?Hs2; simpl; rewrite ?lookup_insert.
    - intros Hin. destruct (H1 _ _ Hin) as (W0 & HW0 & Hor).
      rewrite decide_False; [eauto|].
      intros <-. assert (S (uid st) ≤ uid st1) by (apply H5; eauto). lia.
    - destruct (decide (S (uid st) = w)) as [<-|Hne]; [|by apply H2].
      intros [= <-]; simpl. intros _ [Hd|Hd]; by apply elem_of_nil in Hd.
    - apply H3.
    - destruct (decide (S (uid st) = w)) as [<-|Hne]; [|by apply H4].
      intros [= <-]; simpl. split; intros d;
        rewrite elem_of_empty, elem_of_nil; done.
    - destruct (decide (S (uid st) = w)) as [<-|Hne]; [done|].
      intros Hs. apply H5 in Hs. lia. }
  clearbody st2. destruct (o_lazy o); [done|].
  pose proof (Inv_get (S (uid st)) ev st2 HI2) as HI3.
  destruct (get (S (uid st)) ev st2) as [[val|] st3]; simpl in *; [|done].
  destruct (watchers st3 !! S (uid st)) as [W1|] eqn:HW1; [|done]. simpl.
  by eapply Inv_set_watcher_same.
Qed.

Lemma Inv_step cfg op st : Inv st → Inv (step cfg op st).
Proof.
  intros HI. destruct op; simpl.
  - by apply Inv_newWatcher.
  - by apply Inv_notify.
  - by apply Inv_run.
  - by apply Inv_evaluate.
  - by apply Inv_teardown.
Qed.

Lemma Inv_steps cfg ops st : Inv st → Inv (steps cfg ops st).
Proof.
  revert st. induction ops as [|op ops IH]; simpl; intros st HI; [done|].
  apply IH. by apply Inv_step.
Qed.

(** ** What an evaluation collects *)

Lemma same_but_new_refl W : same_but_new W W.
Proof. by repeat split. Qed.

Lemma same_but_new_trans W1 W2 W3 :
  same_but_new W1 W2 → same_but_new W2 W3 → same_but_new W1 W3.
Proof. unfold same_but_new. intros H12 H23. intuition congruence. Qed.

Lemma addDep_spec w d st W :
  Inv st → watchers st !! w = Some W →
  ∃ W', watchers (addDep w d st) !! w = Some W' ∧ same_but_new W W' ∧
        (∀ d', d' ∈ newDeps W' ↔ d' ∈ newDeps W ∨ d' = d) ∧
        (NoDup (newDeps W) → NoDup (newDeps W')) ∧
        target (addDep w d st) = target st.
Proof.
  intros HI HW. unfold addDep. rewrite HW.
  destruct (inv_ids _ HI _ _ HW) as [Hids Hnids].
  destruct (decide (d ∈ newDepIds W)) as [Hnew|Hnew].
  - exists W. split; [done|]. split; [apply same_but_new_refl|].
    split; [|done]. intros d'. split; [tauto|].
    intros [?| ->]; [done|]. by apply Hnids.
  - eexists. split.
    { destruct (decide (d ∈ depIds W)); unfold addSub;
        simpl; by rewrite lookup_insert_eq. }
    simpl. split; [by repeat split|]. split; [|split].
    + intros d'. rewrite elem_of_app, list_elem_of_singleton. done.
    + intros Hnd. apply NoDup_app. split; [done|].
      split; [|apply NoDup_singleton].
      intros x Hx ->%list_elem_of_singleton. apply Hnew. by apply Hnids.
    + by destruct (decide (d ∈ depIds W)).
Qed.

Lemma depend_all_spec w ds st W :
  Inv st → watchers st !! w = Some W → target st = Some w →
  ∃ W', watchers (foldl (λ s d, depend d s) st ds) !! w = Some W' ∧
        same_but_new W W' ∧
        (∀ d, d ∈ newDeps W' ↔ d ∈ newDeps W ∨ d ∈ ds) ∧
        (NoDup (newDeps W) → NoDup (newDeps W')) ∧
        target (foldl (λ s d, depend d s) st ds) = Some w.
Proof.
  revert st W. induction ds as [|d ds IH]; simpl; intros st W HI HW Ht.
  - exists W. split; [done|]. split; [apply same_but_new_refl|].
    split; [|done]. intros d. rewrite elem_of_nil. tauto.
  - assert (depend d st = addDep w d st) as ->
      by (unfold depend; by rewrite Ht).
    destruct (addDep_spec w d st W HI HW) as (W1 & HW1 & Hs1 & Hin1 & Hnd1 & Ht1).
    destruct (IH (addDep w d st) W1) as (W2 & HW2 & Hs2 & Hin2 & Hnd2 & Ht2).
    { by apply Inv_addDep. } { done. } { congruence. }
    exists W2. split; [done|]. split; [by eapply same_but_new_trans|].
    split; [|split; [tauto|done]].
    intros d'. rewrite Hin2, Hin1, elem_of_cons. tauto.
Qed.

(** [cleanupDeps] on a watcher: the collected deps become the deps, the
    collection is emptied, and the deps left behind lose the watcher. *)
Lemma cleanupDeps_spec w st W :
  Inv st → watchers st !! w = Some W →
  ∃ W', watchers (cleanupDeps w st) !! w = Some W' ∧
        deps W' = newDeps W ∧ depIds W' = newDepIds W ∧
        newDeps W' = [] ∧ newDepIds W' = ∅ ∧
        (∀ d, d ∈ deps W → d ∉ newDeps W → w ∉ subs_of (cleanupDeps w st) d) ∧
        active W' = active W ∧ lazy W' = lazy W ∧ sync W' = sync W.
Proof.
  intros HI HW. unfold cleanupDeps. rewrite HW.
  destruct (inv_ids _ HI _ _ HW) as [Hids Hnids].
  eexists. split; [by rewrite watchers_set_watcher, decide_True|].
  simpl. repeat split.
  intros d Hd Hn. rewrite subs_of_set_watcher, cleanup_loop_filter.
  apply removeSubs_gone; [by apply inv_nodup|].
  apply list_elem_of_filter. split; [|done]. by rewrite Hnids.
Qed.

Lemma get_spec w ev st W :
  Inv st → watchers st !! w = Some W → newDeps W = [] →
  (∀ v, ev_value ev = Some v → deep W && ev_traverse_throws ev = false) →
  ∃ W', watchers (get w ev st).2 !! w = Some W' ∧
        newDeps W' = [] ∧ newDepIds W' = ∅ ∧
        (∀ d, d ∈ deps W' ↔ d ∈ touched W ev) ∧
        (∀ d, d ∈ depIds W' ↔ d ∈ touched W ev) ∧
        NoDup (deps W') ∧
        (∀ d, d ∈ deps W → d ∉ touched W ev → w ∉ subs_of (get w ev st).2 d) ∧
        active W' = active W ∧ lazy W' = lazy W ∧ sync W' = sync W.
Proof.
  intros HI HW Hnew Hno.
  set (st1 := pushTarget (Some w) st).
  destruct (depend_all_spec w (touched W ev) st1 W)
    as (W2 & HW2 & Hsame & Hin & Hnd & _); [by apply Inv_pushTarget|done..|].
  assert (HI2 : Inv (foldl (λ s d, depend d s) st1 (touched W ev)))
    by by apply Inv_depend_all, Inv_pushTarget.
  set (st2 := foldl (λ s d, depend d s) st1 (touched W ev)) in *.
  assert (Hfin : ∀ st', subs st' = subs st2 → watchers st' = watchers st2 →
            uid st' = uid st2 →
            ∃ W', watchers (cleanupDeps w st') !! w = Some W' ∧
              newDeps W' = [] ∧ newDepIds W' = ∅ ∧
              (∀ d, d ∈ deps W' ↔ d ∈ touched W ev) ∧
              (∀ d, d ∈ depIds W' ↔ d ∈ touched W ev) ∧
              NoDup (deps W') ∧
              (∀ d, d ∈ deps W → d ∉ touched W ev →
                    w ∉ subs_of (cleanupDeps w st') d) ∧
              active W' = active W ∧ lazy W' = lazy W ∧ sync W' = sync W).
  { intros st' Hs Hw Hu.
    assert (HI' : Inv st') by by eapply Inv_frame.
    assert (HW' : watchers st' !! w = Some W2) by by rewrite Hw.
    destruct (cleanupDeps_spec w st' W2 HI' HW')
      as (W' & HW'' & Hd & Hdi & Hn & Hni & Hgone & Ha' & Hl' & Hs').
    destruct (inv_ids _ HI' _ _ HW') as [_ Hnids].
    assert (Hin' : ∀ d, d ∈ newDeps W2 ↔ d ∈ touched W ev).
    { intros d. rewrite Hin, Hnew, elem_of_nil. tauto. }
    destruct Hsame as (_ & _ & _ & Hl & Hsy & _ & Ha & Hdeps & _).
    exists W'. split; [done|]. rewrite Hd, Hdi.
    split; [done|]. split; [done|]. split; [done|].
    split; [intros d; by rewrite Hnids|].
    split; [apply Hnd; rewrite Hnew; constructor|].
    split; [|split; [congruence|split; congruence]].
    intros d Hd0 Ht. apply Hgone; [by rewrite Hdeps|by rewrite Hin']. }
  unfold get. rewrite HW. fold st1. unfold st2 in Hfin. unfold touched in *.
  rewrite foldl_app in Hfin.
  destruct (ev_value ev) as [v|]; simpl.
  - rewrite (Hno v eq_refl). destruct (deep W); by apply Hfin.
  - destruct (user W); simpl; destruct (deep W); by apply Hfin.
Qed.

(** A call of [get] that returns was not left by [traverse]. *)
Lemma get_returned w ev st W v st' :
  watchers st !! w = Some W → get w ev st = (Returned v, st') →
  ∀ x, ev_value ev = Some x → deep W && ev_traverse_throws ev = false.
Proof.
  intros HW Hget x Hx. unfold get in Hget. rewrite HW, Hx in Hget.
  by destruct (deep W && ev_traverse_throws ev).
Qed.

(** ** Claims about the subscription graph *)

Lemma Inv_demo : Inv demo.
Proof. apply Inv_newWatcher, Inv_init. Qed.

Lemma Inv_subscribed_deps st w W d :
  Inv st → watchers st !! w = Some W → newDeps W = [] →
  w ∈ subs_of st d → d ∈ deps W.
Proof.
  intros HI HW Hnew Hin.
  destruct (inv_subscribed _ HI _ _ Hin) as (W0 & HW0 & Hor).
  assert (W0 = W) as -> by congruence.
  destruct Hor as [?|Hd]; [done|]. rewrite Hnew in Hd.
  by apply elem_of_nil in Hd.
Qed.

Lemma Inv_mutual_active st w W d :
  Inv st → watchers st !! w = Some W → newDeps W = [] → active W = true →
  w ∈ subs_of st d ↔ d ∈ deps W.
Proof.
  intros HI HW Hnew Hact. split; [by eapply Inv_subscribed_deps|].
  intros Hd. eapply inv_active; eauto.
Qed.

(** C1 (amended).  The code keeps the subscription graph consistent in
    this sense: every subscriber of a dep lists the dep (in [deps], or
    in [newDeps] while it is being evaluated), every active watcher is
    subscribed to all deps it lists, and no subscriber list repeats a
    watcher.  [addDep], [cleanupDeps] and [teardown] each preserve
    this.  For a watcher that is not being evaluated it gives
    [w ∈ d.subs → d ∈ w.deps] always, and [w ∈ d.subs ↔ d ∈ w.deps] as
    long as the watcher is active. *)
Theorem C1_subscription_graph_kept st :
  Inv st →
  (∀ w d, Inv (addDep w d st)) ∧
  (∀ w, Inv (cleanupDeps w st)) ∧
  (∀ w, Inv (teardown w st)) ∧
  (∀ w W d, watchers st !! w = Some W → newDeps W = [] →
     (w ∈ subs_of st d → d ∈ deps W) ∧
     (active W = true → (w ∈ subs_of st d ↔ d ∈ deps W))).
Proof.
  intros HI. split; [|split; [|split]].
  - intros w d. by apply Inv_addDep.
  - intros w. by apply Inv_cleanupDeps.
  - intros w. by apply Inv_teardown.
  - intros w W d HW Hnew. split.
    + by eapply Inv_subscribed_deps.
    + intros Hact. by eapply Inv_mutual_active.
Qed.

Lemma C1_subscription_graph_kept_witness :
  Inv demo ∧
  ((∀ w d, Inv (addDep w d demo)) ∧
   (∀ w, Inv (cleanupDeps w demo)) ∧
   (∀ w, Inv (teardown w demo)) ∧
   (∀ w W d, watchers demo !! w = Some W → newDeps W = [] →
      (w ∈ subs_of demo d → d ∈ deps W) ∧
      (active W = true → (w ∈ subs_of demo d ↔ d ∈ deps W)))).
Proof.
  split; [apply Inv_demo|]. apply (C1_subscription_graph_kept demo), Inv_demo.
Defined.

(** C1 as stated fails at [teardown]: in [demo] watcher 1 and dep 0
    list each other and nothing is being evaluated; after
    [teardown] dep 0 has no subscriber while watcher 1 still has dep 0
    in its [deps]. *)
Lemma C1_teardown_breaks_mutual :
  mutual demo ∧ quiescent demo ∧ ¬ mutual (teardown 1 demo).
Proof.
  assert (Hw : ∀ w W, watchers demo !! w = Some W →
            w = 1 ∧ W = mkWatcher 0 false false false false false true
                          [0] [] {[0]} ∅ (VNum (Fin 1))).
  { intros w W. change (watchers demo) with
      (<[1 := mkWatcher 0 false false false false false true
                [0] [] ({[0]} ∪ ∅) ∅ (VNum (Fin 1))]> (∅ : gmap nat Watcher)).
    rewrite lookup_insert. destruct (decide (1 = w)) as [<-|]; [|done].
    intros [= <-]. split; [done|]. f_equal. }
  split; [|split].
  - intros d w W HW. destruct (Hw _ _ HW) as [-> ->].
    by apply (Inv_mutual_active demo 1 _ d Inv_demo HW).
  - intros w W HW. by destruct (Hw _ _ HW) as [-> ->].
  - intros Hm.
    assert (HW : watchers (teardown 1 demo) !! 1 =
                 Some (mkWatcher 0 false false false false false false
                         [0] [] ({[0]} ∪ ∅) ∅ (VNum (Fin 1)))) by done.
    apply (Hm 0) in HW. simpl in HW.
    assert (Hs : subs_of (teardown 1 demo) 0 = []) by done.
    rewrite Hs in HW. destruct HW as [_ HW].
    eapply elem_of_nil, HW. by left.
Qed.




(** ** A watcher nobody touches *)

Lemma quiet_nil w : quiet w [].
Proof. split; apply not_elem_of_nil. Qed.

Lemma quiet_app w l1 l2 : quiet w l1 → quiet w l2 → quiet w (l1 ++ l2).
Proof. intros [??] [??]. split; rewrite elem_of_app; tauto. Qed.

Lemma keeps_refl w st : keeps w st st.
Proof.
  split; [done|]. split; [done|]. exists []. split; [by rewrite app_nil_r|].
  apply quiet_nil.
Qed.

Lemma keeps_trans w st1 st2 st3 :
  keeps w st1 st2 → keeps w st2 st3 → keeps w st1 st3.
Proof.
  intros (Hw1 & Hs1 & e1 & Hl1 & Hq1) (Hw2 & Hs2 & e2 & Hl2 & Hq2).
  split; [congruence|]. split; [eauto|].
  exists (e1 ++ e2). split; [by rewrite Hl2, Hl1, app_assoc|].
  by apply quiet_app.
Qed.

Lemma keeps_same w st st' :
  watchers st' !! w = watchers st !! w →
  (∀ d, w ∈ subs_of st' d → w ∈ subs_of st d) →
  log st' = log st → keeps w st st'.
Proof.
  intros Hw Hs Hl. split; [done|]. split; [done|].
  exists []. split; [by rewrite app_nil_r|]. apply quiet_nil.
Qed.

Lemma keeps_emit w e st :
  e ≠ EvUpdate w → e ≠ EvQueue w → keeps w st (emit e st).
Proof.
  intros H1 H2. split; [done|]. split; [done|]. exists [e]. split; [done|].
  split; rewrite list_elem_of_singleton; congruence.
Qed.

Lemma keeps_set_watcher w x W st : x ≠ w → keeps w st (set_watcher x W st).
Proof.
  intros Hne. apply keeps_same; [|done..].
  rewrite watchers_set_watcher. by rewrite decide_False.
Qed.

Lemma keeps_removeSubs w x ds st : keeps w st (removeSubs x ds st).
Proof.
  destruct (removeSubs_frame x ds st) as (Hw & _ & _ & _ & _ & Hl).
  apply keeps_same; [by rewrite Hw| |done].
  intros d. apply removeSubs_sub.
Qed.

Lemma addDep_target x d st : target (addDep x d st) = target st.
Proof.
  unfold addDep. destruct (watchers st !! x) as [W|]; [|done].
  destruct (decide (d ∈ newDepIds W)); [done|].
  by destruct (decide (d ∈ depIds W)).
Qed.

Lemma keeps_addDep w x d st : x ≠ w → keeps w st (addDep x d st).
Proof.
  intros Hne. unfold addDep. destruct (watchers st !! x) as [W|]; [|apply keeps_refl].
  destruct (decide (d ∈ newDepIds W)); [apply keeps_refl|].
  destruct (decide (d ∈ depIds W)); [by apply keeps_set_watcher|].
  apply keeps_same; [|intros d'|done].
  - unfold addSub. simpl. by rewrite lookup_insert_ne.
  - unfold addSub. rewrite subs_of_set_subs, subs_of_set_watcher.
    destruct (decide (d = d')) as [<-|]; [|done].
    rewrite elem_of_app, list_elem_of_singleton. intros [?|?]; [done|congruence].
Qed.

Lemma keeps_depend_all w x ds st :
  x ≠ w → target st = Some x →
  keeps w st (foldl (λ s d, depend d s) st ds) ∧
  target (foldl (λ s d, depend d s) st ds) = Some x.
Proof.
  intros Hne. revert st. induction ds as [|d ds IH]; simpl; intros st Ht.
  - split; [apply keeps_refl|done].
  - assert (depend d st = addDep x d st) as ->
      by (unfold depend; by rewrite Ht).
    destruct (IH (addDep x d st)) as [Hk Ht']; [by rewrite addDep_target|].
    split; [|done]. eapply keeps_trans; [by apply keeps_addDep|done].
Qed.

Lemma keeps_cleanupDeps w x st : x ≠ w → keeps w st (cleanupDeps x st).
Proof.
  intros Hne. unfold cleanupDeps.
  destruct (watchers st !! x) as [W|]; [|apply keeps_refl].
  rewrite cleanup_loop_filter.
  eapply keeps_trans; [apply keeps_removeSubs|by apply keeps_set_watcher].
Qed.

Lemma keeps_get w x ev st : x ≠ w → keeps w st (get x ev st).2.
Proof.
  intros Hne. unfold get.
  destruct (watchers st !! x) as [W|]; [|apply keeps_refl].
  set (st1 := pushTarget (Some x) st).
  assert (H1 : keeps w st st1) by by apply keeps_same.
  destruct (keeps_depend_all w x (ev_reads ev) st1 Hne eq_refl) as [H2 Ht2].
  set (st2 := foldl _ st1 (ev_reads ev)) in *.
  destruct (keeps_depend_all w x (ev_traverse ev) st2 Hne Ht2) as [H3 _].
  assert (Hpop : ∀ s, keeps w s (cleanupDeps x (popTarget s))).
  { intros s. eapply keeps_trans; [|by apply keeps_cleanupDeps].
    by apply keeps_same. }
  pose proof (keeps_trans _ _ _ _ H1 H2) as H12.
  destruct (ev_value ev); simpl.
  - destruct (deep W); simpl.
    + destruct (ev_traverse_throws ev); simpl; [by eapply keeps_trans|].
      eapply keeps_trans; [|apply Hpop]. by eapply keeps_trans.
    + by eapply keeps_trans.
  - destruct (user W); simpl.
    + eapply keeps_trans; [|apply Hpop].
      eapply keeps_trans; [apply H12|by apply keeps_emit].
    + by eapply keeps_trans.
Qed.

Lemma keeps_run w x ev st : x ≠ w → keeps w st (run x ev st).2.
Proof.
  intros Hne. unfold run.
  destruct (watchers st !! x) as [W|]; [|apply keeps_refl].
  destruct (active W); [|apply keeps_refl].
  pose proof (keeps_get w x ev st Hne) as Hg.
  destruct (get x ev st) as [[v|] st1]; simpl in *; [|done].
  destruct (watchers st1 !! x) as [W1|]; [|done].
  destruct (_ || _); simpl; [|done].
  eapply keeps_trans; [apply Hg|].
  eapply keeps_trans; [by apply keeps_set_watcher|by apply keeps_emit].
Qed.

Lemma keeps_evaluate w x ev st : x ≠ w → keeps w st (evaluate x ev st).2.
Proof.
  intros Hne. unfold evaluate.
  pose proof (keeps_get w x ev st Hne) as Hg.
  destruct (get x ev st) as [[v|] st1]; simpl in *; [|done].
  destruct (watchers st1 !! x) as [W1|]; [|done]. simpl.
  eapply keeps_trans; [apply Hg|by apply keeps_set_watcher].
Qed.

Lemma keeps_update w x ev st : x ≠ w → keeps w st (update x ev st).2.
Proof.
  intros Hne. unfold update.
  assert (He : keeps w st (emit (EvUpdate x) st))
    by (apply keeps_emit; congruence).
  destruct (watchers (emit (EvUpdate x) st) !! x) as [W|]; [|done].
  destruct (lazy W); simpl.
  { eapply keeps_trans; [apply He|by apply keeps_set_watcher]. }
  destruct (sync W).
  { eapply keeps_trans; [apply He|by apply keeps_run]. }
  simpl. eapply keeps_trans; [apply He|apply keeps_emit; congruence].
Qed.














(** ** Who is told by [notify] *)





Lemma addDep_log w d st : log (addDep w d st) = log st.
Proof.
  unfold addDep. destruct (watchers st !! w) as [W|]; [|done].
  destruct (decide (d ∈ newDepIds W)); [done|].
  by destruct (decide (d ∈ depIds W)).
Qed.

Lemma depend_all_log ds st : log (foldl (λ s d, depend d s) st ds) = log st.
Proof.
  revert st. induction ds as [|d ds IH]; simpl; intros st; [done|].
  rewrite IH. unfold depend. destruct (target st); [|done]. apply addDep_log.
Qed.

Lemma cleanupDeps_log w st : log (cleanupDeps w st) = log st.
Proof.
  unfold cleanupDeps. destruct (watchers st !! w) as [W|]; [|done].
  rewrite cleanup_loop_filter. simpl.
  by destruct (removeSubs_frame w (filter (λ d, d ∉ newDepIds W) (deps W)) st)
    as (_ & _ & _ & _ & _ & ->).
Qed.








End ReactiveFacts.

(** * Properties of the scheduler *)

Module SchedulerFacts.
Import Scheduler.

(** ** Where [queueWatcher] puts a watcher during a flush *)

Lemma scan_spec q idx id j :
  j ≤ length q →
  scan q idx id j ≤ j ∧
  (idx < j → idx < scan q idx id j) ∧
  (∀ p x, scan q idx id j ≤ p < j → q !! p = Some x → id < x) ∧
  (∀ x, S idx < scan q idx id j → q !! (scan q idx id j - 1) = Some x → x ≤ id).
Proof.
  induction j as [|i IH]; simpl; intros Hj.
  - repeat split; intros; lia.
  - destruct (q !! i) as [y|] eqn:Hy.
    + destruct (decide (idx < i ∧ id < y)) as [[Hi Hlt]|Hno].
      * destruct IH as (H1 & H2 & H3 & H4); [lia|].
        split; [lia|]. split; [auto|]. split; [|done].
        intros p x [Hp1 Hp2] Hx. destruct (decide (p = i)) as [->|].
        -- congruence.
        -- apply (H3 p x); [lia|done].
      * split; [lia|]. split; [done|]. split; [intros; lia|].
        intros x Hlt. replace (S i - 1) with i by lia. intros Hx.
        assert (x = y) as -> by congruence. lia.
    + apply lookup_ge_None in Hy. lia.
Qed.

Lemma sorted_insert (A B : list nat) (id : nat) :
  StronglySorted lt (A ++ B) →
  Forall (λ x, x < id) A → Forall (lt id) B →
  StronglySorted lt (A ++ id :: B).
Proof.
  intros Hs HA HB. apply StronglySorted_app in Hs as (Hab & HsA & HsB).
  apply StronglySorted_app. split; [|split; [done|by constructor]].
  intros x1 x2 H1 [->|H2]%elem_of_cons.
  - by eapply Forall_forall in HA.
  - by apply Hab.
Qed.

(** During a flush a new watcher goes strictly behind the current
    index, the queue up to and including the index is untouched, and
    the part behind it stays in strictly ascending order: the watcher
    stands behind the smaller ids and in front of the larger ones. *)
Lemma enqueue_flushing id st :
  flushing st = true → index st < length (queue st) →
  pending_ok st → id ∉ has st →
  ∃ j A B, index st < j ≤ length (queue st) ∧
    queue (enqueue id st) = take j (queue st) ++ id :: drop j (queue st) ∧
    pending st = A ++ B ∧ pending (enqueue id st) = A ++ id :: B ∧
    Forall (λ x, x < id) A ∧ Forall (lt id) B ∧
    pending_ok (enqueue id st).
Proof.
  intros Hf Hidx [Hs Hh] Hid.
  set (q := queue st) in *. set (idx := index st) in *.
  set (j := scan q idx id (length q)).
  destruct (scan_spec q idx id (length q)) as (H1 & H2 & H3 & H4); [done|].
  fold j in H1, H2, H3, H4. specialize (H2 Hidx).
  assert (Hq : queue (enqueue id st) = take j q ++ id :: drop j q).
  { unfold enqueue. by rewrite Hf. }
  set (A := drop (S idx) (take j q)). set (B := drop j q).
  assert (HP : pending st = A ++ B).
  { unfold pending, A, B. fold q idx. by rewrite drop_take_drop by lia. }
  assert (HP' : pending (enqueue id st) = A ++ id :: B).
  { unfold pending. rewrite Hq. change (index (enqueue id st)) with idx.
    rewrite drop_app_le; [done|]. rewrite length_take. lia. }
  exists j, A, B. split; [lia|]. split; [done|]. split; [done|].
  split; [done|]. rewrite HP in Hs, Hh. apply Forall_app in Hh as [HhA HhB].
  cut (Forall (λ x, x < id) A ∧ Forall (lt id) B ∧
       (Forall (λ x, x < id) A → Forall (lt id) B → pending_ok (enqueue id st))).
  { intros (HA & HB & Hok). split; [done|]. split; [done|]. by apply Hok. }
  assert (HB : Forall (lt id) B).
  { apply Forall_forall. intros x Hx.
    apply list_elem_of_lookup in Hx as [p Hp]. unfold B in Hp.
    rewrite lookup_drop in Hp. apply (H3 (j + p) x); [|done].
    apply lookup_lt_Some in Hp. lia. }
  assert (HA : Forall (λ x, x < id) A).
  { destruct (decide (S idx < j)) as [Hlt|Hge].
    - destruct (lookup_lt_is_Some_2 q (j - 1)) as [y Hy]; [lia|].
      pose proof (H4 y Hlt Hy) as Hle.
      assert (HAy : A = drop (S idx) (take (j - 1) q) ++ [y]).
      { unfold A. replace j with (S (j - 1)) at 1 by lia.
        rewrite (take_S_r q (j - 1) y Hy).
        rewrite drop_app_le; [done|]. rewrite length_take. lia. }
      apply Forall_forall. intros x Hx.
      assert (x ≠ id).
      { intros ->. apply Hid. by eapply Forall_forall in HhA. }
      rewrite HAy in Hx. apply elem_of_app in Hx as [Hx| ->%list_elem_of_singleton]; [|lia].
      apply StronglySorted_app_1_l in Hs. rewrite HAy in Hs.
      assert (x < y); [|lia].
      eapply StronglySorted_app_1_elem_of; [done..|]. by left.
    - assert (A = []) as ->; [|constructor].
      unfold A. apply drop_ge. rewrite length_take. lia. }
  split; [done|]. split; [done|]. intros _ _.
  unfold pending_ok. rewrite HP'. split; [by apply sorted_insert|].
  assert (Hsub : ∀ x, x ∈ has st → x ∈ has (enqueue id st))
    by (intros x Hx; simpl; set_solver).
  apply Forall_app. split; [exact (Forall_impl _ _ _ HhA Hsub)|].
  constructor; [simpl; set_solver|exact (Forall_impl _ _ _ HhB Hsub)].
Qed.

Section Flush.
Variable cfg : Config.
Variable info : nat → WatcherInfo.
Variable fx : list Event → list nat.
Variable devtools : bool.

Lemma qw_waiting flush id st :
  waiting st = true →
  queueWatcher_with cfg flush id st = Done (qw_step st id).
Proof.
  intros Hw. unfold queueWatcher_with, qw_step.
  destruct (decide (id ∈ has st)); [done|]. simpl. by rewrite Hw.
Qed.

Lemma qw_step_waiting st id : waiting (qw_step st id) = waiting st.
Proof. unfold qw_step. by destruct (decide (id ∈ has st)). Qed.

Lemma qw_steps_waiting ids st :
  waiting (foldl qw_step st ids) = waiting st.
Proof.
  revert st. induction ids as [|id ids IH]; simpl; intros st; [done|].
  by rewrite IH, qw_step_waiting.
Qed.

Lemma queue_all_waiting flush ids st :
  waiting st = true →
  queue_all (queueWatcher_with cfg flush) ids st = Done (foldl qw_step st ids).
Proof.
  revert st. induction ids as [|id ids IH]; simpl; intros st Hw; [done|].
  rewrite qw_waiting by done. simpl. apply IH. by rewrite qw_step_waiting.
Qed.


(** One turn of the loop, while [waiting] is set. *)
Lemma drain_step fuel st id :
  waiting st = true → queue st !! index st = Some id →
  drain cfg info fx devtools (S fuel) st =
  match check cfg info id (body info fx id st) with
  | inl s => Done s
  | inr s => drain cfg info fx devtools fuel s
  end.
Proof.
  intros Hw Hq. simpl. rewrite Hq. unfold body, check.
  destruct (w_before (info id)).
  - rewrite queue_all_waiting by done. simpl.
    rewrite queue_all_waiting by (simpl; by rewrite qw_steps_waiting).
    simpl. destruct (dev cfg && _); [|done].
    by destruct (decide _).
  - simpl. rewrite queue_all_waiting by done. simpl.
    destruct (dev cfg && _); [|done]. by destruct (decide _).
Qed.

Lemma check_waiting id st s :
  check cfg info id st = inl s ∨ check cfg info id st = inr s →
  waiting s = waiting st.
Proof.
  unfold check. destruct (dev cfg && _).
  - destruct (decide _); intros [[= <-]|[= <-]]; done.
  - intros [[=]|[= <-]]. done.
Qed.

(** Loop invariants: [I] holds at the head of every turn, [Q] of
    whatever the loop ends with. *)
Lemma drain_inv (I : State → Prop) (Q : Res → Prop) :
  (∀ st, I st → waiting st = true) →
  (∀ st, I st → Q (Done st) ∧ Q (Out st)) →
  (∀ st id, I st → queue st !! index st = Some id →
     match check cfg info id (body info fx id st) with
     | inl s => Q (Done s)
     | inr s => I s
     end) →
  ∀ fuel st, I st → Q (drain cfg info fx devtools fuel st).
Proof.
  intros Hwait Hend Hbody fuel.
  induction fuel as [|fuel IH]; intros st HI.
  - simpl. by apply Hend.
  - destruct (queue st !! index st) as [id|] eqn:Hq.
    + rewrite (drain_step _ _ id) by eauto.
      specialize (Hbody st id HI Hq).
      destruct (check cfg info id (body info fx id st)); [done|].
      by apply IH.
    + simpl. rewrite Hq. by apply Hend.
Qed.
(** *** The order of runs *)

Lemma qw_step_log st id : log (qw_step st id) = log st.
Proof. unfold qw_step. by destruct (decide (id ∈ has st)). Qed.

Lemma qw_steps_log ids st : log (foldl qw_step st ids) = log st.
Proof.
  revert st. induction ids as [|id ids IH]; simpl; intros st; [done|].
  by rewrite IH, qw_step_log.
Qed.

Lemma in_turn_later R cur st :
  in_turn R cur st → Forall (lt cur) (pending st).
Proof.
  intros (_ & _ & _ & Hs & _).
  apply StronglySorted_app_1_r in Hs. by apply StronglySorted_inv in Hs as [_ ?].
Qed.

Lemma in_turn_qw_step R cur st x :
  in_turn R cur st → cur < x → in_turn R cur (qw_step st x).
Proof.
  intros HJ Hx. pose proof (in_turn_later _ _ _ HJ) as Hlater.
  destruct HJ as (Hw & Hf & Hq & Hs & Hh).
  unfold qw_step. destruct (decide (x ∈ has st)) as [|Hnin]; [done|].
  assert (Hidx : index st < length (queue st)) by by eapply lookup_lt_Some.
  assert (Hok : pending_ok st).
  { split; [|done]. apply StronglySorted_app_1_r in Hs.
    by apply StronglySorted_inv in Hs as [? _]. }
  destruct (enqueue_flushing x st Hf Hidx Hok Hnin)
    as (j & A & B & Hj & Hq' & HP & HP' & _ & _ & [Hs' Hh']).
  split; [done|]. split; [done|]. split; [|split; [|done]].
  - rewrite Hq'. change (index (enqueue x st)) with (index st).
    rewrite lookup_app_l by (rewrite length_take; lia).
    rewrite lookup_take_lt by lia. done.
  - rewrite HP in Hs, Hlater. rewrite HP'.
    apply StronglySorted_app in Hs as (Hc & HsR & HsP).
    apply Forall_app in Hlater as [HlA HlB].
    apply StronglySorted_app. split; [|split; [done|]].
    + intros x1 x2 H1 H2. rewrite elem_of_cons, elem_of_app, elem_of_cons in H2.
      assert (Hcur : x1 < cur) by (apply Hc; [done|by left]).
      destruct H2 as [->|[H2|[->|H2]]]; [done| |lia|].
      * apply Hc; [done|]. right. apply elem_of_app. by left.
      * apply Hc; [done|]. right. apply elem_of_app. by right.
    + constructor; [by rewrite <- HP'|].
      apply Forall_app. split; [done|]. by constructor.
Qed.

Lemma in_turn_steps R cur ids st :
  in_turn R cur st → Forall (lt cur) ids →
  in_turn R cur (foldl qw_step st ids).
Proof.
  revert st. induction ids as [|x ids IH]; simpl; intros st HJ Hids; [done|].
  apply Forall_cons in Hids as [Hx Hids].
  apply IH; [|done]. by apply in_turn_qw_step.
Qed.

Lemma runs_snoc_run l id : runs (l ++ [EvRun id]) = runs l ++ [id].
Proof. unfold runs. by rewrite omap_app. Qed.

Lemma runs_snoc_other l e :
  (∀ id, e ≠ EvRun id) → runs (l ++ [e]) = runs l.
Proof.
  intros He. unfold runs. rewrite omap_app. simpl.
  destruct e; rewrite ?app_nil_r; try done. by destruct (He id).
Qed.

Lemma current_snoc_run l id : current (l ++ [EvRun id]) = Some id.
Proof. unfold current. by rewrite last_snoc. Qed.

Lemma current_snoc_before l id : current (l ++ [EvBefore id]) = Some id.
Proof. unfold current. by rewrite last_snoc. Qed.

Lemma body_in_turn st cur :
  enqueues_later fx → at_head st → queue st !! index st = Some cur →
  in_turn (runs (log st)) cur (body info fx cur st) ∧
  runs (log (body info fx cur st)) = runs (log st) ++ [cur].
Proof.
  intros Hfx (Hw & Hf & Hs & Hh) Hq.
  rewrite (drop_S _ _ _ Hq) in Hs, Hh.
  apply Forall_cons in Hh as [_ Hh].
  assert (H0 : in_turn (runs (log st)) cur st) by done.
  unfold body.
  set (st1 := if w_before (info cur) then _ else st).
  assert (H1 : in_turn (runs (log st)) cur st1 ∧ runs (log st1) = runs (log st)).
  { unfold st1. destruct (w_before (info cur)); [|done]. split.
    - apply in_turn_steps; [done|]. apply Forall_forall. intros x Hx.
      eapply Hfx; [|done]. apply current_snoc_before.
    - rewrite qw_steps_log. simpl. by apply runs_snoc_other. }
  clearbody st1. destruct H1 as [H1 Hr1].
  pose proof (in_turn_later _ _ _ H1) as Hlater.
  destruct H1 as (Hw1 & Hf1 & Hq1 & Hs1 & Hh1).
  split.
  - apply in_turn_steps.
    + split; [done|]. split; [done|]. split; [done|]. split; [done|].
      change (pending (emit (EvRun cur) (clear_has cur st1))) with (pending st1).
      apply Forall_forall. intros x Hx. simpl.
      apply elem_of_difference. split; [by eapply Forall_forall in Hh1|].
      eapply Forall_forall in Hlater; [|done]. set_solver by lia.
    + apply Forall_forall. intros x Hx.
      eapply Hfx; [|done]. simpl. apply current_snoc_run.
  - rewrite qw_steps_log. simpl. by rewrite runs_snoc_run, Hr1.
Qed.

Lemma runs_sorted_flush fuel st :
  enqueues_later fx → at_head st →
  StronglySorted lt (runs (log (state_of (drain cfg info fx devtools fuel st)))).
Proof.
  intros Hfx. revert fuel st.
  apply (drain_inv at_head
           (λ r, StronglySorted lt (runs (log (state_of r))))).
  - by intros st (? & _).
  - intros st (_ & _ & Hs & _). simpl.
    by apply StronglySorted_app_1_l in Hs.
  - intros st cur HI Hq.
    destruct (body_in_turn st cur Hfx HI Hq) as [HJ Hr].
    set (st3 := body info fx cur st) in *.
    destruct HJ as (Hw & Hf & Hq3 & Hs & Hh).
    assert (Hnext : ∀ s, log s = log st3 → has s = has st3 →
              queue s = queue st3 → index s = index st3 →
              waiting s = true → flushing s = true →
              at_head (next_index s)).
    { intros s Hl Hha Hqu Hi Hws Hfs.
      split; [done|]. split; [done|]. simpl.
      rewrite Hl, Hqu, Hi, Hr, Hha. fold (pending st3).
      by rewrite <- app_assoc. }
    unfold check. destruct (dev cfg && _).
    + destruct (decide _).
      * simpl. rewrite runs_snoc_other by done. rewrite Hr.
        rewrite (cons_middle cur), app_assoc in Hs.
        by apply StronglySorted_app_1_l in Hs.
      * by apply Hnext.
    + by apply Hnext.
Qed.
Lemma sorted_le_NoDup_lt (l : list nat) :
  StronglySorted le l → NoDup l → StronglySorted lt l.
Proof.
  induction 1 as [|a l Hs IH Ha]; intros Hnd; [constructor|].
  apply NoDup_cons in Hnd as [Hnin Hnd]. constructor; [by apply IH|].
  apply Forall_forall. intros x Hx.
  assert (a ≤ x) by by eapply Forall_forall in Ha.
  assert (a ≠ x) by (by intros ->). lia.
Qed.

Lemma ready_at_head st : ready st → at_head (before_flush st).
Proof.
  intros (Hnd & Hh & Hw & _ & _ & Hr).
  split; [done|]. split; [done|]. simpl. rewrite Hr. simpl. split.
  - apply sorted_le_NoDup_lt; [|by rewrite merge_sort_Permutation].
    apply StronglySorted_merge_sort; apply _.
  - by rewrite merge_sort_Permutation.
Qed.

Lemma runs_after_flush st : runs (log (after_flush cfg devtools st)) = runs (log st).
Proof.
  unfold after_flush. destruct devtools; simpl;
    rewrite ?runs_snoc_other by done; done.
Qed.

Lemma runs_flush fuel st :
  runs (log (state_of (flushSchedulerQueue cfg info fx devtools fuel st))) =
  runs (log (state_of (drain cfg info fx devtools fuel (before_flush st)))).
Proof.
  unfold flushSchedulerQueue, flush_with.
  destruct (drain _ _ _ _ _ _); simpl; [apply runs_after_flush|done..].
Qed.

(** *** The update budget *)






End Flush.

(** ** Claims about the scheduler *)

Lemma ready_queued_321 : ready (queued [3; 1; 2]).
Proof.
  repeat split; compute_done.
Qed.

Lemma ready_queued_54 : ready (queued [5; 4]).
Proof.
  repeat split; compute_done.
Qed.


(** C2 (amended).  While a flush is draining, [queueWatcher] puts a
    watcher that is not marked in [has] strictly behind the current
    index, in id order among the watchers not yet run: behind those
    with a smaller id and in front of those with a larger id, so that
    the part of the queue behind the index stays in strictly ascending
    id order.  A watcher whose id is below every id not yet run
    therefore stands right behind the current index, whatever the id
    of the watcher being run.  The watchers of one flush run in
    strictly ascending id order provided every watcher enqueued during
    the flush has a larger id than the watcher being processed at that
    moment. *)
Theorem C2_flush_order cfg info fx devtools :
  (∀ fuel id st,
     flushing st = true → waiting st = true →
     index st < length (queue st) → pending_ok st → id ∉ has st →
     ∃ st' j A B, queueWatcher cfg info fx devtools fuel id st = Done st' ∧
       index st < j ≤ length (queue st) ∧
       queue st' = take j (queue st) ++ id :: drop j (queue st) ∧
       index st' = index st ∧
       pending st = A ++ B ∧ pending st' = A ++ id :: B ∧
       Forall (λ x, x < id) A ∧ Forall (lt id) B ∧
       pending_ok st' ∧
       (Forall (lt id) (pending st) → queue st' !! S (index st) = Some id)) ∧
  (∀ fuel st0,
     ready st0 → enqueues_later fx →
     StronglySorted lt
       (runs (log (state_of (flushSchedulerQueue cfg info fx devtools fuel st0))))).
Proof.
  split.
  - intros fuel id st Hf Hw Hidx Hok Hid.
    destruct (enqueue_flushing id st Hf Hidx Hok Hid)
      as (j & A & B & Hj & Hq & HP & HP' & HA & HB & Hok').
    exists (enqueue id st), j, A, B.
    split.
    { unfold queueWatcher. rewrite qw_waiting by done.
      unfold qw_step. by rewrite decide_False. }
    split; [done|]. split; [done|]. split; [done|]. split; [done|].
    split; [done|]. split; [done|]. split; [done|]. split; [done|].
    intros Hall. rewrite HP in Hall. apply Forall_app in Hall as [HallA _].
    assert (A = []) as ->.
    { destruct A as [|x A]; [done|]. exfalso.
      apply Forall_cons in HA as [Hlt _]. apply Forall_cons in HallA as [Hgt _].
      lia. }
    unfold pending in HP'. change (index (enqueue id st)) with (index st) in HP'.
    assert (Hhd : drop (S (index st)) (queue (enqueue id st)) !! 0 = Some id)
      by by rewrite HP'.
    rewrite lookup_drop in Hhd. by rewrite Nat.add_0_r in Hhd.
  - intros fuel st0 Hr Hfx. rewrite runs_flush.
    apply runs_sorted_flush; [done|]. by apply ready_at_head.
Qed.

Lemma C2_flush_order_witness :
  (∃ st' j A B,
     queueWatcher devcfg no_info (λ _, []) false 5 4
       (mkState [1; 3; 5] [] {[3; 5]} ∅ true true 0 []) = Done st' ∧
     0 < j ≤ 3 ∧ queue st' = take j [1; 3; 5] ++ 4 :: drop j [1; 3; 5] ∧
     index st' = 0 ∧
     pending (mkState [1; 3; 5] [] {[3; 5]} ∅ true true 0 []) = A ++ B ∧
     pending st' = A ++ 4 :: B ∧
     Forall (λ x, x < 4) A ∧ Forall (lt 4) B ∧
     pending_ok st' ∧
     (Forall (lt 4) (pending (mkState [1; 3; 5] [] {[3; 5]} ∅ true true 0 [])) →
      queue st' !! 1 = Some 4)) ∧
  (∃ st', queueWatcher devcfg no_info (λ _, []) false 5 2
            (mkState [4; 3; 5] [] {[3; 5]} ∅ true true 0 []) = Done st' ∧
          queue st' !! 1 = Some 2) ∧
  StronglySorted lt
    (runs (log (state_of
       (flushSchedulerQueue devcfg no_info (λ _, []) false 20 (queued [3; 1; 2]))))).
Proof.
  destruct (C2_flush_order devcfg no_info (λ _, []) false) as [H1 H2].
  split; [|split].
  - apply (H1 5 4 (mkState [1; 3; 5] [] {[3; 5]} ∅ true true 0 []));
      [done|done|simpl; lia| |set_solver].
    split; compute_done.
  - destruct (H1 5 2 (mkState [4; 3; 5] [] {[3; 5]} ∅ true true 0 []))
      as (st' & j & A & B & Hq & _ & _ & _ & _ & _ & _ & _ & _ & Hnext);
      [done|done|simpl; lia| |set_solver|].
    { split; compute_done. }
    exists st'. split; [done|]. apply Hnext. compute_done.
  - apply H2; [apply ready_queued_321|].
    intros l id x _ Hx. by apply elem_of_nil in Hx.
Defined.

(** C2 as stated fails when a watcher enqueues one with a smaller id:
    from the queue [5; 4], with watcher 5 enqueuing watcher 4 in its
    run, the flush runs 4, 5, 4. *)
Lemma C2_runs_not_ascending :
  ready (queued [5; 4]) ∧
  runs (log (state_of
    (flushSchedulerQueue devcfg no_info fx_back false 20 (queued [5; 4]))))
  = [4; 5; 4] ∧
  ¬ StronglySorted lt [4; 5; 4].
Proof.
  split; [apply ready_queued_54|]. split; [vm_compute; reflexivity|].
  intros H. apply StronglySorted_inv in H as [H _].
  apply StronglySorted_inv in H as [_ H].
  apply Forall_cons in H as [H _]. lia.
Qed.




End SchedulerFacts.

(** * Properties of the Observer module *)

Module ObserverFacts.
Import Observer.

(** ** Property lists *)

Lemma lookup_store_prop_eq k p ps : lookup_prop k (store_prop k p ps) = Some p.
Proof.
  induction ps as [|[k' p'] ps IH]; simpl.
  - by rewrite decide_True.
  - destruct (decide (k' = k)) as [->|Hne]; simpl.
    + by rewrite decide_True.
    + by rewrite decide_False.
Qed.

Lemma lookup_store_prop_ne k k' p ps :
  k ≠ k' → lookup_prop k' (store_prop k p ps) = lookup_prop k' ps.
Proof.
  intros Hne. induction ps as [|[k0 p0] ps IH]; simpl.
  - by rewrite decide_False.
  - destruct (decide (k0 = k)) as [->|Hne0]; simpl.
    + by rewrite !decide_False.
    + by rewrite IH.
Qed.

Lemma store_prop_keys_present k p ps :
  is_Some (lookup_prop k ps) → (store_prop k p ps).*1 = ps.*1.
Proof.
  induction ps as [|[k' p'] ps IH]; simpl.
  - by intros [? ?].
  - destruct (decide (k' = k)) as [->|Hne]; simpl; [done|].
    intros H. f_equal. by apply IH.
Qed.

Lemma lookup_prop_None k ps : lookup_prop k ps = None ↔ k ∉ ps.*1.
Proof.
  induction ps as [|[k' p'] ps IH]; simpl.
  - split; [intros _; apply not_elem_of_nil|done].
  - rewrite not_elem_of_cons. destruct (decide (k' = k)) as [->|Hne].
    + split; [done|]. by intros [? _].
    + rewrite IH. naive_solver.
Qed.

(** ** The frame of [observe] *)

Lemma obj_extends_refl o : obj_extends o o.
Proof. by repeat split. Qed.

Lemma obj_extends_trans o1 o2 o3 :
  obj_extends o1 o2 → obj_extends o2 o3 → obj_extends o1 o3.
Proof.
  intros (?&?&?&?&?&Hb1&?&Hv1) (?&?&?&?&?&Hb2&?&Hv2).
  repeat split; try congruence.
  intros b Hb. by apply Hb2, Hb1.
Qed.

Lemma extends_refl h : extends h h.
Proof.
  split; [|done]. intros l. destruct (objs h !! l); constructor.
  apply obj_extends_refl.
Qed.

Lemma extends_trans h1 h2 h3 : extends h1 h2 → extends h2 h3 → extends h1 h3.
Proof.
  intros (Ho1 & ? & ? & ?) (Ho2 & ? & ? & ?).
  split; [|split; [congruence|split; [congruence|lia]]].
  intros l. specialize (Ho1 l). specialize (Ho2 l).
  destruct Ho1 as [o1 o2 H12|]; inversion Ho2; subst; constructor.
  by eapply obj_extends_trans.
Qed.

Lemma extends_lookup h h' l o :
  extends h h' → objs h !! l = Some o →
  ∃ o', objs h' !! l = Some o' ∧ obj_extends o o'.
Proof.
  intros [Ho _] Hl. specialize (Ho l). rewrite Hl in Ho.
  inversion Ho; subst. eauto.
Qed.

Lemma lookup_upd_obj l f h l' :
  objs (upd_obj l f h) !! l' =
  if decide (l = l') then f <$> objs h !! l' else objs h !! l'.
Proof.
  unfold upd_obj; simpl. destruct (decide (l = l')) as [->|Hne].
  - by rewrite lookup_alter_eq.
  - by rewrite lookup_alter_ne.
Qed.

Lemma extends_upd_obj l f h o :
  objs h !! l = Some o → obj_extends o (f o) → extends h (upd_obj l f h).
Proof.
  intros Hl Hf. split; [|done]. intros l'. rewrite lookup_upd_obj.
  destruct (decide (l = l')) as [<-|Hne].
  - rewrite Hl. by constructor.
  - destruct (objs h !! l'); constructor. apply obj_extends_refl.
Qed.

Lemma extends_newDep h : extends h (newDep h).2.
Proof.
  split; [|simpl; repeat split; lia]. intros l. simpl.
  destruct (objs h !! l); constructor. apply obj_extends_refl.
Qed.

Lemma for_each_frame {A} (f : A → Heap → result Heap) (R : Heap → Prop) l h h' :
  (∀ x h1 h2, x ∈ l → R h1 → f x h1 = Ok h2 → R h2) →
  R h → for_each f l h = Ok h' → R h'.
Proof.
  revert h. induction l as [|x l IH]; simpl; intros h Hf HR Hr.
  - by injection Hr as <-.
  - destruct (f x h) as [h1| |] eqn:Hx; simpl in Hr; try done.
    apply (IH h1); [|by eapply Hf; [left|..]|done].
    intros y h2 h3 Hy. apply Hf. by right.
Qed.

Lemma reactive_reads_same dep sh cs p :
  acc_value
    (Reactive dep
       (if negb (has_get (match p with PAccessor a _ _ => a | _ => no_accessor end))
           || has_set (match p with PAccessor a _ _ => a | _ => no_accessor end)
        then prop_value p else VUndef)
       sh cs (match p with PAccessor a _ _ => a | _ => no_accessor end))
  = prop_value p.
Proof.
  destruct p as [v e c w|a e c]; simpl; [done|].
  destruct (has_get a) eqn:Hg; simpl; [done|done].
Qed.

(** Making an own property reactive changes neither the keys of the
    object nor what any of them reads. *)
Lemma defineReactive_frame child l key cs sh h h' o :
  (∀ v h1 h2, child v h1 = Ok h2 → extends h1 h2) →
  objs h !! l = Some o → is_Some (lookup_prop key (props o)) →
  defineReactive_with child l key None cs sh h = Ok h' → extends h h'.
Proof.
  intros Hchild Hl [p Hp]. unfold defineReactive_with. simpl.
  rewrite Hl, Hp. simpl.
  destruct (bool_decide (Some (is_configurable p) = Some false)).
  { intros [= <-]. apply (extends_newDep h). }
  set (h0 := mkHeap _ _ _ _).
  assert (H0 : extends h h0) by apply (extends_newDep h).
  set (orig := match p with PAccessor a _ _ => a | _ => no_accessor end).
  set (val := if negb (has_get orig) || has_set orig then prop_value p else VUndef).
  intros Hr.
  assert (∃ h2, extends h0 h2 ∧
            defineAccessor l key (Reactive (dep_uid h) val sh cs orig) h2 = Ok h')
    as (h2 & H2 & Hdef).
  { destruct sh; simpl in Hr.
    - exists h0. split; [apply extends_refl|done].
    - destruct (child val h0) as [h2| |] eqn:Hc; simpl in Hr; try done.
      exists h2. split; [by eapply Hchild|done]. }
  eapply extends_trans; [apply H0|]. eapply extends_trans; [apply H2|].
  destruct (extends_lookup h0 h2 l o H2 Hl) as (o2 & Hl2 & Ho2).
  unfold defineAccessor in Hdef. rewrite Hl2 in Hdef.
  destruct Ho2 as (Hk & He & Hv & Hpk & Hel & Hob & Hkeys & Hvals).
  assert (Hsome : is_Some (lookup_prop key (props o2))).
  { destruct (lookup_prop key (props o2)) eqn:E; [eauto|].
    apply lookup_prop_None in E. rewrite Hkeys in E.
    apply lookup_prop_None in E. congruence. }
  rewrite bool_decide_eq_true_2 in Hdef by done. simpl in Hdef.
  injection Hdef as <-. eapply extends_upd_obj; [done|].
  repeat split; simpl; try done.
  - by apply store_prop_keys_present.
  - intros k. destruct (decide (key = k)) as [<-|Hne].
    + rewrite lookup_store_prop_eq. simpl.
      specialize (Hvals key). rewrite Hp in Hvals. simpl in Hvals.
      destruct Hsome as [p2 Hp2]. rewrite Hp2 in *. simpl in *.
      injection Hvals as Hvals. f_equal. rewrite Hvals.
      apply (reactive_reads_same (dep_uid h) sh cs p).
    + by rewrite lookup_store_prop_ne.
Qed.

(** ** [observe] returns *)






Section WithEnv.
Variable env : Env.

(** As root data: the same call, and the counter of the Observer one
    higher. *)
Lemma observe_root fuel v h :
  observe env fuel v true h =
  match observe env fuel v false h with
  | Ok (Some l, h1) => Ok (Some l, bump l h1)
  | r => r
  end.
Proof.
  destruct fuel as [|fuel]; [done|]. simpl.
  destruct v as [| | | | |l]; try done.
  destruct (objs h !! l) as [o|]; [|done].
  destruct (_ || _); [done|].
  match goal with |- context [match ?X with Ok _ => _ | Throw => _ | OutOfFuel => _ end] =>
    destruct X as [[[] h1]| |] end; done.
Qed.

Lemma observe_frame fuel v h r h' :
  observe env fuel v false h = Ok (r, h') → extends h h'.
Proof.
  revert v h r h'. induction fuel as [|fuel IH]; [done|].
  intros v h r h'. simpl.
  destruct v as [| | | | |l]; try (intros [= <- <-]; apply extends_refl).
  destruct (objs h !! l) as [o|] eqn:Hl; [|intros [= <- <-]; apply extends_refl].
  destruct (_ || _); [intros [= <- <-]; apply extends_refl|].
  destruct (ob o) as [b|] eqn:Hob; [intros [= <- <-]; apply extends_refl|].
  destruct (_ && _); [|intros [= <- <-]; apply extends_refl].
  set (h1 := upd_obj l (set_ob _) _).
  assert (H1 : extends h h1).
  { eapply extends_trans; [apply (extends_newDep h)|].
    eapply extends_upd_obj; [done|]. repeat split; simpl; congruence. }
  assert (Hl1 : objs h1 !! l =
                Some (set_ob (Some (mkObserver (dep_uid h) 0)) o)).
  { unfold h1. rewrite lookup_upd_obj, decide_True by done. simpl.
    by rewrite Hl. }
  assert (Hchild : ∀ v h2 h3,
            (r ← observe env fuel v false h2; Ok r.2) = Ok h3 → extends h2 h3).
  { intros v h2 h3 Hc.
    destruct (observe env fuel v false h2) as [[r2 h4]| |] eqn:E; try done.
    simpl in Hc. injection Hc as <-. by eapply IH. }
  destruct (bool_decide (kind o = KArray)).
  - match goal with |- context [for_each ?f ?l ?h] =>
      destruct (for_each f l h) as [hk| |] eqn:Hfe end; simpl; try done.
    intros [= <- <-]. eapply extends_trans; [apply H1|].
    eapply (for_each_frame _ (extends h1)); [| |apply Hfe].
    + intros x h2 h3 _ H2 Hc. eapply extends_trans; [apply H2|].
      exact (Hchild x h2 h3 Hc).
    + eapply extends_upd_obj; [done|]. by repeat split.
  - match goal with |- context [for_each ?f ?l ?h] =>
      destruct (for_each f l h) as [hk| |] eqn:Hfe end; simpl; try done.
    intros [= <- <-].
    eapply (for_each_frame _ (extends h)); [|apply H1|apply Hfe].
    intros key h2 h3 Hkey H2 Hd. eapply extends_trans; [apply H2|].
    destruct (extends_lookup h h2 l o H2 Hl) as (o2 & Hl2 & Ho2).
    eapply defineReactive_frame; [apply Hchild|apply Hl2| |apply Hd].
    destruct Ho2 as (_ & _ & _ & _ & _ & _ & Hkeys & _).
    destruct (lookup_prop key (props o2)) eqn:E; [eauto|].
    apply lookup_prop_None in E. rewrite Hkeys in E. exfalso. apply E.
    unfold keys in Hkey. apply list_elem_of_fmap in Hkey as ([k p] & -> & Hin).
    apply list_elem_of_filter in Hin as [_ Hin].
    apply list_elem_of_fmap. by exists (k, p).
Qed.


(** Inside the constructor of [Observer], after the value was marked:
    the walk keeps every object, its keys and what they read. *)
Lemma new_observer_frame fuel l o h hk :
  let h1 := upd_obj l (set_ob (Some (mkObserver (dep_uid h) 0))) (newDep h).2 in
  let child := λ v h, r ← observe env fuel v false h; Ok r.2 in
  objs h !! l = Some o →
  (if bool_decide (kind o = KArray)
   then for_each child (elems o) (upd_obj l set_augmented h1)
   else for_each (λ key, defineReactive_with child l key None false false)
          (keys o) h1) = Ok hk →
  extends h1 hk.
Proof.
  intros h1 child Hl.
  assert (Hl1 : objs h1 !! l =
                Some (set_ob (Some (mkObserver (dep_uid h) 0)) o)).
  { unfold h1. rewrite lookup_upd_obj, decide_True by done. simpl.
    by rewrite Hl. }
  assert (Hchild : ∀ v h2 h3, child v h2 = Ok h3 → extends h2 h3).
  { intros v h2 h3 Hc. unfold child in Hc.
    destruct (observe env fuel v false h2) as [[r2 h4]| |] eqn:E; try done.
    simpl in Hc. injection Hc as <-. by eapply observe_frame. }
  destruct (bool_decide (kind o = KArray)); intros Hfe.
  - eapply (for_each_frame _ (extends h1)); [| |apply Hfe].
    + intros x h2 h3 _ H2 Hc. eapply extends_trans; [apply H2|].
      exact (Hchild x h2 h3 Hc).
    + eapply extends_upd_obj; [done|]. by repeat split.
  - eapply (for_each_frame _ (extends h1)); [|apply extends_refl|apply Hfe].
    intros key h2 h3 Hkey H2 Hd. eapply extends_trans; [apply H2|].
    destruct (extends_lookup h1 h2 l _ H2 Hl1) as (o2 & Hl2 & Ho2).
    eapply defineReactive_frame; [apply Hchild|apply Hl2| |apply Hd].
    destruct Ho2 as (_ & _ & _ & _ & _ & _ & Hkeys & _).
    destruct (lookup_prop key (props o2)) eqn:E; [eauto|].
    apply lookup_prop_None in E. rewrite Hkeys in E. exfalso. apply E.
    unfold keys in Hkey. apply list_elem_of_fmap in Hkey as ([k p] & -> & Hin).
    apply list_elem_of_filter in Hin as [_ Hin].
    apply list_elem_of_fmap. by exists (k, p).
Qed.

(** The Observer that [observe] returns sits on the value. *)
Lemma observe_some fuel v h p h' :
  observe env fuel v false h = Ok (Some p, h') →
  v = VRef p ∧
  ∃ o', objs h' !! p = Some o' ∧ is_Some (ob o') ∧
        kind o' ≠ KFunction ∧ kind o' ≠ KVNode.
Proof.
  destruct fuel as [|fuel]; [done|]. simpl.
  destruct v as [| | | | |l]; try done.
  destruct (objs h !! l) as [o|] eqn:Hl; [|done].
  destruct (bool_decide (kind o = KFunction)) eqn:Hkf; [done|].
  destruct (bool_decide (kind o = KVNode)) eqn:Hkv; [done|]. simpl.
  apply bool_decide_eq_false in Hkf, Hkv.
  destruct (ob o) as [b|] eqn:Hob.
  { intros [= <- <-]. split; [done|]. exists o. eauto. }
  destruct (_ && _); [|done].
  match goal with |- context [if ?c then for_each ?f ?l1 ?h1 else for_each ?g ?l2 ?h2] =>
    destruct (if c then for_each f l1 h1 else for_each g l2 h2) as [hk| |] eqn:Hfe
  end; simpl; try done.
  intros [= <- <-]. split; [done|].
  pose proof (new_observer_frame fuel l o h hk Hl Hfe) as Hext.
  edestruct (extends_lookup _ _ l
               (set_ob (Some (mkObserver (dep_uid h) 0)) o) Hext)
    as (o' & Hl' & Ho').
  { rewrite lookup_upd_obj, decide_True by done. simpl. by rewrite Hl. }
  exists o'. split; [done|].
  destruct Ho' as (Hk & _ & _ & _ & _ & Hb & _). simpl in *.
  split; [rewrite (Hb _ eq_refl); eauto|]. by rewrite Hk.
Qed.
End WithEnv.

(** ** Claims about the Observer module *)

Lemma strict_eq_self v : strict_eq v v = negb (is_nan v).
Proof.
  destruct v as [| |b|n|s|l]; simpl; try by rewrite bool_decide_eq_true_2.
  - done.
  - done.
  - destruct n; simpl; try done. by rewrite bool_decide_eq_true_2.
Qed.

(** An accessor that has a setter can be written. *)
Lemma acc_write_total dev a v : has_set a = true → is_Some (acc_write dev a v).
Proof.
  induction a as [g s cell|dep val sh cs orig IH]; intros Hs.
  - simpl in *. destruct s; [eauto|done].
  - simpl. destruct (_ || _); [eauto|].
    destruct (has_get orig && negb (has_set orig)); [eauto|].
    destruct (has_set orig) eqn:Ho; [|eauto].
    destruct (IH eq_refl) as [[o' fxi] ->]. eauto.
Qed.

(** Writing leaves an accessor with or without getter as it was. *)
Lemma acc_write_has_get dev a v a' fx :
  acc_write dev a v = Some (a', fx) → has_get a' = has_get a.
Proof.
  destruct a as [g s cell|dep val sh cs orig]; simpl.
  - destruct s; [|done]. by intros [= <- <-].
  - destruct (_ || _); [by intros [= <- <-]|].
    destruct (has_get orig && negb (has_set orig)); [by intros [= <- <-]|].
    destruct (has_set orig); [|by intros [= <- <-]].
    destruct (acc_write dev orig v) as [[o' fxi]|]; [|done]. by intros [= <- <-].
Qed.

Lemma acc_write_reactive dev dep val shallow customSetter orig newVal :
  acc_write dev (Reactive dep val shallow customSetter orig) newVal =
  if strict_eq newVal (acc_value (Reactive dep val shallow customSetter orig)) ||
     (negb (strict_eq newVal newVal) &&
      negb (strict_eq (acc_value (Reactive dep val shallow customSetter orig))
                      (acc_value (Reactive dep val shallow customSetter orig))))
  then Some (Reactive dep val shallow customSetter orig, [])
  else
    if has_get orig && negb (has_set orig)
    then Some (Reactive dep val shallow customSetter orig,
               if dev && customSetter then [FxCustomSetter dep] else [])
    else if has_set orig then
      match acc_write dev orig newVal with
      | Some (o', fxi) =>
        Some (Reactive dep val shallow customSetter o',
              (if dev && customSetter then [FxCustomSetter dep] else [])
              ++ fxi ++ (if shallow then [] else [FxObserve newVal])
              ++ [FxNotify dep])
      | None => None
      end
    else Some (Reactive dep newVal shallow customSetter orig,
               (if dev && customSetter then [FxCustomSetter dep] else [])
               ++ (if shallow then [] else [FxObserve newVal])
               ++ [FxNotify dep]).
Proof. done. Qed.

(** C4 (amended).  The setter installed by [defineReactive], called
    with a value strictly equal to the current one, or with [NaN] when
    the current value is [NaN], leaves the closure as it is and has no
    effect, in particular no [dep.notify()].  Otherwise, when the
    property had a getter and no setter, nothing is stored and nobody
    is notified.  In every other case the new value is stored and the
    setter's own [dep.notify()] is the last thing it does and the only
    one besides what the original setter does: a property that had no
    setter of its own keeps the value in [val] and reads it from then
    on; a property that had one hands the value to that setter and
    leaves [val] as it is, so that it goes on reading [val] when it
    had no getter. *)
Theorem C4_reactiveSetter dev dep val shallow customSetter orig newVal :
  let a := Reactive dep val shallow customSetter orig in
  (strict_eq newVal (acc_value a) = true ∨
   (is_nan newVal = true ∧ is_nan (acc_value a) = true) →
   acc_write dev a newVal = Some (a, [])) ∧
  (strict_eq newVal (acc_value a) = false →
   ¬ (is_nan newVal = true ∧ is_nan (acc_value a) = true) →
   (has_get orig = true → has_set orig = false →
    acc_write dev a newVal =
      Some (a, if dev && customSetter then [FxCustomSetter dep] else [])) ∧
   (¬ (has_get orig = true ∧ has_set orig = false) →
    ∃ a' inner,
      acc_write dev a newVal =
        Some (a', (if dev && customSetter then [FxCustomSetter dep] else [])
                  ++ inner
                  ++ (if shallow then [] else [FxObserve newVal])
                  ++ [FxNotify dep]) ∧
      notify_count dep
        ((if dev && customSetter then [FxCustomSetter dep] else [])
         ++ inner ++ (if shallow then [] else [FxObserve newVal])
         ++ [FxNotify dep]) = notify_count dep inner + 1 ∧
      (has_set orig = false →
         a' = Reactive dep newVal shallow customSetter orig ∧ inner = [] ∧
         acc_value a' = newVal) ∧
      (has_set orig = true →
         ∃ o', acc_write dev orig newVal = Some (o', inner) ∧
               a' = Reactive dep val shallow customSetter o' ∧
               (∀ g s cell, orig = User g s cell → inner = []) ∧
               (has_get orig = false → acc_value a' = val)))).
Proof.
  intros a. pose proof (acc_write_reactive dev dep val shallow customSetter orig newVal)
    as Hunf. fold a in Hunf. rewrite Hunf. clear Hunf.
  rewrite !strict_eq_self. split.
  - intros [->|[-> ->]]; [done|]. simpl. by rewrite orb_true_r.
  - intros Hne Hnan. rewrite Hne, orb_false_l.
    assert (is_nan newVal && is_nan (acc_value a) = false) as Hnn.
    { destruct (is_nan newVal), (is_nan (acc_value a)); try done.
      by destruct Hnan. }
    rewrite !negb_involutive, Hnn. split.
    { intros -> ->. done. }
    intros Hw.
    assert (Hcount : ∀ inner, notify_count dep
       ((if dev && customSetter then [FxCustomSetter dep] else [])
        ++ inner ++ (if shallow then [] else [FxObserve newVal])
        ++ [FxNotify dep]) = notify_count dep inner + 1).
    { intros inner. unfold notify_count.
      rewrite !filter_app, !length_app.
      assert (length (filter (λ e, e = FxNotify dep)
                (if dev && customSetter then [FxCustomSetter dep] else [])) = 0) as ->
        by (destruct (dev && customSetter); done).
      assert (length (filter (λ e, e = FxNotify dep)
                (if shallow then [] else [FxObserve newVal])) = 0) as ->
        by (destruct shallow; done).
      rewrite filter_cons, decide_True by done. simpl. lia. }
    assert (Hinner : has_set orig = true →
              ∃ o' fxi, acc_write dev orig newVal = Some (o', fxi) ∧
                (∀ g s cell, orig = User g s cell → fxi = []) ∧
                has_get o' = has_get orig).
    { intros Hs. destruct (acc_write_total dev orig newVal Hs) as [[o' fxi] Hin].
      exists o', fxi. split; [done|]. split.
      - intros g s cell ->. simpl in Hin.
        destruct s; [|done]. by injection Hin as <- <-.
      - by apply (acc_write_has_get dev orig newVal o' fxi). }
    destruct (has_get orig) eqn:Hg, (has_set orig) eqn:Hs; simpl.
    + destruct (Hinner eq_refl) as (o' & fxi & -> & Huser & Hg').
      exists (Reactive dep val shallow customSetter o'), fxi.
      split; [done|]. split; [apply Hcount|]. split; [done|]. intros _.
      exists o'. split; [done|]. split; [done|]. split; [done|]. done.
    + destruct Hw. done.
    + destruct (Hinner eq_refl) as (o' & fxi & -> & Huser & Hg').
      exists (Reactive dep val shallow customSetter o'), fxi.
      split; [done|]. split; [apply Hcount|]. split; [done|]. intros _.
      exists o'. split; [done|]. split; [done|]. split; [done|].
      intros _. simpl. by rewrite Hg'.
    + exists (Reactive dep newVal shallow customSetter orig), [].
      split; [done|]. split; [apply Hcount|]. split; [|done]. intros _.
      split; [done|]. split; [done|]. simpl. by rewrite Hg.
Qed.

Lemma C4_reactiveSetter_witness :
  acc_write true (Reactive 1 (VNum NaN) false false no_accessor) (VNum NaN)
    = Some (Reactive 1 (VNum NaN) false false no_accessor, []) ∧
  (∃ a' inner,
    acc_write true (Reactive 1 (VNum (Fin 1)) false true no_accessor) (VNum (Fin 10))
      = Some (a', [FxCustomSetter 1] ++ inner ++ [FxObserve (VNum (Fin 10))]
                  ++ [FxNotify 1]) ∧
    notify_count 1 ([FxCustomSetter 1] ++ inner ++ [FxObserve (VNum (Fin 10))]
                    ++ [FxNotify 1]) = notify_count 1 inner + 1 ∧
    (has_set no_accessor = false →
       a' = Reactive 1 (VNum (Fin 10)) false true no_accessor ∧ inner = [] ∧
       acc_value a' = VNum (Fin 10)) ∧
    (has_set no_accessor = true →
       ∃ o', acc_write true no_accessor (VNum (Fin 10)) = Some (o', inner) ∧
             a' = Reactive 1 (VNum (Fin 1)) false true o' ∧
             (∀ g s cell, no_accessor = User g s cell → inner = []) ∧
             (has_get no_accessor = false → acc_value a' = VNum (Fin 1)))) ∧
  (∃ a', acc_write true setter_only (VNum (Fin 10))
           = Some (a', [FxObserve (VNum (Fin 10)); FxNotify 1]) ∧
         acc_value a' = VUndef).
Proof.
  split; [|split].
  - destruct (C4_reactiveSetter true 1 (VNum NaN) false false no_accessor
                (VNum NaN)) as [H _].
    apply H. right. split; reflexivity.
  - destruct (C4_reactiveSetter true 1 (VNum (Fin 1)) false true no_accessor
                (VNum (Fin 10))) as [_ H].
    destruct H as [_ H].
    + reflexivity.
    + intros [H _]. discriminate H.
    + apply H. intros [H' _]. discriminate H'.
  - destruct (C4_reactiveSetter true 1 VUndef false false
                (User None (Some (λ v _, v)) VUndef) (VNum (Fin 10))) as [_ H].
    destruct H as [_ H].
    + reflexivity.
    + intros [H _]. discriminate H.
    + destruct H as (a' & inner & Hw & _ & _ & Hset).
      { intros [H' _]. discriminate H'. }
      destruct (Hset eq_refl) as (o' & Hin & _ & Huser & Hval).
      exists a'. split; [|by apply Hval].
      change setter_only with
        (Reactive 1 VUndef false false (User None (Some (λ v _, v)) VUndef)).
      rewrite Hw. by rewrite (Huser None (Some (λ v _, v)) VUndef eq_refl).
Defined.

(** C4 as stated fails for a property that had a setter and no getter
    when it was made reactive: it is writable, the assignment of a new
    value calls its setter and [dep.notify()], yet the value the
    property reads is the old one; the same assignment made again
    notifies again. *)
Lemma C4_setter_only_keeps_value :
  acc_value setter_only = VUndef ∧
  strict_eq (VNum (Fin 10)) (acc_value setter_only) = false ∧
  ∃ a', acc_write true setter_only (VNum (Fin 10))
          = Some (a', [FxObserve (VNum (Fin 10)); FxNotify 1]) ∧
        acc_value a' = VUndef ∧ acc_value a' ≠ VNum (Fin 10) ∧
        ∃ a'', acc_write true a' (VNum (Fin 10))
                 = Some (a'', [FxObserve (VNum (Fin 10)); FxNotify 1]).
Proof.
  split; [reflexivity|]. split; [reflexivity|].
  eexists. split; [reflexivity|]. split; [reflexivity|]. split; [done|].
  eexists. reflexivity.
Qed.

(** C6.  [observe] on a value that carries an Observer (an object that
    is neither a function nor a VNode) returns that Observer and leaves
    the heap as it is: no Dep or Observer is created, no property is
    redefined; only [vmCount] goes up when the call is for root data.
    In particular a second [observe] of a value returns the Observer
    the first one returned. *)
Theorem C6_observe_idempotent env :
  (∀ fuel l o b asRootData h,
     objs h !! l = Some o → ob o = Some b →
     kind o ≠ KFunction → kind o ≠ KVNode →
     observe env (S fuel) (VRef l) asRootData h
       = Ok (Some l, if asRootData then bump l h else h)) ∧
  (∀ fuel fuel' v p h h1,
     observe env fuel v false h = Ok (Some p, h1) →
     observe env (S fuel') v false h1 = Ok (Some p, h1)).
Proof.
  assert (H1 : ∀ fuel l o b asRootData h,
     objs h !! l = Some o → ob o = Some b →
     kind o ≠ KFunction → kind o ≠ KVNode →
     observe env (S fuel) (VRef l) asRootData h
       = Ok (Some l, if asRootData then bump l h else h)).
  { intros fuel l o b root h Hl Hob Hkf Hkv. simpl. rewrite Hl.
    rewrite !bool_decide_eq_false_2 by done. simpl. by rewrite Hob. }
  split; [exact H1|].
  intros fuel fuel' v p h h1 Hobs.
  destruct (observe_some env fuel v h p h1 Hobs) as (-> & o' & Hl' & [b Hb] & Hkf & Hkv).
  by rewrite (H1 fuel' p o' b false h1).
Qed.

Lemma C6_observe_idempotent_witness :
  observe plain_env 1 (VRef 0) false heap1 = Ok (Some 0, heap1) ∧
  observe plain_env 5 (VRef 0) false heap1 = Ok (Some 0, heap1).
Proof.
  destruct (C6_observe_idempotent plain_env) as [H1 H2]. split.
  - eapply (H1 0 0 _ (mkObserver 0 0) false heap1); [reflexivity|reflexivity|done..].
  - apply (H2 2 4 (VRef 0) 0 heap0 heap1). reflexivity.
Defined.

(** C10.  [del(target, key)] on a target that is not an array, for a
    key that is not an own property of the target, changes no object
    and calls no [notify]: when it returns, the heap is the one it was
    given, but for the warnings of a development build. *)
Theorem C10_del_absent_key env cfg fuel target key h :
  (∀ l o, target = VRef l → objs h !! l = Some o →
          kind o ≠ KArray ∧ hasOwn o key = false) →
  (∀ s, target = VStr s →
        key ≠ "length"%string ∧
        ∀ n, isValidArrayIndex env key = Some n → String.length s ≤ n) →
  match del env cfg fuel target key h with
  | Ok h' =>
    objs h' = objs h ∧ dep_uid h' = dep_uid h ∧
    shouldObserve h' = shouldObserve h ∧
    ∃ ws, events h' = events h ++ (EvWarn <$> ws)
  | Throw =>
    (* reading [target.__ob__] failed: there is no object *)
    target = VUndef ∨ target = VNull ∨ ∃ l, target = VRef l ∧ objs h !! l = None
  | OutOfFuel => False
  end.
Proof.
  intros Href Hstr. unfold del.
  assert (Hwarn : ∀ c w h0, objs (warn_if c w h0) = objs h0 ∧
            dep_uid (warn_if c w h0) = dep_uid h0 ∧
            shouldObserve (warn_if c w h0) = shouldObserve h0 ∧
            ∃ ws, events (warn_if c w h0) = events h0 ++ (EvWarn <$> ws)).
  { intros c w h0. destruct c; simpl.
    - repeat split. by exists [w].
    - repeat split. exists []. by rewrite app_nil_r. }
  set (h0 := warn_if _ WDelPrimitive h).
  destruct (Hwarn (dev cfg && isUndefOrPrimitive h target) WDelPrimitive h)
    as (Ho0 & Hd0 & Hs0 & ws0 & He0). fold h0 in Ho0, Hd0, Hs0, He0.
  assert (Hok : objs h0 = objs h ∧ dep_uid h0 = dep_uid h ∧
            shouldObserve h0 = shouldObserve h ∧
            ∃ ws, events h0 = events h ++ (EvWarn <$> ws)) by eauto.
  destruct target as [| |b|n|s|l]; try done; [by left|by right; left| |].
  - destruct (Hstr s eq_refl) as [Hlen Hidx].
    rewrite bool_decide_eq_false_2 by done. simpl.
    destruct (isValidArrayIndex env key) as [n|]; [|done].
    rewrite bool_decide_eq_false_2; [done|]. specialize (Hidx n eq_refl). lia.
  - rewrite Ho0. destruct (objs h !! l) as [o|] eqn:Hl; [|right; right; eauto].
    destruct (Href l o eq_refl Hl) as [Hk Hown].
    rewrite bool_decide_eq_false_2 by done.
    destruct (is_root o).
    + destruct (Hwarn (dev cfg) WDelRoot h0) as (Ho1 & Hd1 & Hs1 & ws1 & He1).
      rewrite Ho1, Hd1, Hs1, He1, He0. repeat split; try done.
      exists (ws0 ++ ws1). by rewrite fmap_app, app_assoc.
    + rewrite Hown. simpl. done.
Qed.

Lemma C10_del_absent_key_witness :
  match del plain_env devcfg 3 (VRef 0) "zz" heap1 with
  | Ok h' =>
    objs h' = objs heap1 ∧ dep_uid h' = dep_uid heap1 ∧
    shouldObserve h' = shouldObserve heap1 ∧
    ∃ ws, events h' = events heap1 ++ (EvWarn <$> ws)
  | Throw =>
    VRef 0 = VUndef ∨ VRef 0 = VNull ∨ ∃ l, VRef 0 = VRef l ∧ objs heap1 !! l = None
  | OutOfFuel => False
  end.
Proof.
  apply (C10_del_absent_key plain_env devcfg 3 (VRef 0) "zz" heap1).
  - intros l o [= <-] Hl. vm_compute in Hl. injection Hl as <-.
    split; [done|reflexivity].
  - intros s Hs. discriminate Hs.
Defined.









End ObserverFacts.

(** * The target stack, computed properties and [$watch] *)

Module WatcherFacts.
Import Reactive ReactiveFacts.

(** ** Dep.target and its stack *)

Lemma addDep_stack x d st : targetStack (addDep x d st) = targetStack st.
Proof.
  unfold addDep. destruct (watchers st !! x) as [W|]; [|done].
  destruct (decide (d ∈ newDepIds W)); [done|].
  by destruct (decide (d ∈ depIds W)).
Qed.

Lemma depend_frame d st :
  target (depend d st) = target st ∧ targetStack (depend d st) = targetStack st.
Proof.
  unfold depend. destruct (target st) as [t|] eqn:Ht; [|done].
  by rewrite addDep_target, addDep_stack.
Qed.

Lemma depend_all_frame ds st :
  target (foldl (λ s d, depend d s) st ds) = target st ∧
  targetStack (foldl (λ s d, depend d s) st ds) = targetStack st.
Proof.
  revert st. induction ds as [|d ds IH]; intros st; simpl; [done|].
  destruct (IH (depend d st)) as [-> ->]. apply depend_frame.
Qed.

Lemma cleanupDeps_frame w st :
  target (cleanupDeps w st) = target st ∧
  targetStack (cleanupDeps w st) = targetStack st.
Proof.
  unfold cleanupDeps. destruct (watchers st !! w) as [W|]; [|done].
  rewrite cleanup_loop_filter. simpl.
  by destruct (removeSubs_frame w (filter (λ d, d ∉ newDepIds W) (deps W)) st)
    as (_ & _ & _ & -> & -> & _).
Qed.

Lemma popTarget_pushed st st2 t :
  targetStack st2 = targetStack st ++ [t] → target_ok st →
  target (popTarget st2) = target st ∧
  targetStack (popTarget st2) = targetStack st.
Proof.
  intros Hs Hok. unfold popTarget. simpl. rewrite Hs, removelast_last. done.
Qed.

Lemma traversal_ends_flag w ev st :
  ev_traverse_throws ev = false → traversal_ends w ev st.
Proof. intros H W v _ _. rewrite H. apply andb_false_r. Qed.

Lemma traversal_ends_returned w ev st v st' :
  get w ev st = (Returned v, st') → traversal_ends w ev st.
Proof. intros Hget W x HW Hx. by apply (get_returned w ev st W v st' HW Hget x). Qed.

Lemma get_balanced w ev st :
  target_ok st → traversal_ends w ev st →
  target (get w ev st).2 = target st ∧
  targetStack (get w ev st).2 = targetStack st.
Proof.
  intros Hok Hend. unfold get. destruct (watchers st !! w) as [W|] eqn:HW; [|done].
  set (st1 := pushTarget (Some w) st).
  assert (H1 : targetStack (foldl (λ s d, depend d s) st1 (ev_reads ev))
               = targetStack st ++ [Some w])
    by by destruct (depend_all_frame (ev_reads ev) st1) as [_ ->].
  destruct (ev_value ev) as [v|] eqn:Hv; [|destruct (user W)]; simpl.
  - rewrite (Hend W v HW Hv). simpl.
    destruct (cleanupDeps_frame w
      (popTarget (if deep W
                  then foldl (λ s d, depend d s)
                         (foldl (λ s d, depend d s) st1 (ev_reads ev)) (ev_traverse ev)
                  else foldl (λ s d, depend d s) st1 (ev_reads ev)))) as [-> ->].
    apply (popTarget_pushed _ _ (Some w)); [|done].
    destruct (deep W); [|done].
    by destruct (depend_all_frame (ev_traverse ev)
                   (foldl (λ s d, depend d s) st1 (ev_reads ev))) as [_ ->].
  - destruct (cleanupDeps_frame w
      (popTarget (emit (EvHandleError w)
         (foldl (λ s d, depend d s) st1 (ev_reads ev))))) as [-> ->].
    by apply (popTarget_pushed _ _ (Some w)).
  - destruct (cleanupDeps_frame w
      (popTarget (foldl (λ s d, depend d s) st1 (ev_reads ev)))) as [-> ->].
    by apply (popTarget_pushed _ _ (Some w)).
Qed.

Lemma run_balanced w ev st :
  target_ok st → traversal_ends w ev st →
  target (run w ev st).2 = target st ∧
  targetStack (run w ev st).2 = targetStack st.
Proof.
  intros Hok Hend. unfold run. destruct (watchers st !! w) as [W|]; [|done].
  destruct (active W); [|done].
  pose proof (get_balanced w ev st Hok Hend) as Hg.
  destruct (get w ev st) as [[v|] st1]; [|done]. simpl in Hg.
  destruct (watchers st1 !! w) as [W1|]; [|done].
  by destruct (negb (strict_eq v (value W1)) || isObject v (ev_function ev)
               || deep W1).
Qed.

Lemma evaluate_balanced w ev st :
  target_ok st → traversal_ends w ev st →
  target (evaluate w ev st).2 = target st ∧
  targetStack (evaluate w ev st).2 = targetStack st.
Proof.
  intros Hok Hend. unfold evaluate.
  pose proof (get_balanced w ev st Hok Hend) as Hg.
  destruct (get w ev st) as [[v|] st1]; [|done]. simpl in Hg.
  by destruct (watchers st1 !! w) as [W1|].
Qed.

Lemma update_balanced w ev st :
  target_ok st → ev_traverse_throws ev = false →
  target (update w ev st).2 = target st ∧
  targetStack (update w ev st).2 = targetStack st.
Proof.
  intros Hok Hend. unfold update.
  destruct (watchers (emit (EvUpdate w) st) !! w) as [W|]; [|done].
  destruct (lazy W); [done|]. destruct (sync W); [|done].
  apply (run_balanced w ev (emit (EvUpdate w) st)); [done|].
  by apply traversal_ends_flag.
Qed.

Lemma notify_loop_balanced l evs st :
  target_ok st → (∀ w, ev_traverse_throws (evs w) = false) →
  target (notify_loop l evs st).2 = target st ∧
  targetStack (notify_loop l evs st).2 = targetStack st.
Proof.
  intros Hok Hend. revert st Hok.
  induction l as [|w l IH]; intros st Hok; simpl; [done|].
  pose proof (update_balanced w (evs w) st Hok (Hend w)) as [Ht Hs].
  destruct (update w (evs w) st) as [[[]|] st1]; [|done]. simpl in *.
  destruct (IH st1) as [-> ->]; [|done]. unfold target_ok. by rewrite Ht, Hs.
Qed.

Lemma teardown_frame w st :
  target (teardown w st) = target st ∧
  targetStack (teardown w st) = targetStack st.
Proof.
  unfold teardown. destruct (watchers st !! w) as [W|]; [|done].
  destruct (active W); [|done]. simpl.
  match goal with |- context [foldr _ ?s (deps W)] =>
    destruct (removeSubs_frame w (deps W) s) as (_ & _ & _ & Ht & Hs & _) end.
  unfold removeSubs in Ht, Hs. rewrite Ht, Hs.
  destruct (vms st !! vm W) as [V|]; [|done]. by destruct (_isBeingDestroyed V).
Qed.

Lemma newWatcher_balanced v o ev st :
  target_ok st → ev_traverse_throws ev = false →
  target (newWatcher v o ev st).2 = target st ∧
  targetStack (newWatcher v o ev st).2 = targetStack st.
Proof.
  intros Hok Hend. unfold newWatcher.
  set (st1 := match vms st !! v with
              | Some V => set_vm v (mkVm (_watchers V ++ [S (uid st)]) (_isBeingDestroyed V)) st
              | None => set_vm v (mkVm [S (uid st)] false) st
              end).
  assert (H1 : target st1 = target st ∧ targetStack st1 = targetStack st)
    by (unfold st1; by destruct (vms st !! v)).
  destruct H1 as [Ht1 Hs1].
  match goal with |- context [mkState ?a ?b ?c ?d ?e ?f ?g] =>
    set (st2 := mkState a b c d e f g) end.
  assert (Hok2 : target_ok st2) by (unfold target_ok; simpl; by rewrite Ht1, Hs1).
  destruct (o_lazy o); [simpl; by rewrite Ht1, Hs1|].
  pose proof (get_balanced (S (uid st)) ev st2 Hok2
                (traversal_ends_flag _ ev st2 Hend)) as Hg.
  destruct (get (S (uid st)) ev st2) as [[val|] st3]; simpl in Hg.
  - destruct (watchers st3 !! S (uid st)); simpl;
      destruct Hg as [-> ->]; simpl; by rewrite Ht1, Hs1.
  - simpl. destruct Hg as [-> ->]; simpl; by rewrite Ht1, Hs1.
Qed.

Lemma evaluate_returned_ends w ev st u st' :
  evaluate w ev st = (Returned u, st') → traversal_ends w ev st.
Proof.
  unfold evaluate. destruct (get w ev st) as [[v|] s] eqn:Hg; [|done].
  intros _. by eapply traversal_ends_returned.
Qed.

Lemma run_returned_balanced w ev st :
  target_ok st → (run w ev st).1 = Returned () →
  target (run w ev st).2 = target st ∧
  targetStack (run w ev st).2 = targetStack st.
Proof.
  intros Hok Hr.
  destruct (watchers st !! w) as [W|] eqn:HW; [|unfold run; by rewrite HW].
  destruct (active W) eqn:Ha; [|unfold run; by rewrite HW, Ha].
  apply run_balanced; [done|].
  unfold run in Hr. rewrite HW, Ha in Hr.
  destruct (get w ev st) as [[v|] s] eqn:Hg; [|done].
  by eapply traversal_ends_returned.
Qed.

Lemma update_returned_balanced w ev st :
  target_ok st → (update w ev st).1 = Returned () →
  target (update w ev st).2 = target st ∧
  targetStack (update w ev st).2 = targetStack st.
Proof.
  intros Hok. unfold update.
  destruct (watchers (emit (EvUpdate w) st) !! w) as [W|]; [|done].
  destruct (lazy W); [done|]. destruct (sync W); [|done].
  by apply (run_returned_balanced w ev (emit (EvUpdate w) st)).
Qed.

Lemma notify_loop_returned_balanced l evs st st' :
  target_ok st → notify_loop l evs st = (Returned (), st') →
  target st' = target st ∧ targetStack st' = targetStack st.
Proof.
  revert st. induction l as [|w l IH]; intros st Hok; simpl.
  { by intros [= <-]. }
  pose proof (update_returned_balanced w (evs w) st Hok) as Hu.
  destruct (update w (evs w) st) as [[[]|] st1]; [|done]. simpl in *.
  destruct Hu as [Ht Hs]; [done|]. intros Hl.
  destruct (IH st1) as [-> ->]; [|done|done]. unfold target_ok. by rewrite Ht, Hs.
Qed.

(** X1.  An operation on watchers and deps is balanced on the target
    stack: it leaves [Dep.target] and [targetStack] as it found them,
    also when a getter throws on the way (the [finally] block of
    [Watcher.get] pops what was pushed), provided no traversal throws
    ([traverse(value)], which [get] calls for a deep watcher).  An
    exception of the traversal leaves the [finally] block before
    [popTarget()]: [get] of a deep watcher then throws with the
    watcher still on the stack and still [Dep.target]. *)
Theorem X1_target_restored cfg st :
  target_ok st →
  (∀ op, traversals_end op →
     target (step cfg op st) = target st ∧
     targetStack (step cfg op st) = targetStack st ∧
     target_ok (step cfg op st)) ∧
  (∀ w W ev v,
     watchers st !! w = Some W → deep W = true →
     ev_value ev = Some v → ev_traverse_throws ev = true →
     (get w ev st).1 = Thrown ∧
     target (get w ev st).2 = Some w ∧
     targetStack (get w ev st).2 = targetStack st ++ [Some w]).
Proof.
  intros Hok. split.
  - intros op Hend.
    assert (H : target (step cfg op st) = target st ∧
                targetStack (step cfg op st) = targetStack st).
    { destruct op as [v o ev|d evs|w ev|w ev|w]; simpl in *.
      - by apply newWatcher_balanced.
      - by apply notify_loop_balanced.
      - by apply run_balanced, traversal_ends_flag.
      - by apply evaluate_balanced, traversal_ends_flag.
      - apply teardown_frame. }
    destruct H as [Ht Hs]. unfold target_ok. by rewrite Ht, Hs.
  - intros w W ev v HW Hdeep Hv Hthrow. unfold get.
    rewrite HW, Hv, Hdeep, Hthrow. simpl. split; [done|].
    destruct (depend_all_frame (ev_traverse ev)
                (foldl (λ s d, depend d s) (pushTarget (Some w) st) (ev_reads ev)))
      as [-> ->].
    by destruct (depend_all_frame (ev_reads ev) (pushTarget (Some w) st))
      as [-> ->].
Qed.

Lemma X1_target_restored_witness :
  (∀ op, traversals_end op →
     target (step (mkConfig true true) op demo) = target demo ∧
     targetStack (step (mkConfig true true) op demo) = targetStack demo ∧
     target_ok (step (mkConfig true true) op demo)) ∧
  (∀ w W ev v,
     watchers demo !! w = Some W → deep W = true →
     ev_value ev = Some v → ev_traverse_throws ev = true →
     (get w ev demo).1 = Thrown ∧
     target (get w ev demo).2 = Some w ∧
     targetStack (get w ev demo).2 = targetStack demo ++ [Some w]).
Proof.
  apply (X1_target_restored (mkConfig true true) demo).
  reflexivity.
Defined.

(** ** Dep.notify *)

Lemma get_log_about w ev st :
  ∃ ext, log (get w ev st).2 = log st ++ ext ∧ Forall (about w) ext ∧
         updates ext = [] ∧ callbacks ext = [].
Proof.
  unfold get. destruct (watchers st !! w) as [W|].
  2:{ exists []. by rewrite app_nil_r. }
  destruct (ev_value ev) as [v|]; [|destruct (user W)]; simpl;
    rewrite ?cleanupDeps_log; simpl.
  - exists []. rewrite app_nil_r. split; [|done].
    destruct (deep W && ev_traverse_throws ev); simpl;
      rewrite ?cleanupDeps_log; simpl;
      destruct (deep W); by rewrite !depend_all_log.
  - exists [EvHandleError w]. rewrite depend_all_log. simpl.
    split; [done|]. split; [|done]. by apply Forall_singleton.
  - exists []. rewrite app_nil_r. split; [|done]. by rewrite depend_all_log.
Qed.

Lemma run_log_about w ev st :
  ∃ ext, log (run w ev st).2 = log st ++ ext ∧ Forall (about w) ext ∧
         updates ext = [].
Proof.
  unfold run. destruct (watchers st !! w) as [W|].
  2:{ exists []. by rewrite app_nil_r. }
  destruct (active W).
  2:{ exists []. by rewrite app_nil_r. }
  destruct (get_log_about w ev st) as (ext & Hl & Hab & Hu & _).
  destruct (get w ev st) as [[v|] st1]; simpl in Hl; [|by eauto].
  destruct (watchers st1 !! w) as [W1|]; [|by eauto].
  destruct (negb (strict_eq v (value W1)) || isObject v (ev_function ev) || deep W1); [|by eauto].
  exists (ext ++ [EvCallback w v (value W1)]). simpl.
  rewrite Hl, app_assoc. split; [done|]. split.
  - apply Forall_app. split; [done|]. by apply Forall_singleton.
  - unfold updates in *. by rewrite omap_app, Hu.
Qed.

Lemma update_log_about w ev st :
  ∃ ext, log (update w ev st).2 = log st ++ EvUpdate w :: ext ∧
         Forall (about w) ext ∧ updates ext = [].
Proof.
  unfold update. set (st0 := emit (EvUpdate w) st).
  assert (H0 : log st0 = log st ++ [EvUpdate w]) by done.
  destruct (watchers st0 !! w) as [W|].
  2:{ by exists []. }
  destruct (lazy W).
  { by exists []. }
  destruct (sync W).
  - destruct (run_log_about w ev st0) as (ext & Hl & Hab & Hu).
    exists ext. rewrite Hl, H0, <- app_assoc. done.
  - exists [EvQueue w]. simpl. rewrite <- app_assoc. split; [done|].
    split; [|done]. by apply Forall_singleton.
Qed.

Lemma notify_loop_log l evs st :
  ∃ ext, log (notify_loop l evs st).2 = log st ++ ext ∧
         updates ext `prefix_of` l ∧
         ((notify_loop l evs st).1 = Returned () → updates ext = l).
Proof.
  revert st. induction l as [|w l IH]; intros st; simpl.
  { exists []. rewrite app_nil_r. split; [done|]. split; [|done]. apply prefix_nil. }
  destruct (update_log_about w (evs w) st) as (e1 & Hl1 & _ & Hu1).
  destruct (update w (evs w) st) as [[[]|] st1]; simpl in Hl1.
  - destruct (IH st1) as (e2 & Hl2 & Hp & Hr).
    exists (EvUpdate w :: e1 ++ e2). rewrite Hl2, Hl1, <- app_assoc. simpl.
    split; [done|].
    assert (updates (e1 ++ e2) = updates e2) as ->.
    { unfold updates in *. by rewrite omap_app, Hu1. }
    split; [by apply prefix_cons|]. intros H. by rewrite Hr.
  - exists (EvUpdate w :: e1). simpl. split; [done|].
    rewrite Hu1. split; [|done]. apply (prefix_cons w [] l), prefix_nil.
Qed.

(** X3.  [Dep.notify] calls [update()] on the subscribers it had when
    it was entered, each once: in the order of the subscriber list,
    and in ascending order of watcher id in a development build
    without [config.async].  When an [update()] throws, the
    subscribers before it had theirs and the rest have none. *)
Theorem X3_notify_order cfg d evs st :
  ∃ ext, log (notify cfg d evs st).2 = log st ++ ext ∧
    updates ext `prefix_of`
      (if dev cfg && negb (async cfg)
       then merge_sort (≤) (subs_of st d) else subs_of st d) ∧
    ((notify cfg d evs st).1 = Returned () →
     updates ext ≡ₚ subs_of st d ∧
     if dev cfg && negb (async cfg)
     then StronglySorted (≤) (updates ext)
     else updates ext = subs_of st d).
Proof.
  unfold notify.
  destruct (notify_loop_log
              (if dev cfg && negb (async cfg)
               then merge_sort (≤) (subs_of st d) else subs_of st d) evs st)
    as (ext & Hl & Hp & Hr).
  exists ext. split; [done|]. split; [done|]. intros H.
  rewrite (Hr H). destruct (dev cfg && negb (async cfg)).
  - split; [apply merge_sort_Permutation|].
    apply (StronglySorted_merge_sort (≤)).
  - done.
Qed.

Lemma notify_loop_lazy l evs st st' w W :
  NoDup l → notify_loop l evs st = (Returned (), st') →
  watchers st !! w = Some W → lazy W = true →
  watchers st' !! w = Some (if decide (w ∈ l) then marked_dirty W else W) ∧
  ∃ ext, log st' = log st ++ ext ∧
         Forall (λ e, about w e → e = EvUpdate w) ext.
Proof.
  revert st W. induction l as [|x l IH]; intros st W Hnd Hloop HW Hlazy.
  { simpl in Hloop. injection Hloop as <-. split; [done|].
    exists []. by rewrite app_nil_r. }
  apply NoDup_cons in Hnd as [Hx Hnd]. simpl in Hloop.
  destruct (decide (x = w)) as [->|Hne].
  - assert (Hup : update w (evs w) st
                  = (Returned (), set_watcher w (marked_dirty W) (emit (EvUpdate w) st))).
    { unfold update, marked_dirty. simpl. rewrite HW. simpl. by rewrite Hlazy. }
    rewrite Hup in Hloop.
    destruct (IH _ (marked_dirty W) Hnd Hloop) as [HW' (ext & Hl & Hab)].
    { by rewrite watchers_set_watcher, decide_True. } { done. }
    rewrite decide_False in HW' by done.
    rewrite decide_True by apply list_elem_of_here. split; [done|].
    exists (EvUpdate w :: ext). rewrite Hl. simpl. rewrite <- app_assoc.
    split; [done|]. by apply Forall_cons.
  - destruct (keeps_update w x (evs x) st Hne) as (Hk & _ & _).
    destruct (update_log_about x (evs x) st) as (e1 & Hl1 & Hab1 & _).
    destruct (update x (evs x) st) as [[[]|] st1]; [|done]. simpl in *.
    destruct (IH st1 W Hnd Hloop) as [HW' (ext & Hl & Hab)];
      [by rewrite Hk|done|].
    split.
    + rewrite HW'. destruct (decide (w ∈ l)) as [Hin|Hnin].
      * by rewrite decide_True by by apply list_elem_of_further.
      * rewrite decide_False; [done|].
        intros [?|?]%elem_of_cons; [congruence|done].
    + exists (EvUpdate x :: e1 ++ ext). rewrite Hl, Hl1, <- app_assoc.
      split; [done|]. apply Forall_cons. split; [intros ?; simpl in *; congruence|].
      apply Forall_app. split; [|done].
      eapply Forall_impl; [exact Hab1|]. intros e He Hw.
      destruct e; simpl in *; congruence.
Qed.

(** ** Computed properties *)

Lemma foldr_depend ds st :
  foldr depend st ds = foldl (λ s d, depend d s) st (reverse ds).
Proof.
  revert st. induction ds as [|d ds IH]; intros st; simpl; [done|].
  by rewrite reverse_cons, foldl_app, <- IH.
Qed.

Lemma depend_all_known t T ds st :
  target st = Some t → watchers st !! t = Some T →
  (∀ d, d ∈ ds → d ∈ newDepIds T) →
  foldl (λ s d, depend d s) st ds = st.
Proof.
  intros Ht HT. induction ds as [|d ds IH]; intros Hin; simpl; [done|].
  assert (depend d st = st) as ->.
  { unfold depend, addDep. rewrite Ht, HT.
    rewrite decide_True; [done|]. apply Hin, list_elem_of_here. }
  apply IH. intros d' Hd'. by apply Hin, list_elem_of_further.
Qed.

Lemma depend_all_missing t ds st :
  target st = Some t → watchers st !! t = None →
  foldl (λ s d, depend d s) st ds = st.
Proof.
  intros Ht HT. induction ds as [|d ds IH]; simpl; [done|].
  assert (depend d st = st) as -> by (unfold depend, addDep; by rewrite Ht, HT).
  done.
Qed.

(** What the first half of [computedGetter] leaves: the watcher is
    clean, and nothing else moved on the target stack. *)
Lemma computed_first_half w W ev st st1 :
  Inv st → target_ok st → watchers st !! w = Some W →
  (if dirty W then evaluate w ev st else (Returned (), st)) = (Returned (), st1) →
  Inv st1 ∧ target st1 = target st ∧ targetStack st1 = targetStack st ∧
  (∀ x, x ≠ w → watchers st1 !! x = watchers st !! x) ∧
  ∃ W1, watchers st1 !! w = Some W1 ∧ dirty W1 = false ∧
        (dirty W = false → W1 = W) ∧
        (dirty W = true → ∀ v, ev_value ev = Some v → value W1 = v).
Proof.
  intros HI Hok HW Hr. destruct (dirty W) eqn:Hd.
  - pose proof (Inv_evaluate w ev st HI) as HI1.
    pose proof (evaluate_returned_ends w ev st () st1 Hr) as Hend.
    pose proof (evaluate_balanced w ev st Hok Hend) as [Ht Hs].
    assert (Hk : ∀ x, x ≠ w → watchers (evaluate w ev st).2 !! x = watchers st !! x).
    { intros x Hx. by destruct (keeps_evaluate x w ev st) as (-> & _). }
    rewrite Hr in HI1, Ht, Hs, Hk. simpl in *.
    split; [done|]. split; [done|]. split; [done|]. split; [done|].
    unfold evaluate in Hr.
    assert (Hgv : ∀ v, ev_value ev = Some v → (get w ev st).1 = Returned v).
    { intros v Hv. unfold get. rewrite HW, Hv. by rewrite (Hend W v HW Hv). }
    destruct (get w ev st) as [[v|] s] eqn:Hg; [|done].
    destruct (watchers s !! w) as [W0|] eqn:HW0; [|done].
    injection Hr as <-. eexists. split; [by rewrite watchers_set_watcher, decide_True|].
    simpl. split; [done|]. split; [done|]. intros _ v' Hv'.
    specialize (Hgv v' Hv'). simpl in Hgv. by injection Hgv.
  - injection Hr as <-. split; [done|]. split; [done|]. split; [done|].
    split; [done|]. exists W. split; [done|]. split; [done|]. split; [done|]. done.
Qed.

(** The second half, [watcher.depend()] under a target other than the
    watcher itself. *)
Lemma watcher_depend_spec w W t st :
  Inv st → target st = Some t → t ≠ w → watchers st !! w = Some W →
  Inv (watcher_depend w st) ∧
  target (watcher_depend w st) = Some t ∧
  targetStack (watcher_depend w st) = targetStack st ∧
  watchers (watcher_depend w st) !! w = Some W ∧
  watcher_depend w (watcher_depend w st) = watcher_depend w st ∧
  (∀ T, watchers st !! t = Some T →
     ∃ T', watchers (watcher_depend w st) !! t = Some T' ∧ same_but_new T T' ∧
           ∀ d, d ∈ newDeps T' ↔ d ∈ newDeps T ∨ d ∈ deps W).
Proof.
  intros HI Ht Hne HW.
  set (st' := foldl (λ s d, depend d s) st (reverse (deps W))).
  assert (Hwd : watcher_depend w st = st')
    by (unfold watcher_depend; by rewrite HW, foldr_depend).
  rewrite Hwd.
  assert (HI' : Inv st') by by apply Inv_depend_all.
  destruct (depend_all_frame (reverse (deps W)) st) as [Ht' Hs']. fold st' in Ht', Hs'.
  destruct (keeps_depend_all w t (reverse (deps W)) st) as [(Hk & _) _]; [done..|].
  fold st' in Hk.
  split; [done|]. split; [congruence|]. split; [done|].
  split; [by rewrite Hk|]. split.
  - unfold watcher_depend. rewrite Hk, HW, foldr_depend.
    destruct (watchers st !! t) as [T|] eqn:HT.
    + destruct (depend_all_spec t (reverse (deps W)) st T HI HT Ht)
        as (T' & HT' & _ & Hin & _). fold st' in HT'.
      apply (depend_all_known t T'); [congruence|done|].
      intros d Hd. apply (inv_ids _ HI' _ _ HT'). apply Hin. by right.
    + assert (st' = st) as -> by by apply (depend_all_missing t).
      by apply (depend_all_missing t).
  - intros T HT.
    destruct (depend_all_spec t (reverse (deps W)) st T HI HT Ht)
      as (T' & HT' & Hsame & Hin & _). fold st' in HT'.
    exists T'. split; [done|]. split; [done|].
    intros d. rewrite Hin, elem_of_reverse. done.
Qed.

(** X5.  A computed property is memoised: once its getter has
    returned, reading it again returns the same value and changes
    nothing, whatever the user's function would compute now; the
    function is not called again until a notification marks the
    watcher dirty. *)
Theorem X5_computed_cached w ev ev' st v st1 :
  Inv st → target_ok st → target st ≠ Some w →
  computedGetter w ev st = (Returned v, st1) →
  computedGetter w ev' st1 = (Returned v, st1).
Proof.
  intros HI Hok Hnw Hc. unfold computedGetter in Hc.
  destruct (watchers st !! w) as [W|] eqn:HW.
  2:{ injection Hc as <- <-. unfold computedGetter. by rewrite HW. }
  destruct (if dirty W then evaluate w ev st else (Returned (), st))
    as [[[]|] s1] eqn:Hr; [|done].
  destruct (computed_first_half w W ev st s1 HI Hok HW Hr)
    as (HI1 & Ht1 & Hs1 & _ & W1 & HW1 & Hd1 & _).
  destruct (target s1) as [t|] eqn:Ht.
  - assert (Hne : t ≠ w) by congruence.
    destruct (watcher_depend_spec w W1 t s1 HI1 Ht Hne HW1)
      as (_ & Ht2 & _ & HW2 & Hidem & _).
    injection Hc as <- <-. unfold computedGetter.
    rewrite HW2, Hd1, Ht2, Hidem, HW2. done.
  - injection Hc as <- <-. unfold computedGetter.
    rewrite HW1, Hd1, Ht, HW1. done.
Qed.

Lemma X5_computed_cached_witness :
  computedGetter 1 (reads [5] VNull)
    (computedGetter 1 (reads [0] (VNum (Fin 1)))
       (newWatcher 0 lazily (reads [] VUndef) init).2).2
  = (Returned (VNum (Fin 1)),
     (computedGetter 1 (reads [0] (VNum (Fin 1)))
        (newWatcher 0 lazily (reads [] VUndef) init).2).2).
Proof.
  apply (X5_computed_cached 1 (reads [0] (VNum (Fin 1))) (reads [5] VNull)
           (newWatcher 0 lazily (reads [] VUndef) init).2).
  - apply Inv_newWatcher, Inv_init.
  - reflexivity.
  - discriminate.
  - reflexivity.
Defined.

(** X6.  A notification of any Dep the computed watcher read makes
    the next read of the property call the user's function again: it
    returns what the function returns now.  (Only for a watcher that
    is also deep, which the watcher of a computed property is not, can
    the traversal of that value throw; the read then throws.) *)
Theorem X6_computed_invalidated cfg d evs ev st st' w W v :
  Inv st → target_ok st → target st ≠ Some w →
  watchers st !! w = Some W → lazy W = true → active W = true →
  newDeps W = [] → d ∈ deps W →
  notify cfg d evs st = (Returned (), st') →
  ev_value ev = Some v →
  if deep W && ev_traverse_throws ev
  then (computedGetter w ev st').1 = Thrown
  else ∃ st2, computedGetter w ev st' = (Returned v, st2).
Proof.
  intros HI Hok Hnw HW Hlazy Hact Hnew Hd Hn Hv.
  assert (Hsub : w ∈ subs_of st d) by (eapply inv_active; eauto).
  assert (HW' : watchers st' !! w = Some (marked_dirty W)).
  { unfold notify in Hn.
    set (l := if dev cfg && negb (async cfg)
              then merge_sort (≤) (subs_of st d) else subs_of st d) in *.
    assert (Hperm : l ≡ₚ subs_of st d).
    { unfold l. destruct (dev cfg && negb (async cfg)); [|done].
      apply merge_sort_Permutation. }
    assert (Hnd : NoDup l) by (rewrite Hperm; by apply inv_nodup).
    destruct (notify_loop_lazy l evs st st' w W Hnd Hn HW Hlazy) as [H _].
    by rewrite decide_True in H by by rewrite Hperm. }
  pose proof (Inv_notify cfg d evs st HI) as HI'.
  pose proof (notify_loop_returned_balanced
    (if dev cfg && negb (async cfg)
     then merge_sort (≤) (subs_of st d) else subs_of st d) evs st st' Hok Hn)
    as [Ht Hs].
  unfold notify in Hn, HI'. rewrite Hn in HI'. simpl in *.
  assert (Hok' : target_ok st') by (unfold target_ok; by rewrite Ht, Hs).
  destruct (deep W && ev_traverse_throws ev) eqn:Hend.
  { unfold computedGetter. rewrite HW'. simpl. unfold evaluate, get.
    rewrite HW', Hv. simpl. by rewrite Hend. }
  unfold computedGetter. rewrite HW'. simpl.
  assert (Hev : ∃ s1, evaluate w ev st' = (Returned (), s1)).
  { unfold evaluate.
    assert (Hg : (get w ev st').1 = Returned v).
    { unfold get. rewrite HW', Hv. simpl. by rewrite Hend. }
    destruct (get_spec w ev st' (marked_dirty W) HI' HW' Hnew) as (W1 & HW1 & _).
    { intros x _. exact Hend. }
    destruct (get w ev st') as [[v'|] s] eqn:Hget; [|done].
    simpl in HW1. rewrite HW1. eauto. }
  destruct Hev as (s1 & Hev).
  destruct (computed_first_half w (marked_dirty W) ev st' s1 HI' Hok' HW')
    as (HI1 & Ht1 & Hs1 & _ & W1 & HW1 & Hd1 & _ & Hval); [by simpl|].
  rewrite Hev. destruct (target s1) as [t|] eqn:Hts.
  - assert (Hne : t ≠ w) by congruence.
    destruct (watcher_depend_spec w W1 t s1 HI1 Hts Hne HW1) as (_ & _ & _ & HW2 & _).
    rewrite HW2. rewrite (Hval eq_refl v Hv). eauto.
  - rewrite HW1, (Hval eq_refl v Hv). eauto.
Qed.

Lemma X6_computed_invalidated_witness :
  ∃ st2, computedGetter 1 (reads [0] (VNum (Fin 7)))
           (notify (mkConfig true true) 0 quiet_evs
              (steps (mkConfig true true)
                 [OpNew 0 lazily (reads [] VUndef);
                  OpEvaluate 1 (reads [0] (VNum (Fin 1)))] init)).2
         = (Returned (VNum (Fin 7)), st2).
Proof.
  apply (X6_computed_invalidated (mkConfig true true) 0 quiet_evs
           (reads [0] (VNum (Fin 7)))
           (steps (mkConfig true true)
              [OpNew 0 lazily (reads [] VUndef);
               OpEvaluate 1 (reads [0] (VNum (Fin 1)))] init)
           (notify (mkConfig true true) 0 quiet_evs
              (steps (mkConfig true true)
                 [OpNew 0 lazily (reads [] VUndef);
                  OpEvaluate 1 (reads [0] (VNum (Fin 1)))] init)).2
           1
           (mkWatcher 0 false false true false false true [0] [] {[0]} ∅
              (VNum (Fin 1)))
           (VNum (Fin 7))).
  - apply Inv_steps, Inv_init.
  - vm_compute. reflexivity.
  - vm_compute. discriminate.
  - vm_compute. reflexivity.
  - reflexivity.
  - reflexivity.
  - reflexivity.
  - apply list_elem_of_here.
  - vm_compute. reflexivity.
  - reflexivity.
Defined.

(** X7.  Reading a computed property while another watcher is being
    evaluated hands the computed watcher's dependencies on: every Dep
    the computed watcher depends on is then among the Deps the
    evaluating watcher is collecting, and that watcher is among the
    subscribers of each. *)
Theorem X7_computed_propagates w W ev st t T v st' :
  Inv st → target_ok st → target st = Some t → t ≠ w →
  watchers st !! w = Some W →
  watchers st !! t = Some T → active T = true →
  computedGetter w ev st = (Returned v, st') →
  ∃ W' T', watchers st' !! w = Some W' ∧ value W' = v ∧
           watchers st' !! t = Some T' ∧
           ∀ d, d ∈ deps W' → d ∈ newDeps T' ∧ t ∈ subs_of st' d.
Proof.
  intros HI Hok Ht Hne HW HT Hact Hc. unfold computedGetter in Hc.
  rewrite HW in Hc.
  destruct (if dirty W then evaluate w ev st else (Returned (), st))
    as [[[]|] s1] eqn:Hr; [|done].
  destruct (computed_first_half w W ev st s1 HI Hok HW Hr)
    as (HI1 & Ht1 & Hs1 & Hk & W1 & HW1 & Hd1 & _).
  rewrite Ht1, Ht in Hc.
  assert (Hts : target s1 = Some t) by congruence.
  destruct (watcher_depend_spec w W1 t s1 HI1 Hts Hne HW1)
    as (HI2 & _ & _ & HW2 & _ & Hprop).
  destruct (Hprop T) as (T' & HT' & Hsame & Hin); [by rewrite Hk|].
  rewrite HW2 in Hc. injection Hc as <- <-.
  exists W1, T'. split; [done|]. split; [done|]. split; [done|].
  intros d Hd. assert (Hd' : d ∈ newDeps T') by (apply Hin; by right).
  split; [done|]. apply (inv_active _ HI2 t T' d HT'); [|by right].
  destruct Hsame as (_ & _ & _ & _ & _ & _ & -> & _). done.
Qed.

Lemma X7_computed_propagates_witness :
  ∃ W' T',
    watchers (computedGetter 1 (reads [0; 3] (VNum (Fin 1)))
                (pushTarget (Some 2)
                   (steps (mkConfig true true)
                      [OpNew 0 lazily (reads [] VUndef);
                       OpNew 0 plain (reads [] VUndef)] init))).2 !! 1 = Some W' ∧
    value W' = VNum (Fin 1) ∧
    watchers (computedGetter 1 (reads [0; 3] (VNum (Fin 1)))
                (pushTarget (Some 2)
                   (steps (mkConfig true true)
                      [OpNew 0 lazily (reads [] VUndef);
                       OpNew 0 plain (reads [] VUndef)] init))).2 !! 2 = Some T' ∧
    ∀ d, d ∈ deps W' →
         d ∈ newDeps T' ∧
         2 ∈ subs_of (computedGetter 1 (reads [0; 3] (VNum (Fin 1)))
                        (pushTarget (Some 2)
                           (steps (mkConfig true true)
                              [OpNew 0 lazily (reads [] VUndef);
                               OpNew 0 plain (reads [] VUndef)] init))).2 d.
Proof.
  apply (X7_computed_propagates 1
           (mkWatcher 0 false false true false true true [] [] ∅ ∅ VUndef)
           (reads [0; 3] (VNum (Fin 1)))
           (pushTarget (Some 2)
              (steps (mkConfig true true)
                 [OpNew 0 lazily (reads [] VUndef);
                  OpNew 0 plain (reads [] VUndef)] init))
           2
           (mkWatcher 0 false false false false false true [] [] ∅ ∅ VUndef)
           (VNum (Fin 1))).
  - apply Inv_pushTarget, Inv_steps, Inv_init.
  - vm_compute. reflexivity.
  - vm_compute. reflexivity.
  - discriminate.
  - vm_compute. reflexivity.
  - vm_compute. reflexivity.
  - reflexivity.
  - vm_compute. reflexivity.
Defined.

(** ** Watcher.run and [$watch] *)

(** [get] changes of its watcher only what it collects. *)
Lemma get_same_but_deps w W ev st :
  Inv st → watchers st !! w = Some W →
  ∃ W1, watchers (get w ev st).2 !! w = Some W1 ∧
        vm W1 = vm W ∧ deep W1 = deep W ∧ user W1 = user W ∧ lazy W1 = lazy W ∧
        sync W1 = sync W ∧ dirty W1 = dirty W ∧ active W1 = active W ∧
        value W1 = value W.
Proof.
  intros HI HW.
  set (st1 := pushTarget (Some w) st).
  assert (HI1 : Inv st1) by by apply Inv_pushTarget.
  assert (Hfin : ∀ ds st', watchers st' = watchers (foldl (λ s d, depend d s) st1 ds) →
            ∃ W1, watchers (cleanupDeps w st') !! w = Some W1 ∧
              vm W1 = vm W ∧ deep W1 = deep W ∧ user W1 = user W ∧
              lazy W1 = lazy W ∧ sync W1 = sync W ∧ dirty W1 = dirty W ∧
              active W1 = active W ∧ value W1 = value W).
  { intros ds st' Hw.
    destruct (depend_all_spec w ds st1 W HI1 HW eq_refl)
      as (W2 & HW2 & (? & ? & ? & ? & ? & ? & ? & ? & ? & ?) & _).
    unfold cleanupDeps. rewrite Hw, HW2.
    eexists. split; [by rewrite watchers_set_watcher, decide_True|]. done. }
  unfold get. rewrite HW. fold st1.
  destruct (ev_value ev) as [v|]; [|destruct (user W)]; simpl.
  - destruct (deep W) eqn:Hdeep; simpl.
    + destruct (ev_traverse_throws ev); simpl.
      * rewrite <- foldl_app.
        destruct (depend_all_spec w (ev_reads ev ++ ev_traverse ev) st1 W HI1 HW eq_refl)
          as (W2 & HW2 & (? & ? & ? & ? & ? & ? & ? & ? & ? & ?) & _).
        exists W2. repeat split; congruence.
      * rewrite <- foldl_app.
        by apply (Hfin (ev_reads ev ++ ev_traverse ev)).
    + by apply (Hfin (ev_reads ev)).
  - by apply (Hfin (ev_reads ev)).
  - by apply (Hfin (ev_reads ev)).
Qed.

(** X8.  [run()] of an active watcher whose getter returns (and, for
    a deep watcher, whose traversal does not throw) calls the callback
    exactly when the value differs from the previous one by [!==], or
    is an object in the sense of [isObject] (a reference, but not to a
    function), or the watcher is deep; the callback gets the new and
    the previous value, and only then the new value is kept.  So a
    getter that returns [NaN] fires the callback on every run, and one
    that returns the same function, or [-0] after [+0], fires nothing
    and the watcher keeps the value it had. *)
Theorem X8_run_fires w W ev st v :
  Inv st → watchers st !! w = Some W → active W = true → ev_value ev = Some v →
  deep W && ev_traverse_throws ev = false →
  let fires := negb (strict_eq v (value W)) || isObject v (ev_function ev)
               || deep W in
  ∃ st' ext W',
    run w ev st = (Returned (), st') ∧ log st' = log st ++ ext ∧
    callbacks ext = (if fires then [(w, v, value W)] else []) ∧
    watchers st' !! w = Some W' ∧
    value W' = (if fires then v else value W) ∧
    (is_nan v = true → fires = true) ∧
    (ev_function ev = true → deep W = false → strict_eq v (value W) = true →
     fires = false).
Proof.
  intros HI HW Hact Hv Hend fires.
  destruct (get_same_but_deps w W ev st HI HW)
    as (W1 & HW1 & _ & Hdeep & _ & _ & _ & _ & _ & Hval).
  destruct (get_log_about w ev st) as (ext & Hl & _ & _ & Hcb).
  assert (Hg : (get w ev st).1 = Returned v).
  { unfold get. rewrite HW, Hv. simpl. by rewrite Hend. }
  unfold run. rewrite HW, Hact.
  destruct (get w ev st) as [[v'|] st1]; [|done]. simpl in *.
  injection Hg as ->. rewrite HW1, Hval, Hdeep. fold fires.
  assert (Hnan : is_nan v = true → fires = true).
  { intros Hn. unfold fires. destruct v as [| | |[]| |]; try done.
    by destruct (value W) as [| | |[]| |]. }
  assert (Hfun : ev_function ev = true → deep W = false →
                 strict_eq v (value W) = true → fires = false).
  { intros Hf Hd Heq. unfold fires. rewrite Hf, Hd, Heq. by destruct v. }
  destruct fires.
  - eexists _, (ext ++ [EvCallback w v (value W)]), _.
    split; [done|]. simpl. rewrite Hl, app_assoc. split; [done|].
    split; [unfold callbacks in *; by rewrite omap_app, Hcb|].
    split; [by rewrite lookup_insert_eq|]. done.
  - eexists _, ext, _. split; [done|]. split; [done|]. split; [done|].
    split; [done|]. done.
Qed.

Lemma X8_run_fires_witness :
  ∃ st' ext W',
    run 1 (reads [0] (VNum NaN)) demo = (Returned (), st') ∧
    log st' = log demo ++ ext ∧
    callbacks ext =
      (if negb (strict_eq (VNum NaN) (value demo_watcher))
          || isObject (VNum NaN) (ev_function (reads [0] (VNum NaN)))
          || deep demo_watcher
       then [(1, VNum NaN, value demo_watcher)] else []) ∧
    watchers st' !! 1 = Some W' ∧
    value W' =
      (if negb (strict_eq (VNum NaN) (value demo_watcher))
          || isObject (VNum NaN) (ev_function (reads [0] (VNum NaN)))
          || deep demo_watcher
       then VNum NaN else value demo_watcher) ∧
    (is_nan (VNum NaN) = true →
     negb (strict_eq (VNum NaN) (value demo_watcher))
       || isObject (VNum NaN) (ev_function (reads [0] (VNum NaN)))
       || deep demo_watcher = true) ∧
    (ev_function (reads [0] (VNum NaN)) = true → deep demo_watcher = false →
     strict_eq (VNum NaN) (value demo_watcher) = true →
     negb (strict_eq (VNum NaN) (value demo_watcher))
       || isObject (VNum NaN) (ev_function (reads [0] (VNum NaN)))
       || deep demo_watcher = false).
Proof.
  apply (X8_run_fires 1 demo_watcher (reads [0] (VNum NaN)) demo (VNum NaN)).
  - apply Inv_demo.
  - vm_compute. reflexivity.
  - reflexivity.
  - reflexivity.
  - reflexivity.
Defined.

(** What [new Watcher] leaves of the watcher it made. *)
Lemma newWatcher_spec v o ev st :
  Inv st → o_user o = true ∨ o_lazy o = true ∨ is_Some (ev_value ev) →
  (o_lazy o = false → is_Some (ev_value ev) →
   o_deep o && ev_traverse_throws ev = false) →
  ∃ st' W,
    newWatcher v o ev st = (Returned (S (uid st)), st') ∧
    watchers st' !! S (uid st) = Some W ∧
    user W = o_user o ∧ lazy W = o_lazy o ∧ active W = true ∧ newDeps W = [] ∧
    value W = (if o_lazy o then VUndef else default VUndef (ev_value ev)) ∧
    (ev_value ev = None → o_lazy o = false → EvHandleError (S (uid st)) ∈ log st').
Proof.
  intros HI Hcase Hend. unfold newWatcher.
  set (st1 := match vms st !! v with
              | Some V => set_vm v (mkVm (_watchers V ++ [S (uid st)]) (_isBeingDestroyed V)) st
              | None => set_vm v (mkVm [S (uid st)] false) st
              end).
  set (W0 := mkWatcher v (o_deep o) (o_user o) (o_lazy o) (o_sync o) (o_lazy o)
               true [] [] ∅ ∅ VUndef).
  set (st2 := mkState (subs st1) (<[S (uid st) := W0]> (watchers st1)) (vms st1)
                (S (uid st)) (target st1) (targetStack st1) (log st1)).
  assert (HW0 : watchers st2 !! S (uid st) = Some W0) by apply lookup_insert_eq.
  assert (HI2 : Inv st2).
  { pose proof (Inv_newWatcher v (mkOptions (o_deep o) (o_user o) true (o_sync o))
                  ev st HI) as H.
    unfold newWatcher in H. simpl in H. fold st1 in H.
    destruct H as [H1 H2 H3 H4 H5]. split.
    - intros d w Hw. destruct (H1 d w Hw) as (W & HWl & HWd).
      simpl in HWl. destruct (decide (w = S (uid st))) as [->|Hne].
      + rewrite lookup_insert_eq in HWl. injection HWl as <-.
        simpl in HWd. destruct HWd as [HWd|HWd]; by apply elem_of_nil in HWd.
      + rewrite lookup_insert_ne in HWl by done. exists W.
        simpl. by rewrite lookup_insert_ne.
    - intros w W d HWl Ha Hd. simpl in HWl.
      destruct (decide (w = S (uid st))) as [->|Hne].
      + rewrite lookup_insert_eq in HWl. injection HWl as <-.
        simpl in Hd. destruct Hd as [Hd|Hd]; by apply elem_of_nil in Hd.
      + rewrite lookup_insert_ne in HWl by done.
        apply (H2 w W d); [simpl; by rewrite lookup_insert_ne|done..].
    - done.
    - intros w W HWl. simpl in HWl.
      destruct (decide (w = S (uid st))) as [->|Hne].
      + rewrite lookup_insert_eq in HWl. injection HWl as <-. simpl.
        split; intros d; set_solver.
      + rewrite lookup_insert_ne in HWl by done.
        apply (H4 w W). simpl. by rewrite lookup_insert_ne.
    - intros w [W HWl]. simpl in HWl. apply (H5 w). simpl.
      destruct (decide (w = S (uid st))) as [->|Hne].
      + rewrite lookup_insert_eq. eauto.
      + rewrite lookup_insert_ne in HWl by done. rewrite lookup_insert_ne by done.
        eauto. }
  destruct (o_lazy o) eqn:Hlazy.
  { eexists _, W0. split; [done|]. split; [done|]. simpl.
    repeat split; try done. }
  destruct (get_same_but_deps (S (uid st)) W0 ev st2 HI2 HW0)
    as (W1 & HW1 & _ & _ & Huser & Hlz & _ & _ & Hact & Hval).
  destruct (get_spec (S (uid st)) ev st2 W0 HI2 HW0 eq_refl)
    as (W1' & HW1' & Hnew & _).
  { intros x Hx. apply Hend; [done|]. rewrite Hx. eauto. }
  rewrite HW1 in HW1'. injection HW1' as <-.
  assert (Hg : (get (S (uid st)) ev st2).1 =
               match ev_value ev with
               | Some x => Returned x
               | None => if o_user o then Returned VUndef else Thrown
               end).
  { unfold get. rewrite HW0. simpl. destruct (ev_value ev) as [x|] eqn:Hx.
    - rewrite Hend by eauto. done.
    - by destruct (o_user o). }
  destruct (get_log_about (S (uid st)) ev st2) as (ext & Hl & _).
  assert (Herr : ev_value ev = None →
                 EvHandleError (S (uid st)) ∈ log (get (S (uid st)) ev st2).2).
  { intros Hnone. destruct Hcase as [Hu|[Hu|[x Hx]]]; [|done|congruence].
    unfold get. rewrite HW0, Hnone. simpl. rewrite Hu. simpl.
    rewrite cleanupDeps_log. simpl. apply elem_of_app. right.
    apply list_elem_of_here. }
  destruct (get (S (uid st)) ev st2) as [[val|] st3]; simpl in *.
  - rewrite HW1. eexists _, _. split; [done|].
    split; [by rewrite watchers_set_watcher, decide_True|]. simpl.
    rewrite Huser, Hlz, Hact, Hnew. repeat split; try done.
    + destruct (ev_value ev) as [x|]; simpl; [by injection Hg|].
      destruct (o_user o); [by injection Hg|done].
    + intros Hnone _. by apply Herr.
  - destruct (ev_value ev) as [x|] eqn:Hx; [done|].
    destruct Hcase as [Hu|[Hu|[y Hy]]]; [by rewrite Hu in Hg|done|done].
Qed.


Lemma newWatcher_traverse_throws v o ev st :
  o_lazy o = false → o_deep o = true → is_Some (ev_value ev) →
  ev_traverse_throws ev = true → (newWatcher v o ev st).1 = Thrown.
Proof.
  intros Hlazy Hdeep [x Hx] Hthrow. unfold newWatcher. rewrite Hlazy.
  unfold get. simpl. rewrite lookup_insert_eq, Hx. simpl.
  by rewrite Hdeep, Hthrow.
Qed.

(** X9.  [$watch] throws only when the traversal of a deep watcher's
    first value throws.  The watcher it creates is a user watcher, so
    an exception of the getter is given to [handleError] and the
    watcher starts with the value [undefined]; otherwise it starts
    with what the getter returned; the watcher is active and nothing
    is left in collection.  An exception of [traverse] is not caught
    and leaves [$watch]. *)
Theorem X9_watch_returns v o immediate ev st :
  Inv st →
  ((o_lazy o = false → is_Some (ev_value ev) →
    o_deep o && ev_traverse_throws ev = false) →
   ∃ st' W,
     watch v o immediate ev st = (Returned (S (uid st)), st') ∧
     watchers st' !! S (uid st) = Some W ∧
     user W = true ∧ active W = true ∧ newDeps W = [] ∧
     value W = (if o_lazy o then VUndef else default VUndef (ev_value ev)) ∧
     (ev_value ev = None → o_lazy o = false →
      EvHandleError (S (uid st)) ∈ log st')) ∧
  (o_lazy o = false → o_deep o = true → is_Some (ev_value ev) →
   ev_traverse_throws ev = true →
   (watch v o immediate ev st).1 = Thrown).
Proof.
  intros HI. split.
  - intros Hend. unfold watch.
    destruct (newWatcher_spec v (mkOptions (o_deep o) true (o_lazy o) (o_sync o))
                ev st HI) as (st1 & W & Hn & HW & Hu & _ & Ha & Hnew & Hval & Herr);
      [by left|done|].
    rewrite Hn. simpl in *.
    exists (if immediate
            then emit (EvCallback (S (uid st)) (match watchers st1 !! S (uid st) with
                                                | Some W => value W
                                                | None => VUndef
                                                end) VUndef) st1
            else st1), W.
    split; [done|]. split; [by destruct immediate|].
    split; [done|]. split; [done|]. split; [done|]. split; [done|].
    intros Hnone Hl. specialize (Herr Hnone Hl). destruct immediate; [|done].
    simpl. apply elem_of_app. by left.
  - intros Hlazy Hdeep Hv Hthrow. unfold watch.
    pose proof (newWatcher_traverse_throws v
                  (mkOptions (o_deep o) true (o_lazy o) (o_sync o)) ev st
                  Hlazy Hdeep Hv Hthrow) as Hn.
    by destruct (newWatcher v (mkOptions (o_deep o) true (o_lazy o) (o_sync o)) ev st)
      as [[w|] st1].
Qed.

Lemma X9_watch_returns_witness :
  (∃ st' W,
     watch 0 plain true (mkEvaluation [0] None false [] false) demo
       = (Returned (S (uid demo)), st') ∧
     watchers st' !! S (uid demo) = Some W ∧
     user W = true ∧ active W = true ∧ newDeps W = [] ∧
     value W = (if o_lazy plain then VUndef
                else default VUndef
                       (ev_value (mkEvaluation [0] None false [] false))) ∧
     (ev_value (mkEvaluation [0] None false [] false) = None →
      o_lazy plain = false → EvHandleError (S (uid demo)) ∈ log st')) ∧
  (watch 0 (mkOptions true false false false) false
     (mkEvaluation [0] (Some VNull) false [1] true) demo).1 = Thrown.
Proof.
  split.
  - apply (X9_watch_returns 0 plain true (mkEvaluation [0] None false [] false) demo).
    + apply Inv_demo.
    + reflexivity.
  - apply (X9_watch_returns 0 (mkOptions true false false false) false
             (mkEvaluation [0] (Some VNull) false [1] true) demo).
    + apply Inv_demo.
    + reflexivity.
    + reflexivity.
    + by eexists.
    + reflexivity.
Defined.



End WatcherFacts.

(** * Batching and the flush of a quiet queue *)

Module FlushFacts.
Import Scheduler SchedulerFacts.

Section Quiet.
Variable cfg : Config.
Variable info : nat → WatcherInfo.
Variable fx : list Event → list nat.
Variable devtools : bool.

(** ** Requests between two flushes *)

Lemma qw_steps_batch ids st :
  flushing st = false → NoDup (queue st) → has st = list_to_set (queue st) →
  NoDup (queue (foldl qw_step st ids)) ∧
  (∀ x, x ∈ queue (foldl qw_step st ids) ↔ x ∈ queue st ∨ x ∈ ids) ∧
  has (foldl qw_step st ids) = list_to_set (queue (foldl qw_step st ids)) ∧
  queue st `prefix_of` queue (foldl qw_step st ids) ∧
  flushing (foldl qw_step st ids) = false ∧
  activatedChildren (foldl qw_step st ids) = activatedChildren st ∧
  circular (foldl qw_step st ids) = circular st ∧
  index (foldl qw_step st ids) = index st.
Proof.
  revert st. induction ids as [|id ids IH]; intros st Hf Hnd Hhas; simpl.
  { repeat split; try done; set_solver. }
  assert (H1 : flushing (qw_step st id) = false ∧
               NoDup (queue (qw_step st id)) ∧
               has (qw_step st id) = list_to_set (queue (qw_step st id)) ∧
               (∀ x, x ∈ queue (qw_step st id) ↔ x ∈ queue st ∨ x = id) ∧
               queue st `prefix_of` queue (qw_step st id) ∧
               activatedChildren (qw_step st id) = activatedChildren st ∧
               circular (qw_step st id) = circular st ∧
               index (qw_step st id) = index st).
  { unfold qw_step. destruct (decide (id ∈ has st)) as [Hin|Hnin].
    - split; [done|]. split; [done|]. split; [done|]. split; [|done].
      intros x. split; [by left|]. intros [?| ->]; [done|].
      rewrite Hhas in Hin. by apply elem_of_list_to_set in Hin.
    - unfold enqueue. rewrite Hf. simpl.
      assert (id ∉ queue st).
      { intros Hq. apply Hnin. rewrite Hhas. by apply elem_of_list_to_set. }
      split; [done|]. split.
      { apply NoDup_app. split; [done|]. split; [|apply NoDup_singleton].
        intros y Hy Hy'%list_elem_of_singleton. by subst. }
      split; [rewrite Hhas, list_to_set_app_L; set_solver|].
      split; [intros x; rewrite elem_of_app, list_elem_of_singleton; done|].
      split; [by apply prefix_app_r|]. done. }
  destruct H1 as (Hf1 & Hnd1 & Hhas1 & Hin1 & Hp1 & Ha1 & Hc1 & Hi1).
  destruct (IH (qw_step st id) Hf1 Hnd1 Hhas1)
    as (Hnd2 & Hin2 & Hhas2 & Hp2 & Hf2 & Ha2 & Hc2 & Hi2).
  split; [done|]. split.
  { intros x. rewrite Hin2, Hin1, elem_of_cons. tauto. }
  split; [done|]. split; [by etrans|]. split; [done|].
  split; [congruence|]. split; congruence.
Qed.

(** X11.  Requests are batched: unless the build is a development
    build with [config.async] off, any number of [queueWatcher] calls
    made while the scheduler is idle schedule one flush with
    [nextTick], at the first call, and run nothing; every requested
    watcher is in the queue once, the first one requested at its
    head. *)
Theorem X11_requests_batched fuel ids st :
  dev cfg && negb (async cfg) = false → idle st →
  ∃ st', queue_all (queueWatcher cfg info fx devtools fuel) ids st = Done st' ∧
    NoDup (queue st') ∧ (∀ x, x ∈ queue st' ↔ x ∈ ids) ∧
    head (queue st') = head ids ∧
    has st' = list_to_set ids ∧
    log st' = log st ++ (if ids is [] then [] else [EvNextTick]) ∧
    waiting st' = (if ids is [] then false else true) ∧
    flushing st' = false.
Proof.
  intros Hasync (Hq & Ha & Hh & Hw & Hf & Hi).
  destruct ids as [|id ids]; simpl.
  { exists st. rewrite Hq, Hh, Hw, Hf, app_nil_r.
    split; [done|]. split; [apply NoDup_nil_2|]. split; [done|]. done. }
  unfold queueWatcher at 1, queueWatcher_with.
  rewrite decide_False by (rewrite Hh; set_solver).
  assert (Hwe : waiting (enqueue id st) = false) by done.
  rewrite Hwe, Hasync. simpl.
  set (st1 := emit EvNextTick _).
  assert (H1 : queue st1 = [id] ∧ has st1 = {[id]} ∧ waiting st1 = true ∧
               flushing st1 = false ∧ log st1 = log st ++ [EvNextTick]).
  { unfold st1, enqueue. simpl. rewrite Hf, Hq, Hh. simpl.
    repeat split; try done. set_solver. }
  destruct H1 as (Hq1 & Hh1 & Hw1 & Hf1 & Hl1).
  unfold queueWatcher. rewrite queue_all_waiting by done.
  destruct (qw_steps_batch ids st1) as (Hnd & Hin & Hhas & Hp & Hf2 & _);
    [done|rewrite Hq1; apply NoDup_singleton|rewrite Hq1, Hh1; set_solver|].
  eexists. split; [done|]. split; [done|]. split.
  { intros x. rewrite Hin, Hq1, list_elem_of_singleton, elem_of_cons. done. }
  split.
  { rewrite Hq1 in Hp. destruct Hp as [k ->]. done. }
  split.
  { rewrite Hhas. apply set_eq. intros x.
    rewrite elem_of_list_to_set, Hin, Hq1. set_solver. }
  split; [by rewrite qw_steps_log|]. split; [by rewrite qw_steps_waiting|done].
Qed.

(** ** A flush during which nothing is queued *)

Lemma drain_quiet_step fuel st id :
  enqueues_nothing fx → queue st !! index st = Some id →
  drain cfg info fx devtools (S fuel) st =
  drain cfg info fx devtools fuel
    (next_index (emit (EvRun id) (clear_has id
       (if w_before (info id) then emit (EvBefore id) st else st)))).
Proof.
  intros Hfx Hq. simpl. rewrite Hq.
  destruct (w_before (info id)); simpl; repeat (rewrite Hfx; simpl);
    rewrite bool_decide_eq_false_2 by set_solver;
    by rewrite andb_false_r.
Qed.

Lemma drain_quiet fuel st :
  enqueues_nothing fx → length (queue st) - index st < fuel →
  ∃ st', drain cfg info fx devtools fuel st = Done st' ∧
    queue st' = queue st ∧ activatedChildren st' = activatedChildren st ∧
    circular st' = circular st ∧
    log st' = log st ++ (drop (index st) (queue st) ≫= turn info).
Proof.
  intros Hfx. revert st. induction fuel as [|fuel IH]; intros st Hlen; [lia|].
  destruct (queue st !! index st) as [id|] eqn:Hq.
  - rewrite (drain_quiet_step fuel st id Hfx Hq).
    set (st1 := next_index _).
    assert (H1 : queue st1 = queue st ∧ activatedChildren st1 = activatedChildren st ∧
                 circular st1 = circular st ∧ index st1 = S (index st) ∧
                 log st1 = log st ++ turn info id).
    { unfold st1, turn. destruct (w_before (info id)); simpl;
        rewrite <- ?app_assoc; done. }
    destruct H1 as (Hq1 & Ha1 & Hc1 & Hi1 & Hl1).
    apply lookup_lt_Some in Hq as Hlt.
    destruct (IH st1) as (st' & Hd & Hq' & Ha' & Hc' & Hl'); [rewrite Hq1, Hi1; lia|].
    exists st'. split; [done|]. split; [congruence|]. split; [congruence|].
    split; [congruence|].
    rewrite Hl', Hl1, Hq1, Hi1, <- app_assoc. f_equal.
    rewrite (drop_S _ _ _ Hq). done.
  - exists st. assert (drain cfg info fx devtools (S fuel) st = Done st) as ->
      by (simpl; by rewrite Hq).
    apply lookup_ge_None in Hq. rewrite drop_ge by done. simpl.
    by rewrite app_nil_r.
Qed.

Lemma runs_turns (l : list nat) : runs (l ≫= turn info) = l.
Proof.
  induction l as [|x l IHl]; [done|].
  unfold runs in *. rewrite bind_cons, omap_app, IHl. unfold turn.
  by destruct (w_before (info x)).
Qed.

Lemma flush_quiet fuel st :
  enqueues_nothing fx → length (queue st) < fuel →
  ∃ st', flushSchedulerQueue cfg info fx devtools fuel st = Done st' ∧
    idle st' ∧
    circular st' = (if dev cfg then ∅ else circular st) ∧
    log st' = log st
      ++ (merge_sort (≤) (queue st) ≫= turn info)
      ++ [EvActivatedHooks (activatedChildren st);
          EvUpdatedHooks (merge_sort (≤) (queue st))]
      ++ (if devtools then [EvDevtoolsFlush] else []) ∧
    runs (log st') = runs (log st) ++ merge_sort (≤) (queue st).
Proof.
  intros Hfx Hlen. unfold flushSchedulerQueue, flush_with.
  destruct (drain_quiet fuel (before_flush st) Hfx)
    as (st1 & -> & Hq1 & Ha1 & Hc1 & Hl1).
  { simpl. rewrite (Permutation_length (merge_sort_Permutation (≤) (queue st))). lia. }
  simpl in Hq1, Ha1, Hc1, Hl1. rewrite drop_0 in Hl1.
  eexists. split; [done|].
  assert (Hlog : log (after_flush cfg devtools st1) = log st
      ++ (merge_sort (≤) (queue st) ≫= turn info)
      ++ [EvActivatedHooks (activatedChildren st);
          EvUpdatedHooks (merge_sort (≤) (queue st))]
      ++ (if devtools then [EvDevtoolsFlush] else [])).
  { unfold after_flush. rewrite Ha1, Hq1.
    destruct devtools; simpl; rewrite Hl1, <- !app_assoc; done. }
  split; [unfold after_flush; by destruct devtools|].
  split; [unfold after_flush; destruct devtools; simpl; by rewrite Hc1|].
  split; [done|]. rewrite Hlog. unfold runs. rewrite !omap_app. f_equal.
  assert (omap (λ e, match e with EvRun id => Some id | _ => None end)
            (if devtools then [EvDevtoolsFlush] else []) = []) as ->
    by by destruct devtools.
  simpl. rewrite app_nil_r. apply runs_turns.
Qed.


(** ** User code that throws *)

Variable throws : list Event → bool.

Lemma queue_all_ext (f g : State → Res) ids st :
  (∀ s, f s = g s) →
  queue_all (queueWatcher_with cfg f) ids st
  = queue_all (queueWatcher_with cfg g) ids st.
Proof.
  intros Hfg. revert st. induction ids as [|id ids IH]; intros st; simpl; [done|].
  assert (queueWatcher_with cfg f id st = queueWatcher_with cfg g id st) as ->.
  { unfold queueWatcher_with. destruct (decide _); [done|].
    destruct (waiting _); [done|]. destruct (dev cfg && _); [apply Hfg|done]. }
  destruct (queueWatcher_with cfg g id st); simpl; [apply IH|done|done].
Qed.

Lemma bind_Done r : bind r Done = r.
Proof. by destruct r. Qed.

Lemma bind_assoc r k1 k2 :
  bind (bind r k1) k2 = bind r (λ st, bind (k1 st) k2).
Proof. by destruct r. Qed.

(** The loop for user code that can throw is the loop of [drain] as
    long as nothing throws. *)
Lemma drain_throwing_quiet fuel st :
  (∀ l, throws l = false) →
  drain_throwing cfg info fx devtools throws fuel st
  = drain cfg info fx devtools fuel st.
Proof.
  intros Hno. revert st. induction fuel as [|fuel IH]; intros st; [done|].
  assert (Hflush : ∀ s, flush_with cfg devtools
                          (drain_throwing cfg info fx devtools throws fuel) s
                        = flush_with cfg devtools (drain cfg info fx devtools fuel) s).
  { intros s. unfold flush_with. by rewrite IH. }
  assert (Huser : ∀ s,
    user_code fx throws (queueWatcher_with cfg
      (flush_with cfg devtools (drain_throwing cfg info fx devtools throws fuel))) s
    = queue_all (queueWatcher_with cfg
        (flush_with cfg devtools (drain cfg info fx devtools fuel))) (fx (log s)) s).
  { intros s. unfold user_code. rewrite Hno.
    rewrite (queue_all_ext _ _ _ _ Hflush). apply bind_Done. }
  simpl. destruct (queue st !! index st) as [id|]; [|done].
  rewrite Huser.
  assert (Hrest : ∀ s,
    bind (user_code fx throws (queueWatcher_with cfg
            (flush_with cfg devtools (drain_throwing cfg info fx devtools throws fuel)))
            (emit (EvRun id) (clear_has id s)))
      (λ st0, if dev cfg && bool_decide (id ∈ has st0)
              then if decide (MAX_UPDATE_COUNT
                              < default 0 (circular (bump_circular id st0) !! id))
                   then Done (emit (warning info id) (bump_circular id st0))
                   else drain_throwing cfg info fx devtools throws fuel
                          (next_index (bump_circular id st0))
              else drain_throwing cfg info fx devtools throws fuel (next_index st0))
    = bind (queue_all (queueWatcher_with cfg
              (flush_with cfg devtools (drain cfg info fx devtools fuel)))
              (fx (log (emit (EvRun id) (clear_has id s))))
              (emit (EvRun id) (clear_has id s)))
      (λ st0, if dev cfg && bool_decide (id ∈ has st0)
              then if decide (MAX_UPDATE_COUNT
                              < default 0 (circular (bump_circular id st0) !! id))
                   then Done (emit (warning info id) (bump_circular id st0))
                   else drain cfg info fx devtools fuel
                          (next_index (bump_circular id st0))
              else drain cfg info fx devtools fuel (next_index st0))).
  { intros s. rewrite Huser.
    destruct (queue_all _ _ _) as [s'|s'|s']; simpl; [|done..].
    destruct (dev cfg && _); [|apply IH]. destruct (decide _); [done|apply IH]. }
  destruct (w_before (info id)).
  - destruct (queue_all _ _ _) as [s'|s'|s']; simpl; [|done..]. apply Hrest.
  - simpl. apply Hrest.
Qed.

Lemma flush_throwing_quiet fuel st :
  (∀ l, throws l = false) →
  flushSchedulerQueue_throwing cfg info fx devtools throws fuel st
  = flushSchedulerQueue cfg info fx devtools fuel st.
Proof.
  intros Hno. unfold flushSchedulerQueue_throwing, flushSchedulerQueue, flush_with.
  by rewrite drain_throwing_quiet.
Qed.

(** The first run of the loop throws. *)
Lemma flush_first_throws fuel st id rest :
  enqueues_nothing fx → merge_sort (≤) (queue st) = id :: rest →
  w_before (info id) = false → throws (log st ++ [EvRun id]) = true →
  flushSchedulerQueue_throwing cfg info fx devtools throws (S fuel) st
  = Threw (emit (EvRun id) (clear_has id (before_flush st))).
Proof.
  intros Hfx Hq Hb Ht. unfold flushSchedulerQueue_throwing, flush_with.
  cbn [drain_throwing]. cbn [before_flush queue index]. rewrite Hq.
  cbn [lookup list_lookup]. rewrite Hb. cbn [bind]. unfold user_code.
  rewrite Hfx. cbn [queue_all bind emit clear_has log].
  change (log (before_flush st)) with (log st). by rewrite Ht.
Qed.

(** X12.  A flush during which no watcher is queued and no [before]
    hook or run throws runs every queued watcher exactly once, in
    ascending order of id, each preceded by its [before] hook if it
    has one; then the scheduler is reset (empty queue, nothing marked,
    not waiting, not flushing), the activated hooks are called on the
    components queued for it and the updated hooks on the sorted
    queue, and the devtools are told.  When the run of the first
    watcher (one without [before] hook) throws, the exception leaves
    [flushSchedulerQueue] at once: the scheduler is not reset
    ([flushing] stays set, the sorted queue and the marks of the other
    watchers stay) and no hook is called. *)
Theorem X12_quiet_flush fuel st :
  enqueues_nothing fx → length (queue st) < fuel →
  ((∀ l, throws l = false) →
   ∃ st', flushSchedulerQueue_throwing cfg info fx devtools throws fuel st
          = Done st' ∧
     idle st' ∧
     circular st' = (if dev cfg then ∅ else circular st) ∧
     log st' = log st
       ++ (merge_sort (≤) (queue st) ≫= turn info)
       ++ [EvActivatedHooks (activatedChildren st);
           EvUpdatedHooks (merge_sort (≤) (queue st))]
       ++ (if devtools then [EvDevtoolsFlush] else []) ∧
     runs (log st') = runs (log st) ++ merge_sort (≤) (queue st)) ∧
  (∀ id rest,
     merge_sort (≤) (queue st) = id :: rest → w_before (info id) = false →
     throws (log st ++ [EvRun id]) = true →
     ∃ st', flushSchedulerQueue_throwing cfg info fx devtools throws fuel st
            = Threw st' ∧
       flushing st' = true ∧ waiting st' = waiting st ∧
       queue st' = id :: rest ∧ index st' = 0 ∧
       has st' = has st ∖ {[id]} ∧
       log st' = log st ++ [EvRun id]).
Proof.
  intros Hfx Hlen. split.
  - intros Hno. rewrite flush_throwing_quiet by done. by apply flush_quiet.
  - intros id rest Hq Hb Ht. destruct fuel as [|fuel']; [lia|].
    rewrite (flush_first_throws fuel' st id rest) by done.
    eexists. split; [done|]. cbn [emit clear_has before_flush flushing waiting
      queue index has log]. by rewrite Hq.
Qed.


(** ** A request during the flush *)

(** X14.  A watcher queued while the queue is being flushed, whose id
    is below the ids of all the watchers still waiting for their turn
    (the running watcher itself, or one whose id the loop is already
    past), is put right behind the running one: it is the next to
    run. *)
Theorem X14_requeue_runs_next fuel id st :
  flushing st = true → waiting st = true → index st < length (queue st) →
  id ∉ has st → Forall (λ x, id < x) (pending st) →
  ∃ st', queueWatcher cfg info fx devtools fuel id st = Done st' ∧
    queue st' = take (S (index st)) (queue st) ++ id :: pending st ∧
    queue st' !! S (index st) = Some id ∧
    index st' = index st ∧ id ∈ has st'.
Proof.
  intros Hf Hw Hlt Hnin Hall.
  unfold queueWatcher. rewrite qw_waiting by done.
  unfold qw_step. rewrite decide_False by done.
  eexists. split; [done|]. unfold enqueue. rewrite Hf. simpl.
  destruct (scan_spec (queue st) (index st) id (length (queue st)))
    as (Hle & Hgt & _ & Hlast); [done|].
  specialize (Hgt Hlt).
  assert (Hj : scan (queue st) (index st) id (length (queue st)) = S (index st)).
  { destruct (decide (S (index st) < scan (queue st) (index st) id (length (queue st))))
      as [Hbig|]; [|lia]. exfalso.
    destruct (lookup_lt_is_Some_2 (queue st)
                (scan (queue st) (index st) id (length (queue st)) - 1)) as [x Hx];
      [lia|].
    specialize (Hlast x Hbig Hx).
    assert (Hp : pending st !!
                   (scan (queue st) (index st) id (length (queue st)) - 1 - S (index st))
                 = Some x).
    { unfold pending. rewrite lookup_drop. rewrite <- Hx. f_equal. lia. }
    apply (Forall_lookup_1 _ _ _ _ Hall) in Hp. lia. }
  rewrite Hj. unfold splice_in, pending.
  split; [done|]. split; [|split; [done|set_solver]].
  rewrite lookup_app_r by (rewrite length_take; lia).
  rewrite length_take. by replace (S (index st) - S (index st) `min` length (queue st))
    with 0 by lia.
Qed.

(** ** Watchers that queue themselves *)

Lemma scan_next q idx id :
  idx < length q → Forall (λ x, id < x) (drop (S idx) q) →
  scan q idx id (length q) = S idx.
Proof.
  intros Hlt Hall.
  destruct (scan_spec q idx id (length q)) as (Hle & Hgt & _ & Hlast); [done|].
  specialize (Hgt Hlt).
  destruct (decide (S idx < scan q idx id (length q))) as [Hbig|]; [|lia].
  exfalso.
  destruct (lookup_lt_is_Some_2 q (scan q idx id (length q) - 1)) as [x Hx]; [lia|].
  specialize (Hlast x Hbig Hx).
  assert (Hp : drop (S idx) q !! (scan q idx id (length q) - 1 - S idx) = Some x).
  { rewrite lookup_drop. rewrite <- Hx. f_equal. lia. }
  apply (Forall_lookup_1 _ _ _ _ Hall) in Hp. lia.
Qed.

Lemma qw_steps_known x ids st :
  (∀ y, y ∈ ids → y = x) → x ∈ has st → foldl qw_step st ids = st.
Proof.
  intros Hall Hin. induction ids as [|y ids IH]; simpl; [done|].
  rewrite (Hall y) by apply list_elem_of_here.
  unfold qw_step at 2. rewrite decide_True by done.
  apply IH. intros z Hz. apply Hall. by apply list_elem_of_further.
Qed.

Lemma qw_steps_once x ids st :
  (∀ y, y ∈ ids → y = x) → x ∉ has st →
  foldl qw_step st ids = if ids is [] then st else enqueue x st.
Proof.
  intros Hall Hnin. destruct ids as [|y ids]; simpl; [done|].
  rewrite (Hall y) by apply list_elem_of_here.
  unfold qw_step at 2. rewrite decide_False by done.
  apply (qw_steps_known x).
  - intros z Hz. apply Hall. by apply list_elem_of_further.
  - unfold enqueue. simpl. set_solver.
Qed.

(** One turn of the loop under a watcher that queues at most itself:
    the loop is left, or goes on with fewer turns to come. *)
Lemma turn_within_budget st cur :
  dev cfg = true → requeues_only_itself fx → within_budget st →
  queue st !! index st = Some cur →
  match check cfg info cur (body info fx cur st) with
  | inl s => True
  | inr s => within_budget s ∧ turns_left s < turns_left st
  end.
Proof.
  intros Hdev Hfx (Hw & Hf & Hsort & Hhas & Hbud) Hq.
  apply lookup_lt_Some in Hq as Hlt.
  rewrite (drop_S _ _ _ Hq) in Hsort, Hhas.
  apply StronglySorted_inv in Hsort as [Hsort Hgt].
  apply Forall_cons in Hhas as [Hcur Hhas].
  assert (Hne : Forall (λ x, x ≠ cur) (drop (S (index st)) (queue st))).
  { eapply Forall_impl; [exact Hgt|]. simpl. intros x Hx. lia. }
  set (st1 := if w_before (info cur)
              then foldl qw_step (emit (EvBefore cur) st)
                     (fx (log (emit (EvBefore cur) st)))
              else st).
  assert (H1 : queue st1 = queue st ∧ has st1 = has st ∧ circular st1 = circular st ∧
               waiting st1 = true ∧ flushing st1 = true ∧ index st1 = index st ∧
               current (log st1 ++ [EvRun cur]) = Some cur).
  { unfold st1. destruct (w_before (info cur)).
    - rewrite qw_steps_known with (x := cur); [by rewrite current_snoc_run| |done].
      intros y Hy. apply Hfx in Hy. simpl in Hy.
      rewrite current_snoc_before in Hy. by injection Hy.
    - by rewrite current_snoc_run. }
  destruct H1 as (Hq1 & Hh1 & Hc1 & Hw1 & Hf1 & Hi1 & Hcur1).
  set (st2 := emit (EvRun cur) (clear_has cur st1)).
  assert (Hbody : body info fx cur st = foldl qw_step st2 (fx (log st2))) by done.
  assert (Hall : ∀ y, y ∈ fx (log st2) → y = cur).
  { intros y Hy. apply Hfx in Hy. simpl in Hy. rewrite Hcur1 in Hy. by injection Hy. }
  assert (Hnin : cur ∉ has st2) by (unfold st2; simpl; set_solver).
  rewrite Hbody, (qw_steps_once cur _ st2 Hall Hnin).
  assert (Hturns : turns_left st =
            (MAX_UPDATE_COUNT + 2) * (length (queue st) - index st)
            - default 0 (circular st !! cur)).
  { unfold turns_left. by rewrite Hq. }
  pose proof (Hbud cur) as Hbcur. unfold MAX_UPDATE_COUNT in *.
  destruct (fx (log st2)) as [|y ys].
  - (* nothing queued: on to the next watcher *)
    unfold check. rewrite (bool_decide_eq_false_2 (cur ∈ has st2)) by done.
    rewrite andb_false_r. split.
    + split; [done|]. split; [done|]. simpl. rewrite Hq1, Hi1.
      split; [done|]. split; [|by rewrite Hc1].
      rewrite Hh1. apply Forall_forall. intros x Hx.
      pose proof (proj1 (Forall_forall _ _) Hhas x Hx).
      pose proof (proj1 (Forall_forall _ _) Hne x Hx). set_solver.
    + rewrite Hturns. unfold turns_left, next_index, st2, emit, clear_has, MAX_UPDATE_COUNT.
      cbn [queue index circular]. rewrite Hq1, Hi1, Hc1.
      destruct (queue st !! S (index st)) as [nxt|] eqn:Hnxt.
      * apply lookup_lt_Some in Hnxt. pose proof (Hbud nxt). lia.
      * lia.
  - (* the watcher queued itself: it is next *)
    assert (Hscan : scan (queue st2) (index st2) cur (length (queue st2)) = S (index st)).
    { unfold st2. simpl. rewrite Hq1, Hi1. apply scan_next; [done|].
      eapply Forall_impl; [exact Hgt|]. done. }
    assert (Henq : queue (enqueue cur st2)
                   = take (S (index st)) (queue st) ++ cur :: drop (S (index st)) (queue st) ∧
                   has (enqueue cur st2) = {[cur]} ∪ has st ∖ {[cur]} ∧
                   circular (enqueue cur st2) = circular st ∧
                   waiting (enqueue cur st2) = true ∧ flushing (enqueue cur st2) = true ∧
                   index (enqueue cur st2) = index st).
    { unfold enqueue. rewrite Hscan. unfold st2 at 1. simpl. rewrite Hf1.
      unfold splice_in, st2. simpl. rewrite Hq1, Hh1, Hc1, Hi1. done. }
    destruct Henq as (Hqe & Hhe & Hce & Hwe & Hfe & Hie).
    unfold check. rewrite Hdev.
    rewrite (bool_decide_eq_true_2 (cur ∈ has (enqueue cur st2)))
      by (rewrite Hhe; set_solver).
    set (e := enqueue cur st2) in *. clearbody e.
    cbn [andb]. unfold bump_circular, next_index, MAX_UPDATE_COUNT.
    cbn [circular]. rewrite lookup_insert_eq. cbn [default]. rewrite Hce.
    destruct (decide (100 < _)) as [|Hok]; [done|]. simpl in Hok.
    assert (Hdrop : drop (S (index st))
                      (take (S (index st)) (queue st) ++ cur :: drop (S (index st)) (queue st))
                    = cur :: drop (S (index st)) (queue st)).
    { rewrite drop_app_length'; [done|]. rewrite length_take. lia. }
    split.
    + split; [done|]. split; [done|]. simpl. rewrite Hqe, Hie, Hhe, Hdrop.
      split; [by constructor|]. split.
      * apply Forall_cons. split; [set_solver|].
        apply Forall_forall. intros x Hx.
        pose proof (proj1 (Forall_forall _ _) Hhas x Hx).
        pose proof (proj1 (Forall_forall _ _) Hne x Hx). set_solver.
      * intros w. unfold MAX_UPDATE_COUNT. destruct (decide (w = cur)) as [->|Hw'].
        -- rewrite lookup_insert_eq. simpl. lia.
        -- rewrite lookup_insert_ne by done. apply Hbud.
    + rewrite Hturns. unfold turns_left, MAX_UPDATE_COUNT. cbn [queue index circular].
      rewrite Hqe, Hie.
      assert (Hlook : (take (S (index st)) (queue st) ++ cur :: drop (S (index st)) (queue st))
                      !! S (index st) = Some cur).
      { rewrite lookup_app_r by (rewrite length_take; lia).
        rewrite length_take.
        by replace (S (index st) - S (index st) `min` length (queue st)) with 0 by lia. }
      rewrite Hlook, lookup_insert_eq. cbn [default id].
      rewrite length_app, length_take. cbn [length]. rewrite length_drop. lia.
Qed.

Lemma drain_terminates fuel st :
  dev cfg = true → requeues_only_itself fx → within_budget st →
  turns_left st < fuel →
  ∃ st', drain cfg info fx devtools fuel st = Done st'.
Proof.
  intros Hdev Hfx. revert st. induction fuel as [|fuel IH]; intros st HI Hlt; [lia|].
  destruct (queue st !! index st) as [cur|] eqn:Hq.
  - destruct HI as (Hw & HI').
    rewrite (drain_step cfg info fx devtools fuel st cur Hw Hq).
    pose proof (turn_within_budget st cur Hdev Hfx (conj Hw HI') Hq) as Hturn.
    destruct (check cfg info cur (body info fx cur st)) as [s|s]; [by eexists|].
    destruct Hturn as [HI1 Hlt1]. apply IH; [done|lia].
  - exists st. simpl. by rewrite Hq.
Qed.

(** X27.  In a development build the flush ends whenever the watchers
    queue nothing but themselves: a watcher that queues itself in each
    of its runs is run again at once, its count goes up, and above
    [MAX_UPDATE_COUNT] the loop is left; so the number of turns is at
    most [MAX_UPDATE_COUNT + 2] for each watcher of the queue. *)
Theorem X27_self_requeue_terminates fuel st0 :
  dev cfg = true → requeues_only_itself fx → ready st0 →
  (MAX_UPDATE_COUNT + 2) * length (queue st0) < fuel →
  ∃ st', flushSchedulerQueue cfg info fx devtools fuel st0 = Done st'.
Proof.
  intros Hdev Hfx (Hnd & Hhas & Hw & Hf & Hc & Hruns) Hfuel.
  unfold flushSchedulerQueue, flush_with.
  destruct (drain_terminates fuel (before_flush st0) Hdev Hfx) as (st' & ->);
    [| |by eexists].
  - split; [done|]. split; [done|]. simpl. rewrite drop_0.
    split; [|split].
    + apply sorted_le_NoDup_lt.
      * apply (StronglySorted_merge_sort (≤)).
      * by rewrite merge_sort_Permutation.
    + by rewrite merge_sort_Permutation.
    + intros w. rewrite Hc, lookup_empty. simpl. lia.
  - unfold turns_left, before_flush, MAX_UPDATE_COUNT in *.
    cbn [queue index circular].
    rewrite (Permutation_length (merge_sort_Permutation (≤) (queue st0))).
    destruct (merge_sort (≤) (queue st0) !! 0); lia.
Qed.

End Quiet.

Lemma X11_requests_batched_witness :
  ∃ st', queue_all (queueWatcher (mkConfig false true) no_info (λ _, []) false 0)
           [3; 1; 3; 2; 1] init = Done st' ∧
    NoDup (queue st') ∧ (∀ x, x ∈ queue st' ↔ x ∈ [3; 1; 3; 2; 1]) ∧
    head (queue st') = head [3; 1; 3; 2; 1] ∧
    has st' = list_to_set [3; 1; 3; 2; 1] ∧
    log st' = log init ++ [EvNextTick] ∧
    waiting st' = true ∧
    flushing st' = false.
Proof.
  apply (X11_requests_batched (mkConfig false true) no_info (λ _, []) false 0
           [3; 1; 3; 2; 1] init).
  - reflexivity.
  - repeat split.
Defined.

Lemma X12_quiet_flush_witness :
  (∃ st', flushSchedulerQueue_throwing devcfg no_info (λ _, []) true (λ _, false)
            4 (queued [3; 1; 2]) = Done st' ∧
     idle st' ∧
     circular st' = (if dev devcfg then ∅ else circular (queued [3; 1; 2])) ∧
     log st' = log (queued [3; 1; 2])
       ++ (merge_sort (≤) (queue (queued [3; 1; 2])) ≫= turn no_info)
       ++ [EvActivatedHooks (activatedChildren (queued [3; 1; 2]));
           EvUpdatedHooks (merge_sort (≤) (queue (queued [3; 1; 2])))]
       ++ [EvDevtoolsFlush] ∧
     runs (log st') = runs (log (queued [3; 1; 2]))
                      ++ merge_sort (≤) (queue (queued [3; 1; 2]))) ∧
  (∃ st', flushSchedulerQueue_throwing devcfg no_info (λ _, []) true (λ _, true)
            4 (queued [3; 1; 2]) = Threw st' ∧
     flushing st' = true ∧ waiting st' = waiting (queued [3; 1; 2]) ∧
     queue st' = [1; 2; 3] ∧ index st' = 0 ∧
     has st' = has (queued [3; 1; 2]) ∖ {[1]} ∧
     log st' = log (queued [3; 1; 2]) ++ [EvRun 1]).
Proof.
  split.
  - destruct (X12_quiet_flush devcfg no_info (λ _, []) true (λ _, false) 4
                (queued [3; 1; 2])) as [H _].
    + intros l. reflexivity.
    + vm_compute. lia.
    + apply H. intros l. reflexivity.
  - destruct (X12_quiet_flush devcfg no_info (λ _, []) true (λ _, true) 4
                (queued [3; 1; 2])) as [_ H].
    + intros l. reflexivity.
    + vm_compute. lia.
    + apply (H 1 [2; 3]); [vm_compute|..]; reflexivity.
Defined.


Lemma X14_requeue_runs_next_witness :
  ∃ st', queueWatcher devcfg no_info (λ _, []) false 5 2
           (mkState [1; 3; 5; 8] [] {[5; 8]} ∅ true true 1 []) = Done st' ∧
    queue st' = take 2 [1; 3; 5; 8] ++ 2 :: pending
                  (mkState [1; 3; 5; 8] [] {[5; 8]} ∅ true true 1 []) ∧
    queue st' !! 2 = Some 2 ∧
    index st' = 1 ∧ 2 ∈ has st'.
Proof.
  apply (X14_requeue_runs_next devcfg no_info (λ _, []) false 5 2
           (mkState [1; 3; 5; 8] [] {[5; 8]} ∅ true true 1 [])).
  - reflexivity.
  - reflexivity.
  - simpl. lia.
  - set_solver.
  - repeat constructor.
Defined.

Lemma X27_self_requeue_terminates_witness :
  ∃ st', flushSchedulerQueue devcfg no_info
           (λ l, if decide (current l = Some 1) then [1] else []) false 103
           (queued [1]) = Done st'.
Proof.
  apply (X27_self_requeue_terminates devcfg no_info
           (λ l, if decide (current l = Some 1) then [1] else []) false 103
           (queued [1])).
  - reflexivity.
  - intros l x Hx. destruct (decide (current l = Some 1)) as [Hc|Hc].
    + by apply list_elem_of_singleton in Hx as ->.
    + by apply elem_of_nil in Hx.
  - vm_compute. repeat split; try reflexivity; repeat constructor.
    apply not_elem_of_nil.
  - vm_compute. lia.
Defined.

(** ** Two watchers that queue each other *)

Lemma fx_ping_pong_before a b l id : fx_ping_pong a b (l ++ [EvBefore id]) = [].
Proof. unfold fx_ping_pong. by rewrite last_snoc. Qed.

Lemma fx_ping_pong_run a b l cur other :
  cur = a ∧ other = b ∨ cur = b ∧ other = a → a ≠ b →
  fx_ping_pong a b (l ++ [EvRun cur]) = [other].
Proof.
  intros Hco Hab. unfold fx_ping_pong. rewrite last_snoc.
  destruct Hco as [[-> ->]|[-> ->]].
  - by rewrite decide_True.
  - rewrite decide_False by done. by rewrite decide_True.
Qed.

(** What the loop body leaves when watcher [cur] runs and queues
    [other]: the state before the run, and the log up to the run. *)
Lemma ping_pong_body info a b cur other st :
  cur = a ∧ other = b ∨ cur = b ∧ other = a → a ≠ b →
  body info (fx_ping_pong a b) cur st =
  qw_step (emit (EvRun cur)
             (clear_has cur
                (if w_before (info cur) then emit (EvBefore cur) st else st)))
          other.
Proof.
  intros Hco Hab. unfold body.
  destruct (w_before (info cur)).
  - cbn [emit log]. rewrite fx_ping_pong_before. cbn [foldl].
    cbn [emit clear_has log]. by rewrite (fx_ping_pong_run a b _ cur other).
  - cbn [emit clear_has log]. by rewrite (fx_ping_pong_run a b _ cur other).
Qed.

Lemma ping_pong_turn cfg info a b cur other st :
  cur = a ∧ other = b ∨ cur = b ∧ other = a → a ≠ b →
  waiting st = true → flushing st = true →
  queue st !! index st = Some cur → S (index st) = length (queue st) →
  other ∉ has st → circular st = ∅ →
  ∃ s, check cfg info cur (body info (fx_ping_pong a b) cur st) = inr s ∧
       waiting s = true ∧ flushing s = true ∧
       queue s !! index s = Some other ∧ S (index s) = length (queue s) ∧
       (cur ∉ has s) ∧ circular s = ∅ ∧
       runs (log s) = runs (log st) ++ [cur].
Proof.
  intros Hco Hab Hw Hf Hq Hlen Hnin Hc.
  assert (Hne : cur ≠ other) by (destruct Hco as [[-> ->]|[-> ->]]; done).
  rewrite (ping_pong_body info a b cur other st Hco Hab).
  set (st1 := if w_before (info cur) then emit (EvBefore cur) st else st).
  assert (H1 : queue st1 = queue st ∧ has st1 = has st ∧ circular st1 = ∅ ∧
               waiting st1 = true ∧ flushing st1 = true ∧ index st1 = index st ∧
               runs (log st1) = runs (log st)).
  { unfold st1. destruct (w_before (info cur)); [|done].
    simpl. by rewrite runs_snoc_other. }
  clearbody st1. destruct H1 as (Hq1 & Hh1 & Hc1 & Hw1 & Hf1 & Hi1 & Hr1).
  unfold qw_step. rewrite decide_False by (simpl; set_solver).
  unfold enqueue. cbn [emit clear_has queue index flushing has circular waiting
                       activatedChildren log].
  rewrite Hf1, Hq1, Hi1, <- Hlen. simpl scan. rewrite Hq.
  rewrite decide_False by lia.
  unfold splice_in. rewrite Hlen, take_ge, drop_ge by lia.
  unfold check.
  rewrite (bool_decide_eq_false_2 (cur ∈ _)) by (simpl; set_solver).
  rewrite andb_false_r. eexists. split; [done|].
  unfold next_index. cbn [queue index flushing has circular waiting log].
  split; [done|]. split; [done|]. split.
  { rewrite Hlen. by rewrite lookup_app_r, Nat.sub_diag. }
  split; [rewrite length_app; simpl; lia|].
  split; [set_solver|]. split; [done|].
  by rewrite runs_snoc_run, Hr1.
Qed.

Lemma ping_pong_drain cfg info devtools a b fuel :
  a ≠ b → ∀ st cur other,
  cur = a ∧ other = b ∨ cur = b ∧ other = a →
  waiting st = true → flushing st = true →
  queue st !! index st = Some cur → S (index st) = length (queue st) →
  other ∉ has st → circular st = ∅ →
  ∃ st', drain cfg info (fx_ping_pong a b) devtools fuel st = Out st' ∧
         circular st' = ∅ ∧
         length (runs (log st')) = length (runs (log st)) + fuel.
Proof.
  intros Hab. induction fuel as [|fuel IH]; intros st cur other Hco Hw Hf Hq Hlen Hnin Hc.
  - exists st. split; [done|]. split; [done|]. lia.
  - rewrite (drain_step cfg info _ devtools fuel st cur Hw Hq).
    destruct (ping_pong_turn cfg info a b cur other st Hco Hab Hw Hf Hq Hlen Hnin Hc)
      as (s & -> & Hw' & Hf' & Hq' & Hlen' & Hnin' & Hc' & Hr').
    destruct (IH s other cur) as (st' & Hd & Hc'' & Hr''); try done.
    { destruct Hco as [[-> ->]|[-> ->]]; [by right|by left]. }
    exists st'. split; [done|]. split; [done|].
    rewrite Hr'', Hr', length_app. simpl. lia.
Qed.

(** X28.  Two watchers each of which queues the other when it runs are
    not caught by the circular-update check: a watcher's count goes up
    only when the watcher is marked again by the end of its own run,
    and here it is the other one that is marked.  The flush does not
    end: whatever the step budget, the loop is still running when it is
    used up, each step having run one watcher, with no count raised,
    hence no warning, in a development build as in production. *)
Theorem X28_ping_pong_undetected cfg info devtools a b fuel st0 :
  a < b → ready st0 → queue st0 ≡ₚ [a; b] →
  ∃ st', flushSchedulerQueue cfg info (fx_ping_pong a b) devtools fuel st0 = Out st' ∧
         circular st' = ∅ ∧ length (runs (log st')) = fuel.
Proof.
  intros Hab (Hnd & Hhas & Hw & Hf & Hc & Hruns) Hperm.
  assert (Hne : a ≠ b) by lia.
  assert (Hsorted : merge_sort (≤) (queue st0) = [a; b]).
  { apply (StronglySorted_unique (≤)).
    - apply (StronglySorted_merge_sort (≤)).
    - repeat constructor. lia.
    - by rewrite merge_sort_Permutation. }
  assert (Hb : b ∈ has st0).
  { rewrite Forall_forall in Hhas. apply Hhas. rewrite Hperm. set_solver. }
  unfold flushSchedulerQueue, flush_with.
  assert (Hgoal : ∃ st', drain cfg info (fx_ping_pong a b) devtools fuel (before_flush st0)
                         = Out st' ∧ circular st' = ∅ ∧ length (runs (log st')) = fuel);
    [|by destruct Hgoal as (st' & -> & ?); exists st'].
  destruct fuel as [|fuel].
  { exists (before_flush st0). simpl. by rewrite Hruns. }
  assert (Hq0 : queue (before_flush st0) !! index (before_flush st0) = Some a).
  { simpl. by rewrite Hsorted. }
  rewrite (drain_step cfg info _ devtools fuel (before_flush st0) a Hw Hq0).
  rewrite (ping_pong_body info a b a b) by (try lia; by left).
  set (st1 := if w_before (info a) then emit (EvBefore a) (before_flush st0)
              else before_flush st0).
  assert (H1 : queue st1 = [a; b] ∧ has st1 = has st0 ∧ circular st1 = ∅ ∧
               waiting st1 = true ∧ flushing st1 = true ∧ index st1 = 0 ∧
               runs (log st1) = []).
  { unfold st1. destruct (w_before (info a)); simpl;
      rewrite ?runs_snoc_other by done; by rewrite Hsorted. }
  clearbody st1. destruct H1 as (Hq1 & Hh1 & Hc1 & Hw1 & Hf1 & Hi1 & Hr1).
  unfold qw_step. rewrite decide_True by (simpl; set_solver).
  unfold check.
  rewrite (bool_decide_eq_false_2 (a ∈ _)) by (simpl; set_solver).
  rewrite andb_false_r.
  destruct (ping_pong_drain cfg info devtools a b fuel Hne
              (next_index (emit (EvRun a) (clear_has a st1))) b a)
    as (st' & Hd & Hc' & Hr'); simpl; try done.
  - by right.
  - by rewrite Hq1, Hi1.
  - by rewrite Hq1, Hi1.
  - set_solver.
  - exists st'. split; [done|]. split; [done|].
    rewrite Hr'. simpl. rewrite runs_snoc_run, Hr1. simpl. lia.
Qed.

Lemma X28_ping_pong_undetected_witness :
  ∃ st', flushSchedulerQueue devcfg no_info (fx_ping_pong 1 2) false 500 (queued [2; 1])
         = Out st' ∧
         circular st' = ∅ ∧ length (runs (log st')) = 500.
Proof.
  apply (X28_ping_pong_undetected devcfg no_info false 1 2 500 (queued [2; 1])).
  - lia.
  - vm_compute. repeat split; try reflexivity; repeat constructor; set_solver.
  - vm_compute. apply Permutation_swap.
Defined.

End FlushFacts.

(** * What observe, set and del do to the heap *)

Module HeapFacts.
Import Observer ObserverFacts.












Section WithEnv.
Variable env : Env.














(** X20.  Data observed as the root data of a component is closed to
    [set] and [del]: once [observe(data, true)] has returned the
    Observer, [set] of a key the record has not and [del] of any key
    return without changing an object and without a notification; a
    development build warns. *)
Theorem X20_root_data_guarded cfg fuel fuel' l o key val h h1 :
  objs h !! l = Some o → kind o = KObject →
  lookup_prop key (props o) = None → key ∉ proto_keys o → key ≠ ob_key →
  observe env fuel (VRef l) true h = Ok (Some l, h1) →
  set env cfg fuel' (VRef l) key val h1 = Ok (val, warn_if (dev cfg) WSetRoot h1) ∧
  ∀ key', del env cfg fuel' (VRef l) key' h1 = Ok (warn_if (dev cfg) WDelRoot h1).
Proof.
  intros Hl Hk Hnone Hproto Hkey Hobs. rewrite observe_root in Hobs.
  destruct (observe env fuel (VRef l) false h) as [[[l0|] h0]| |] eqn:Hobs0; try done.
  injection Hobs as -> <-.
  pose proof (observe_frame env fuel (VRef l) h (Some l) h0 Hobs0) as Hext.
  destruct (extends_lookup h h0 l o Hext Hl) as (o0 & Hl0 & Ho0).
  destruct (observe_some env fuel (VRef l) h l h0 Hobs0)
    as (_ & o0' & Hl0' & [b Hb] & _).
  rewrite Hl0 in Hl0'. injection Hl0' as <-.
  set (o1 := set_ob (Some (mkObserver (ob_dep b) (S (vmCount b)))) o0).
  assert (Hl1 : objs (bump l h0) !! l = Some o1).
  { unfold bump. rewrite lookup_upd_obj, decide_True by done.
    rewrite Hl0. simpl. by rewrite Hb. }
  destruct Ho0 as (Hk0 & _ & _ & Hpk & _ & _ & Hkeys & _).
  assert (Hroot : is_root o1 = true).
  { unfold is_root, o1. simpl. by destruct (isVue o0). }
  assert (Hka : kind o1 ≠ KArray) by (unfold o1; simpl; congruence).
  assert (Hlook1 : lookup_prop key (props o1) = None).
  { unfold o1. simpl. apply lookup_prop_None. rewrite Hkeys. by apply lookup_prop_None. }
  assert (Hpk1 : proto_keys o1 = proto_keys o) by done.
  set (hb := bump l h0) in *. clearbody hb o1.
  split.
  - unfold set. rewrite andb_false_r. simpl. rewrite Hl1.
    rewrite bool_decide_eq_false_2 by done.
    assert (has_key o1 key = false) as ->.
    { unfold has_key, hasOwn. rewrite Hlook1, Hpk1.
      rewrite (bool_decide_eq_false_2 (is_Some None)) by (by intros [? ?]).
      rewrite (bool_decide_eq_false_2 (key = ob_key)) by done.
      simpl. by apply bool_decide_eq_false_2. }
    simpl. by rewrite Hroot.
  - intros key'. unfold del. rewrite andb_false_r. simpl. rewrite Hl1.
    rewrite bool_decide_eq_false_2 by done. by rewrite Hroot.
Qed.

End WithEnv.






Lemma X20_root_data_guarded_witness :
  set plain_env devcfg 3 (VRef 0) "c" (VNum (Fin 3)) heap1_root
    = Ok (VNum (Fin 3), warn_if (dev devcfg) WSetRoot heap1_root) ∧
  ∀ key', del plain_env devcfg 3 (VRef 0) key' heap1_root
          = Ok (warn_if (dev devcfg) WDelRoot heap1_root).
Proof.
  apply (X20_root_data_guarded plain_env devcfg 2 3 0 record_ab "c" (VNum (Fin 3))
           heap0 heap1_root).
  - reflexivity.
  - reflexivity.
  - reflexivity.
  - set_solver.
  - done.
  - reflexivity.
Defined.

End HeapFacts.

(** * Resolving and installing injections *)

Module InjectFacts.
Import Observer ObserverFacts Inject.

Lemma find_provided_none provideKey chain :
  Forall (λ source, ¬ provides source provideKey) chain →
  find_provided provideKey chain = None.
Proof.
  induction 1 as [|source chain Hs _ IH]; simpl; [done|].
  destruct source as [m|]; simpl; [|done].
  destruct (m !! provideKey) as [v|] eqn:Hv; [|done].
  exfalso. apply Hs. exists m. eauto.
Qed.

Lemma find_provided_nearest provideKey pre m post v :
  Forall (λ source, ¬ provides source provideKey) pre →
  m !! provideKey = Some v →
  find_provided provideKey (pre ++ Some m :: post) = Some v.
Proof.
  intros Hpre Hm. induction Hpre as [|source pre Hs _ IH]; simpl.
  { by rewrite Hm. }
  destruct source as [m'|]; simpl; [|done].
  destruct (m' !! provideKey) as [v'|] eqn:Hv; [|done].
  exfalso. apply Hs. exists m'. eauto.
Qed.

Lemma result_lookup_assign_eq key v r : result_lookup key (assign_key key v r) = Some v.
Proof.
  induction r as [|[k x] r IH]; simpl; [by rewrite decide_True|].
  destruct (decide (k = key)) as [->|]; simpl.
  - by rewrite decide_True.
  - by rewrite decide_False.
Qed.

Lemma result_lookup_assign_ne key key' v r :
  key ≠ key' → result_lookup key' (assign_key key v r) = result_lookup key' r.
Proof.
  intros Hne. induction r as [|[k x] r IH]; simpl; [by rewrite decide_False|].
  destruct (decide (k = key)) as [->|]; simpl.
  - by rewrite !decide_False.
  - by destruct (decide (k = key')).
Qed.

(** What one entry contributes. *)
Lemma resolve_key_other cfg vm chain acc key inj key' :
  key ≠ key' →
  result_lookup key' (resolve_key cfg vm chain acc (key, inj)).1 = result_lookup key' acc.1 ∧
  (key' ∈ (resolve_key cfg vm chain acc (key, inj)).2 ↔ key' ∈ acc.2).
Proof.
  intros Hne. unfold resolve_key.
  destruct (decide (key = "__ob__"%string)); [done|].
  destruct (find_provided (inj_from inj) chain); simpl;
    [by rewrite result_lookup_assign_ne|].
  destruct (inj_default inj) as [[v|f]|]; simpl;
    [by rewrite result_lookup_assign_ne..|].
  split; [done|]. destruct (dev cfg); [|done].
  rewrite elem_of_app, list_elem_of_singleton. naive_solver.
Qed.

Lemma resolve_rest cfg vm chain entries acc key :
  key ∉ entries.*1 →
  result_lookup key (foldl (resolve_key cfg vm chain) acc entries).1
    = result_lookup key acc.1 ∧
  (key ∈ (foldl (resolve_key cfg vm chain) acc entries).2 ↔ key ∈ acc.2).
Proof.
  revert acc. induction entries as [|[k inj] entries IH]; intros acc Hk; [done|].
  cbn [foldl]. rewrite fmap_cons in Hk. apply not_elem_of_cons in Hk as [Hne Hk].
  destruct (IH (resolve_key cfg vm chain acc (k, inj)) Hk) as [-> ->].
  apply resolve_key_other. done.
Qed.

(** X21.  [resolveInject] gives each injected key the value of the
    nearest provider: the first component, from the one being created
    up along [$parent], whose [_provided] has the [from] key as an own
    property, whatever the value (also [undefined]).  The [default] of
    the injection is used only when no component on the way provides
    the key; without a default the key is left out of the result, and
    a development build warns. *)
Theorem X21_resolveInject_nearest cfg vm chain entries key inj :
  NoDup entries.*1 → (key, inj) ∈ entries → key ≠ "__ob__"%string →
  ∃ res warns,
    resolveInject cfg vm chain (Some entries) = (Some res, warns) ∧
    (∀ pre m post v,
       chain = pre ++ Some m :: post →
       Forall (λ source, ¬ provides source (inj_from inj)) pre →
       m !! inj_from inj = Some v →
       result_lookup key res = Some v ∧ key ∉ warns) ∧
    (Forall (λ source, ¬ provides source (inj_from inj)) chain →
       match inj_default inj with
       | Some (DefaultValue v) => result_lookup key res = Some v ∧ key ∉ warns
       | Some (DefaultFn f) => result_lookup key res = Some (f vm) ∧ key ∉ warns
       | None => result_lookup key res = None ∧ (key ∈ warns ↔ dev cfg = true)
       end).
Proof.
  intros Hnd Hin Hob. unfold resolveInject. eexists _, _. split; [done|].
  apply list_elem_of_split in Hin as (l1 & l2 & ->).
  rewrite fmap_app, fmap_cons in Hnd. simpl in Hnd.
  apply NoDup_app in Hnd as (_ & Hdisj & Hnd2).
  apply NoDup_cons in Hnd2 as [Hk2 _].
  assert (Hk1 : key ∉ l1.*1).
  { intros H1. apply (Hdisj key H1). apply list_elem_of_here. }
  rewrite foldl_app. cbn [foldl].
  set (acc := foldl (resolve_key cfg vm chain) ([], []) l1).
  destruct (resolve_rest cfg vm chain l1 ([], []) key Hk1) as [Hacc1 Hacc2].
  fold acc in Hacc1, Hacc2. simpl in Hacc1, Hacc2.
  destruct (resolve_rest cfg vm chain l2 (resolve_key cfg vm chain acc (key, inj)) key Hk2)
    as [-> Hw].
  assert (Hnw : key ∉ acc.2) by (rewrite Hacc2; apply not_elem_of_nil).
  split.
  - intros pre m post v Hchain Hpre Hm. rewrite Hw.
    assert (Hf : find_provided (inj_from inj) chain = Some v)
      by (rewrite Hchain; by apply find_provided_nearest).
    unfold resolve_key. rewrite decide_False by done. rewrite Hf. simpl.
    by rewrite result_lookup_assign_eq.
  - intros Hnone. unfold resolve_key in Hw |- *.
    rewrite decide_False in Hw |- * by done.
    rewrite (find_provided_none _ chain Hnone) in Hw |- *.
    destruct (inj_default inj) as [[v|f]|]; simpl in *; rewrite Hw;
      [by rewrite result_lookup_assign_eq..|].
    split; [done|]. destruct (dev cfg).
    + rewrite elem_of_app, list_elem_of_singleton. naive_solver.
    + naive_solver.
Qed.

Lemma X21_resolveInject_nearest_witness :
  ∃ res warns,
    resolveInject (mkConfig true true) 0
      [None; Some {["theme" := VUndef]}; Some {["theme" := VStr "dark"]}]
      (Some [("color", mkInjection "theme" (Some (DefaultValue (VStr "light"))));
             ("size", mkInjection "size" None)]) = (Some res, warns) ∧
    (∀ pre m post v,
       [None; Some {["theme" := VUndef]}; Some {["theme" := VStr "dark"]}]
         = pre ++ Some m :: post →
       Forall (λ source, ¬ provides source "theme") pre →
       m !! "theme"%string = Some v →
       result_lookup "color" res = Some v ∧ "color"%string ∉ warns) ∧
    (Forall (λ source, ¬ provides source "theme")
       [None; Some {["theme" := VUndef]}; Some {["theme" := VStr "dark"]}] →
     result_lookup "color" res = Some (VStr "light") ∧ "color"%string ∉ warns).
Proof.
  apply (X21_resolveInject_nearest (mkConfig true true) 0
           [None; Some {["theme" := VUndef]}; Some {["theme" := VStr "dark"]}]
           [("color"%string, mkInjection "theme" (Some (DefaultValue (VStr "light"))));
            ("size"%string, mkInjection "size" None)]
           "color" (mkInjection "theme" (Some (DefaultValue (VStr "light"))))).
  - simpl. repeat constructor; set_solver.
  - apply list_elem_of_here.
  - done.
Defined.

(** ** initInjections *)

Lemma observe_value_off env fuel v h :
  shouldObserve h = false → observe_value env (S fuel) v h = Ok h.
Proof.
  intros Hs. unfold observe_value. simpl.
  destruct v as [| | | | |l]; try done.
  destruct (objs h !! l) as [o|]; [|done].
  destruct (_ || _); [done|].
  destruct (ob o); [done|]. by rewrite Hs.
Qed.

Lemma inject_one env fuel vm key v cs h o :
  shouldObserve h = false → objs h !! vm = Some o → extensible o = true →
  lookup_prop key (props o) = None →
  defineReactive env (S fuel) vm key (Some v) cs false h =
  Ok (upd_obj vm
        (set_props (store_prop key
           (PAccessor (Reactive (dep_uid h) v false cs no_accessor) true true)
           (props o)))
        (newDep h).2).
Proof.
  intros Hs Hl He Hk. unfold defineReactive, defineReactive_with. simpl.
  rewrite Hl, Hk. simpl.
  rewrite (observe_value_off env fuel v) by done. simpl.
  unfold defineAccessor. simpl. rewrite Hl, Hk, He.
  by rewrite orb_true_r.
Qed.

Lemma inject_all env cs fuel vm entries :
  ∀ h o, NoDup entries.*1 → shouldObserve h = false →
  objs h !! vm = Some o → extensible o = true →
  (∀ k, k ∈ entries.*1 → lookup_prop k (props o) = None) →
  ∃ h' o',
    for_each (λ kv, defineReactive env (S fuel) vm kv.1 (Some kv.2) cs false)
      entries h = Ok h' ∧
    shouldObserve h' = false ∧ dep_uid h' = dep_uid h + length entries ∧
    events h' = events h ∧
    (∀ l, l ≠ vm → objs h' !! l = objs h !! l) ∧
    objs h' !! vm = Some o' ∧ o' = set_props (props o') o ∧
    (∀ k, k ∉ entries.*1 → lookup_prop k (props o') = lookup_prop k (props o)) ∧
    (∀ k v, (k, v) ∈ entries →
       ∃ d, dep_uid h ≤ d < dep_uid h' ∧
            lookup_prop k (props o') =
              Some (PAccessor (Reactive d v false cs no_accessor) true true)).
Proof.
  induction entries as [|[key v] entries IH]; intros h o Hnd Hs Hl He Hk; simpl.
  { exists h, o. split; [done|]. split; [done|]. split; [lia|]. split; [done|].
    split; [done|]. split; [done|]. split; [by destruct o|]. split; [done|].
    intros k v Hin. by apply elem_of_nil in Hin. }
  simpl in Hnd. apply NoDup_cons in Hnd as [Hkey Hnd].
  set (o1 := set_props (store_prop key
               (PAccessor (Reactive (dep_uid h) v false cs no_accessor) true true)
               (props o)) o).
  set (h1 := upd_obj vm
               (set_props (store_prop key
                  (PAccessor (Reactive (dep_uid h) v false cs no_accessor) true true)
                  (props o)))
               (newDep h).2).
  assert (Hone : defineReactive env (S fuel) vm key (Some v) cs false h = Ok h1).
  { apply inject_one; try done. apply Hk. apply list_elem_of_here. }
  cbn [for_each fst snd]. rewrite Hone. cbn [mbind result_bind].
  assert (Hl1 : objs h1 !! vm = Some o1).
  { unfold h1. rewrite lookup_upd_obj, decide_True by done. simpl. by rewrite Hl. }
  destruct (IH h1 o1 Hnd) as (h' & o' & Hfe & Hs' & Hd' & Hev' & Hoth' & Hl' & Ho' & Hrest' & Hin');
    [done|done|done| |].
  { intros k Hin. unfold o1. simpl. rewrite lookup_store_prop_ne; [|by intros ->].
    apply Hk. by apply list_elem_of_further. }
  exists h', o'. split; [done|]. split; [done|].
  split; [rewrite Hd'; simpl; lia|]. split; [by rewrite Hev'|].
  split.
  { intros l Hne. rewrite Hoth' by done. unfold h1.
    by rewrite lookup_upd_obj, decide_False. }
  split; [done|]. split; [by rewrite Ho'|]. split.
  { intros k Hnin. apply not_elem_of_cons in Hnin as [Hne Hnin].
    rewrite Hrest' by done. unfold o1. simpl. by apply lookup_store_prop_ne. }
  intros k v' Hin. apply elem_of_cons in Hin as [[= -> ->]|Hin].
  - exists (dep_uid h). split; [rewrite Hd'; simpl; lia|].
    rewrite Hrest' by done. unfold o1. simpl. apply lookup_store_prop_eq.
  - destruct (Hin' k v' Hin) as (d & Hd & Hlook). exists d.
    split; [simpl in Hd; lia|done].
Qed.

(** X22.  [initInjections] puts each resolved injection on the
    component as a reactive property of its own Dep that reads the
    injected value, without making the value itself reactive: no other
    object of the heap is touched, so an injected record gets no
    Observer here, and nothing is notified.  Observing is switched on
    when it returns, whatever it was before.  In a development build
    the properties carry the setter that warns about mutation.
    Without an [inject] option nothing happens at all. *)
Theorem X22_initInjections env cfg fuel vm entries h o :
  objs h !! vm = Some o → extensible o = true → NoDup entries.*1 →
  (∀ k, k ∈ entries.*1 → lookup_prop k (props o) = None) →
  initInjections env cfg (S fuel) vm None h = Ok h ∧
  ∃ h' o',
    initInjections env cfg (S fuel) vm (Some entries) h = Ok h' ∧
    shouldObserve h' = true ∧ events h' = events h ∧
    dep_uid h' = dep_uid h + length entries ∧
    (∀ l, l ≠ vm → objs h' !! l = objs h !! l) ∧
    objs h' !! vm = Some o' ∧ ob o' = ob o ∧
    (∀ k, k ∉ entries.*1 → lookup_prop k (props o') = lookup_prop k (props o)) ∧
    (∀ k v, (k, v) ∈ entries →
       read h' vm k = Some v ∧
       ∃ d, dep_uid h ≤ d < dep_uid h' ∧
            lookup_prop k (props o') =
              Some (PAccessor (Reactive d v false (dev cfg) no_accessor) true true)).
Proof.
  intros Hl He Hnd Hk. split; [done|]. unfold initInjections.
  destruct (inject_all env (dev cfg) fuel vm entries (toggleObserving false h) o)
    as (h1 & o' & Hfe & Hs & Hd & Hev & Hoth & Hl' & Ho' & Hrest & Hin); try done.
  rewrite Hfe. simpl. eexists _, o'. split; [done|]. split; [done|].
  split; [done|]. split; [done|]. split; [done|]. split; [done|].
  split; [by rewrite Ho'|]. split; [done|].
  intros k v Hkv. destruct (Hin k v Hkv) as (d & Hdd & Hlook).
  split; [|by exists d]. unfold read. simpl. rewrite Hl'. simpl. by rewrite Hlook.
Qed.

Lemma X22_initInjections_witness :
  initInjections plain_env devcfg 1 0 None vm_heap = Ok vm_heap ∧
  ∃ h' o',
    initInjections plain_env devcfg 1 0 (Some [("store"%string, VRef 1)]) vm_heap
      = Ok h' ∧
    shouldObserve h' = true ∧ events h' = events vm_heap ∧
    dep_uid h' = dep_uid vm_heap + length [("store"%string, VRef 1)] ∧
    (∀ l, l ≠ 0 → objs h' !! l = objs vm_heap !! l) ∧
    objs h' !! 0 = Some o' ∧ ob o' = ob (mkObj KObject true true false None [] [] []) ∧
    (∀ k, k ∉ [("store"%string, VRef 1)].*1 →
          lookup_prop k (props o') =
          lookup_prop k (props (mkObj KObject true true false None [] [] []))) ∧
    (∀ k v, (k, v) ∈ [("store"%string, VRef 1)] →
       read h' 0 k = Some v ∧
       ∃ d, dep_uid vm_heap ≤ d < dep_uid h' ∧
            lookup_prop k (props o') =
              Some (PAccessor (Reactive d v false (dev devcfg) no_accessor) true true)).
Proof.
  apply (X22_initInjections plain_env devcfg 0 0 [("store"%string, VRef 1)] vm_heap
           (mkObj KObject true true false None [] [] [])).
  - reflexivity.
  - reflexivity.
  - simpl. repeat constructor. set_solver.
  - intros k _. reflexivity.
Defined.

End InjectFacts.

(** * Listeners: registration, dispatch and removal *)

Module EventsFacts.
Import Events.

Lemma cbs_of_on_one_eq e fn vm :
  cbs_of (on_one e fn vm) e = Some (listeners vm e ++ [fn]).
Proof. unfold cbs_of, on_one. simpl. by rewrite lookup_insert_eq. Qed.

Lemma cbs_of_on_one_ne e e' fn vm :
  e ≠ e' → cbs_of (on_one e fn vm) e' = cbs_of vm e'.
Proof. intros Hne. unfold cbs_of, on_one. simpl. by rewrite lookup_insert_ne. Qed.

Lemma on_one_frame e fn vm :
  serial (on_one e fn vm) = serial vm ∧ log (on_one e fn vm) = log vm.
Proof. done. Qed.

(** The registrations of functions of the program, one after the
    other. *)
Lemma registered regs e vm :
  let vm' := foldl (λ vm r, on (One r.1) (UserFn r.2) vm) vm regs in
  listeners vm' e = listeners vm e ++ (UserFn <$> (filter (λ r, r.1 = e) regs).*2) ∧
  (is_Some (cbs_of vm' e) ↔ is_Some (cbs_of vm e) ∨ e ∈ regs.*1) ∧
  log vm' = log vm ∧ serial vm' = serial vm.
Proof.
  revert vm. induction regs as [|[e0 f] regs IH]; intros vm; simpl.
  { rewrite app_nil_r. split; [done|]. split; [|done].
    split; [by left|]. intros [?|H]; [done|]. by apply elem_of_nil in H. }
  destruct (IH (on_one e0 (UserFn f) vm)) as (Hl & Hs & Hlog & Hser).
  simpl in *. rewrite Hl, Hlog, Hser. split; [|split; [|done]].
  - rewrite filter_cons. simpl. destruct (decide (e0 = e)) as [->|Hne].
    + unfold listeners at 1. rewrite cbs_of_on_one_eq. simpl.
      by rewrite <- app_assoc.
    + unfold listeners at 1. by rewrite cbs_of_on_one_ne.
  - rewrite Hs, elem_of_cons. destruct (decide (e0 = e)) as [->|Hne].
    + rewrite cbs_of_on_one_eq. split; [by right; left|]. intros _. left. eauto.
    + rewrite cbs_of_on_one_ne by done. naive_solver.
Qed.

Lemma invoke_users args fs vm :
  foldl (λ vm cb, invoke cb args vm) vm (UserFn <$> fs) =
  mkVm (_events vm) (_hasHookEvent vm) (serial vm)
       (log vm ++ ((λ f, EvCall f args) <$> fs)).
Proof.
  revert vm. induction fs as [|f fs IH]; intros vm; simpl.
  { rewrite app_nil_r. by destruct vm. }
  rewrite IH. simpl. by rewrite <- app_assoc.
Qed.

Lemma called_calls (fs : list nat) (args : list jsval) :
  called ((λ f, EvCall f args) <$> fs) = (λ f, (f, args)) <$> fs.
Proof. unfold called. induction fs as [|f fs IH]; csimpl; [done|]. by f_equal. Qed.

(** [$emit]: the tip, if any, and then the loop. *)
Lemma emit_unfold lower cfg e args vm :
  ∃ tip, (tip = [] ∨ tip = [EvTip e]) ∧
    emit lower cfg e args vm =
    let vm0 := mkVm (_events vm) (_hasHookEvent vm) (serial vm) (log vm ++ tip) in
    match cbs_of vm e with
    | Some cbs => foldl (λ vm cb, invoke cb args vm) vm0 cbs
    | None => vm0
    end.
Proof.
  unfold emit.
  destruct (dev cfg && negb (bool_decide (lower e = e)) &&
            bool_decide (is_Some (cbs_of vm (lower e)))).
  - exists [EvTip e]. split; [by right|]. done.
  - exists []. split; [by left|]. simpl. rewrite app_nil_r. by destruct vm.
Qed.

Lemma called_app l1 l2 : called (l1 ++ l2) = called l1 ++ called l2.
Proof. apply omap_app. Qed.

Lemma called_tip e (tip : list Event) :
  tip = [] ∨ tip = [EvTip e] → called tip = [].
Proof. by intros [-> | ->]. Qed.

(** [$emit] when every listener of the event is a function of the
    program. *)
Lemma emit_users lower cfg e args vm fs :
  listeners vm e = UserFn <$> fs →
  _events (emit lower cfg e args vm) = _events vm ∧
  serial (emit lower cfg e args vm) = serial vm ∧
  _hasHookEvent (emit lower cfg e args vm) = _hasHookEvent vm ∧
  called (log (emit lower cfg e args vm)) = called (log vm) ++ ((λ f, (f, args)) <$> fs).
Proof.
  intros Hfs. destruct (emit_unfold lower cfg e args vm) as (tip & Htip & ->).
  apply (called_tip e) in Htip. simpl. unfold listeners in Hfs.
  destruct (cbs_of vm e) as [cbs|]; simpl in Hfs.
  - rewrite Hfs, invoke_users. simpl. split; [done|]. split; [done|]. split; [done|].
    by rewrite !called_app, Htip, called_calls, app_nil_r.
  - destruct fs; [|done]. simpl. by rewrite called_app, Htip.
Qed.

(** X23.  Listeners are called in the order of their registration:
    after any registrations with [$on] on a component that had no
    listener, [$emit] of an event calls the functions registered for
    that event and no other, first registered first, each with the
    arguments of [$emit], a function as often as it was registered;
    it leaves all registrations as they are. *)
Theorem X23_emit_in_order lower cfg regs e args vm :
  _events vm = ∅ →
  let vm' := foldl (λ vm r, on (One r.1) (UserFn r.2) vm) vm regs in
  called (log (emit lower cfg e args vm')) =
    called (log vm) ++ ((λ f, (f, args)) <$> (filter (λ r, r.1 = e) regs).*2) ∧
  _events (emit lower cfg e args vm') = _events vm'.
Proof.
  intros Hempty vm'.
  destruct (registered regs e vm) as (Hl & _ & Hlog & _). fold vm' in Hl, Hlog.
  assert (Hnil : listeners vm e = []).
  { unfold listeners, cbs_of. by rewrite Hempty, lookup_empty. }
  rewrite Hnil in Hl. simpl in Hl.
  destruct (emit_users lower cfg e args vm' _ Hl) as (He & _ & _ & Hc).
  rewrite Hc, Hlog. done.
Qed.

Lemma X23_emit_in_order_witness :
  called (log (emit (λ s, s) (mkConfig true true) "a" [VNull]
                 (foldl (λ vm r, on (One r.1) (UserFn r.2) vm) fresh
                    [("a"%string, 2); ("b"%string, 7); ("a"%string, 1);
                     ("a"%string, 2)]))) =
    called (log fresh)
    ++ ((λ f, (f, [VNull])) <$>
          (filter (λ r, r.1 = "a"%string)
             [("a"%string, 2); ("b"%string, 7); ("a"%string, 1); ("a"%string, 2)]).*2) ∧
  _events (emit (λ s, s) (mkConfig true true) "a" [VNull]
             (foldl (λ vm r, on (One r.1) (UserFn r.2) vm) fresh
                [("a"%string, 2); ("b"%string, 7); ("a"%string, 1); ("a"%string, 2)])) =
  _events (foldl (λ vm r, on (One r.1) (UserFn r.2) vm) fresh
             [("a"%string, 2); ("b"%string, 7); ("a"%string, 1); ("a"%string, 2)]).
Proof.
  apply (X23_emit_in_order (λ s, s) (mkConfig true true)
           [("a"%string, 2); ("b"%string, 7); ("a"%string, 1); ("a"%string, 2)]
           "a" [VNull] fresh).
  reflexivity.
Defined.

(** ** Removal *)

Lemma off_handler_last fn cb cbs :
  matches fn cb = true → off_handler fn (cbs ++ [cb]) = cbs.
Proof.
  intros Hm. unfold off_handler. rewrite reverse_snoc. simpl. rewrite Hm.
  apply reverse_involutive.
Qed.

Lemma off_one_last e fn cb vm :
  matches fn cb = true →
  off_one e (Some fn) (on_one e cb vm) =
  mkVm (<[e := Some (listeners vm e)]> (_events vm))
       (if is_hook e then true else _hasHookEvent vm) (serial vm) (log vm).
Proof.
  intros Hm. unfold off_one. rewrite cbs_of_on_one_eq.
  rewrite (off_handler_last fn cb _ Hm). unfold on_one. simpl.
  by rewrite insert_insert_eq.
Qed.

(** X24.  [$off(event, fn)] takes one listener off, the last one
    registered that is [fn] or a [$once] wrapper of [fn]: it undoes
    the [$on(event, fn)] or the [$once(event, fn)] that came just
    before, so that the event has the listeners it had, and the
    listeners of the other events are not touched.  A function
    registered twice is still registered once after one [$off]. *)
Theorem X24_off_undoes_last e fn vm :
  (listeners (off (OffEvent (One e) (Some fn)) (on (One e) fn vm)) e
     = listeners vm e ∧
   listeners (off (OffEvent (One e) (Some fn)) (once e fn vm)) e
     = listeners vm e ∧
   listeners (off (OffEvent (One e) (Some fn)) (on (One e) fn (on (One e) fn vm))) e
     = listeners vm e ++ [fn]) ∧
  ∀ e', e' ≠ e →
    cbs_of (off (OffEvent (One e) (Some fn)) (on (One e) fn vm)) e' = cbs_of vm e' ∧
    cbs_of (off (OffEvent (One e) (Some fn)) (once e fn vm)) e' = cbs_of vm e'.
Proof.
  assert (Hself : matches fn fn = true).
  { unfold matches. by rewrite bool_decide_eq_true_2. }
  assert (Honce : ∀ s, matches fn (OnceFn s e fn) = true).
  { intros s. unfold matches. simpl.
    rewrite (bool_decide_eq_true_2 (Some fn = Some fn)) by done.
    by rewrite orb_true_r. }
  split; [split; [|split]|].
  - simpl. rewrite (off_one_last e fn fn vm Hself).
    unfold listeners, cbs_of. simpl. by rewrite lookup_insert_eq.
  - unfold once. simpl. rewrite (off_one_last e fn _ _ (Honce (serial vm))).
    unfold listeners, cbs_of. simpl. by rewrite lookup_insert_eq.
  - simpl. rewrite (off_one_last e fn fn _ Hself).
    unfold listeners at 1, cbs_of at 1. simpl. rewrite lookup_insert_eq. simpl.
    unfold listeners at 1. by rewrite cbs_of_on_one_eq.
  - intros e' Hne. split.
    + simpl. rewrite (off_one_last e fn fn vm Hself).
      unfold cbs_of. simpl. by rewrite lookup_insert_ne.
    + unfold once. simpl. rewrite (off_one_last e fn _ _ (Honce (serial vm))).
      unfold cbs_of. simpl. by rewrite lookup_insert_ne.
Qed.

(** ** once *)

Lemma invoke_once_last e f args vm fs s :
  cbs_of vm e = Some ((UserFn <$> fs) ++ [OnceFn s e (UserFn f)]) →
  invoke (OnceFn s e (UserFn f)) args vm =
  mkVm (<[e := Some (UserFn <$> fs)]> (_events vm)) (_hasHookEvent vm) (serial vm)
       (log vm ++ [EvCall f args]).
Proof.
  intros Hcbs. cbn [invoke]. unfold off_one. rewrite Hcbs.
  rewrite off_handler_last; [done|].
  unfold matches. by rewrite bool_decide_eq_true_2.
Qed.

(** X25.  A listener registered with [$once] is called once: on a
    component whose listeners for the event are functions of the
    program, registered with [$on] (none of them with [$once], whose
    wrapper takes itself off the list), the first [$emit] after
    [$once(event, f)] calls those
    listeners and then [f], with the arguments of [$emit], and leaves
    the event with the listeners it had before [$once]; the next
    [$emit] calls those and not [f]. *)
Theorem X25_once_fires_once lower cfg e f args args' vm fs :
  listeners vm e = UserFn <$> fs →
  let vm1 := emit lower cfg e args (once e (UserFn f) vm) in
  called (log vm1) = called (log vm) ++ ((λ g, (g, args)) <$> fs) ++ [(f, args)] ∧
  listeners vm1 e = UserFn <$> fs ∧
  called (log (emit lower cfg e args' vm1)) =
    called (log vm1) ++ ((λ g, (g, args')) <$> fs).
Proof.
  intros Hfs vm1.
  set (vm0 := once e (UserFn f) vm) in *.
  assert (Hcbs0 : cbs_of vm0 e = Some ((UserFn <$> fs) ++ [OnceFn (serial vm) e (UserFn f)])).
  { unfold vm0, once. rewrite cbs_of_on_one_eq. unfold listeners at 1, cbs_of.
    simpl. fold (cbs_of vm e). fold (listeners vm e). by rewrite Hfs. }
  assert (Hlog0 : log vm0 = log vm) by done.
  clearbody vm0.
  assert (Hvm1 : ∃ tip, (tip = [] ∨ tip = [EvTip e]) ∧ vm1 =
            mkVm (<[e := Some (UserFn <$> fs)]> (_events vm0)) (_hasHookEvent vm0)
                 (serial vm0)
                 (((log vm ++ tip) ++ ((λ g, EvCall g args) <$> fs)) ++ [EvCall f args])).
  { unfold vm1. destruct (emit_unfold lower cfg e args vm0) as (tip & Htip & ->).
    exists tip. split; [done|]. cbv zeta.
    rewrite Hcbs0, foldl_app, invoke_users. cbn [foldl].
    rewrite (invoke_once_last e f args _ fs (serial vm)) by exact Hcbs0.
    cbn [_events _hasHookEvent serial log]. by rewrite Hlog0. }
  destruct Hvm1 as (tip & Htip & Hvm1). apply (called_tip e) in Htip.
  assert (Hl1 : listeners vm1 e = UserFn <$> fs).
  { rewrite Hvm1. unfold listeners, cbs_of. simpl. by rewrite lookup_insert_eq. }
  split; [|split; [done|]].
  - rewrite Hvm1. cbn [log].
    by rewrite !called_app, Htip, called_calls, app_nil_r, <- app_assoc.
  - by destruct (emit_users lower cfg e args' vm1 fs Hl1) as (_ & _ & _ & ->).
Qed.

Lemma X25_once_fires_once_witness :
  called (log (emit (λ s, s) (mkConfig true true) "a" [VNull]
                 (once "a" (UserFn 9) (on (One "a") (UserFn 1) fresh)))) =
    called (log (on (One "a") (UserFn 1) fresh))
    ++ ((λ g, (g, [VNull])) <$> [1]) ++ [(9, [VNull])] ∧
  listeners (emit (λ s, s) (mkConfig true true) "a" [VNull]
               (once "a" (UserFn 9) (on (One "a") (UserFn 1) fresh))) "a"
    = UserFn <$> [1] ∧
  called (log (emit (λ s, s) (mkConfig true true) "a" [VUndef]
                 (emit (λ s, s) (mkConfig true true) "a" [VNull]
                    (once "a" (UserFn 9) (on (One "a") (UserFn 1) fresh))))) =
    called (log (emit (λ s, s) (mkConfig true true) "a" [VNull]
                   (once "a" (UserFn 9) (on (One "a") (UserFn 1) fresh))))
    ++ ((λ g, (g, [VUndef])) <$> [1]).
Proof.
  apply (X25_once_fires_once (λ s, s) (mkConfig true true) "a" 9 [VNull] [VUndef]
           (on (One "a") (UserFn 1) fresh) [1]).
  reflexivity.
Defined.

End EventsFacts.

(** * Merged lifecycle hooks *)

Module OptionsFacts.
Import Options.

Lemma dedupe_loop (res hooks : list nat) :
  NoDup res →
  let out := foldl (λ res hook, if decide (hook ∈ res) then res else res ++ [hook])
               res hooks in
  NoDup out ∧ (∀ f, f ∈ out ↔ f ∈ res ∨ f ∈ hooks) ∧ res `prefix_of` out ∧
  (NoDup hooks → (∀ f, f ∈ hooks → f ∉ res) → out = res ++ hooks).
Proof.
  revert res. induction hooks as [|hook hooks IH]; intros res Hnd; simpl.
  { split; [done|]. split; [set_solver|]. split; [done|]. intros _ _.
    by rewrite app_nil_r. }
  destruct (decide (hook ∈ res)) as [Hin|Hnin].
  - destruct (IH res Hnd) as (H1 & H2 & H3 & H4).
    split; [done|]. split; [|split; [done|]].
    + intros f. rewrite H2, elem_of_cons. naive_solver.
    + intros _ Hdisj. exfalso. apply (Hdisj hook); [apply list_elem_of_here|done].
  - destruct (IH (res ++ [hook])) as (H1 & H2 & H3 & H4).
    { apply NoDup_app. split; [done|]. split; [|apply NoDup_singleton].
      intros x Hx Hx'%list_elem_of_singleton. by subst. }
    split; [done|]. split; [|split].
    + intros f. rewrite H2, elem_of_app, list_elem_of_singleton, elem_of_cons.
      naive_solver.
    + by eapply prefix_app_l.
    + intros Hndh Hdisj. apply NoDup_cons in Hndh as [Hh Hndh].
      rewrite H4, <- app_assoc; [done|done|].
      intros f Hf [Hr|Hs%list_elem_of_singleton]%elem_of_app.
      * apply (Hdisj f); [by apply list_elem_of_further|done].
      * by subst.
Qed.

Lemma dedupeHooks_spec hooks :
  NoDup (dedupeHooks hooks) ∧ (∀ f, f ∈ dedupeHooks hooks ↔ f ∈ hooks) ∧
  (NoDup hooks → dedupeHooks hooks = hooks).
Proof.
  destruct (dedupe_loop [] hooks (NoDup_nil_2 (A:=nat))) as (H1 & H2 & _ & H4).
  split; [done|]. split.
  - intros f. unfold dedupeHooks. rewrite H2. set_solver.
  - intros Hnd. unfold dedupeHooks. rewrite H4; [done|done|]. set_solver.
Qed.

Lemma dedupeHooks_app p c :
  NoDup p → p `prefix_of` dedupeHooks (p ++ c).
Proof.
  intros Hnd. unfold dedupeHooks. rewrite foldl_app.
  destruct (dedupe_loop [] p (NoDup_nil_2 (A:=nat))) as (_ & _ & _ & H4).
  assert (foldl (λ res hook, if decide (hook ∈ res) then res else res ++ [hook]) [] p
          = p) as -> by (rewrite H4; [done|done|set_solver]).
  by destruct (dedupe_loop p c Hnd) as (_ & _ & H3 & _).
Qed.

(** X26.  [mergeHook] answers [undefined] only when neither side has
    hooks.  Otherwise the merged array has every hook of the parent
    and of the child and nothing else, each of them once; the hooks
    of a parent that has none twice come first, in the parent's order,
    so they run before the child's; and merging the result with a
    child that has no hooks gives the result back. *)
Theorem X26_mergeHook parentVal childVal :
  match mergeHook parentVal childVal with
  | Some res =>
    NoDup res ∧
    (∀ f, f ∈ res ↔ f ∈ default [] parentVal ∨ f ∈ hooks_of childVal) ∧
    (NoDup (default [] parentVal) → default [] parentVal `prefix_of` res) ∧
    mergeHook (Some res) None = Some res
  | None => parentVal = None ∧ childVal = None
  end.
Proof.
  unfold mergeHook.
  assert (Hall : ∀ p c,
    NoDup (dedupeHooks (p ++ c)) ∧
    (∀ f, f ∈ dedupeHooks (p ++ c) ↔ f ∈ p ∨ f ∈ c) ∧
    (NoDup p → p `prefix_of` dedupeHooks (p ++ c)) ∧
    dedupeHooks <$> Some (dedupeHooks (p ++ c)) = Some (dedupeHooks (p ++ c))).
  { intros p c. destruct (dedupeHooks_spec (p ++ c)) as (H1 & H2 & H3).
    split; [done|]. split; [intros f; by rewrite H2, elem_of_app|].
    split; [apply dedupeHooks_app|]. simpl. f_equal.
    by apply dedupeHooks_spec. }
  destruct childVal as [[f|l]|], parentVal as [p|]; simpl;
    [apply (Hall p [f])|apply (Hall [] [f])|apply (Hall p l)|apply (Hall [] l)| |done].
  destruct (Hall p []) as (H1 & H2 & H3 & H4). rewrite app_nil_r in *.
  split; [done|]. split; [|done]. intros f. rewrite H2. set_solver.
Qed.

End OptionsFacts.

(** * Merged data records *)

Module MergeFacts.
Import Observer ObserverFacts MergeData.











(** ** Observing makes no root *)









(** ** A key that the record does not have *)








(** ** The loop of [mergeData] *)
















End MergeFacts.
